(** * audio-mp3: streaming framing and WAV container logic

    A shallow embedding of the Go package [mp3] of lizc2003/audio-mp3:
    the encoder session of enc.go (carry-over of partial sample frames,
    output-buffer estimate, flush), the decoder session, and the WAV
    container reader, writer and the two stream drivers.

    Conventions.
    - A Go [int] is a [Z] kept in the 64-bit two's-complement range by
      [wrap64]; [uint16] and [uint32] conversions reduce modulo 2^16 and
      2^32; [/] and [%] are [Z.quot] and [Z.rem] and panic on a zero
      divisor.
    - A [[]byte] is a [list byte]; [s[a:b]] is [take (b-a) (drop a s)].
    - LAME and mpg123 are outside the package: their entry points are the
      fields of the classes [Lame] and [Mpg123] over an abstract handle
      state, so every statement holds for every engine.
    - An [io.Reader] is modelled by the bytes it still has to deliver
      (an in-memory reader: [Read] hands out at most [len(buf)] of them and
      [io.EOF] once none is left); [io.Writer] and [io.WriteSeeker] are
      classes so that destinations may fail. *)

From Stdlib Require Import ZArith List Lia Bool QArith Qround.
From Stdlib Require Import Strings.Byte Strings.String.
From Stdlib Require Import Floats.SpecFloat.
From stdpp Require Import base option list gmap.

Local Open Scope Z_scope.

(** ** Bytes and Go integers *)

Abbreviation byte := Byte.byte.

#[global] Instance byte_eq_dec : EqDecision byte := Byte.byte_eq_dec.

(** [byte(v)]: the low eight bits. *)
Definition byte_of_Z (v : Z) : byte :=
  match Byte.of_N (Z.to_N (v mod 256)) with
  | Some b => b
  | None => Byte.x00
  end.

Definition Z_of_byte (b : byte) : Z := Z.of_N (Byte.to_N b).

Definition wrap64 (v : Z) : Z := (v + 2 ^ 63) mod 2 ^ 64 - 2 ^ 63.
Definition uint16 (v : Z) : Z := v mod 2 ^ 16.
Definition uint32 (v : Z) : Z := v mod 2 ^ 32.

(** [len(s)] as a Go int. *)
Definition len {A} (s : list A) : Z := Z.of_nat (length s).

(** [s[a:b]] for in-range bounds. *)
Definition slice {A} (a b : nat) (s : list A) : list A := take (b - a) (drop a s).

(** [copy(dst[off:off+len(src)], src)]. *)
Definition copy_at (off : nat) (src dst : list byte) : list byte :=
  take off dst ++ src ++ drop (off + length src) dst.

(** ** Errors, panics and outcomes *)

Inductive error : Type :=
  | ErrInputEmpty                 (* "input buffer is empty" *)
  | ErrOutputTooSmall             (* "output buffer is too small" *)
  | ErrLameInit                   (* "failed to initialize lame" *)
  | ErrorBufferTooSmall
  | ErrorMalloc
  | ErrorParamsNotInitialized
  | ErrorPsychoAcousticProblems
  | ErrorUnknown
  | ErrReadRiff                   (* "read RIFF header failed" *)
  | ErrInvalidRiff                (* "invalid WAV header: missing RIFF/WAVE" *)
  | ErrReadChunkHeader            (* "read chunk header failed" *)
  | ErrFmtSize (sz : Z)           (* "invalid fmt chunk size: %d" *)
  | ErrReadFmt                    (* "read fmt chunk failed" *)
  | ErrAudioFormat (code : Z)     (* "unsupported audio format: %d" *)
  | ErrDataBeforeFmt              (* "data chunk found before fmt chunk" *)
  | ErrSkipChunk (tag : list byte) (* "skip chunk %s failed" *)
  | ErrBitsPerSample (bits : Z)   (* "unsupported bits per sample: %d" *)
  | ErrMpg123Init                 (* "mpg123 not initialized" *)
  | ErrDecOutputTooSmall          (* "output buffer size is not enough" *)
  | ErrMpg123 (code : Z)          (* plainStrError(errNo) *)
  | ErrUnsupportedEncoding (enc : Z)
  | ErrNoAudio                    (* "no audio frames decoded" *)
  | ErrPlaceholder (cause : error) (* "write placeholder header failed: %w" *)
  | ErrSeekStart (cause : error)  (* "seek to start failed: %w" *)
  | ErrRealHeader (cause : error) (* "write real header failed: %w" *)
  | ErrIO (code : Z).             (* an error of the destination stream *)

Inductive panic : Type :=
  | DivideByZero
  | NilDereference
  | IndexOutOfRange.

(** What a call can do: return, return an error, panic, or (for the loops
    that are run on fuel) not finish within the fuel. *)
Inductive outcome (A : Type) : Type :=
  | Ok (a : A)
  | Fail (e : error)
  | Panic (p : panic)
  | OutOfFuel.
Arguments Ok {A} a.
Arguments Fail {A} e.
Arguments Panic {A} p.
Arguments OutOfFuel {A}.

#[global] Instance outcome_ret : MRet outcome := fun A a => Ok a.
#[global] Instance outcome_bind : MBind outcome := fun A B k m =>
  match m with
  | Ok a => k a
  | Fail e => Fail e
  | Panic p => Panic p
  | OutOfFuel => OutOfFuel
  end.

Definition failed {A} (o : outcome A) : Prop := exists e, o = Fail e.

(** Go integer division and remainder. *)
Definition go_div (a b : Z) : outcome Z :=
  if b =? 0 then Panic DivideByZero else Ok (wrap64 (Z.quot a b)).
Definition go_mod (a b : Z) : outcome Z :=
  if b =? 0 then Panic DivideByZero else Ok (Z.rem a b).

(** ** encoding/binary, little endian *)

Module LittleEndian.

Definition PutUint16 (v : Z) : list byte :=
  [byte_of_Z v; byte_of_Z (Z.shiftr v 8)].

Definition PutUint32 (v : Z) : list byte :=
  [byte_of_Z v; byte_of_Z (Z.shiftr v 8);
   byte_of_Z (Z.shiftr v 16); byte_of_Z (Z.shiftr v 24)].

Definition Uint16 (b : list byte) : Z :=
  match b with
  | b0 :: b1 :: _ => Z.lor (Z_of_byte b0) (Z.shiftl (Z_of_byte b1) 8)
  | _ => 0
  end.

Definition Uint32 (b : list byte) : Z :=
  match b with
  | b0 :: b1 :: b2 :: b3 :: _ =>
      Z.lor (Z.lor (Z.lor (Z_of_byte b0) (Z.shiftl (Z_of_byte b1) 8))
                   (Z.shiftl (Z_of_byte b2) 16))
            (Z.shiftl (Z_of_byte b3) 24)
  | _ => 0
  end.

End LittleEndian.

(** ** The WAV container (dec-exam.go) *)

Definition WavHeaderSize : Z := 44.

Definition tag_RIFF : list byte := list_byte_of_string "RIFF".
Definition tag_WAVE : list byte := list_byte_of_string "WAVE".
Definition tag_fmt  : list byte := list_byte_of_string "fmt ".
Definition tag_data : list byte := list_byte_of_string "data".

Definition GenerateWavHeader (pcmSize sampleRate numChannels bitsPerSample : Z)
  : list byte :=
  let header := replicate (Z.to_nat WavHeaderSize) Byte.x00 in
  let byteRate :=
    wrap64 (Z.quot (wrap64 (wrap64 (sampleRate * numChannels) * bitsPerSample)) 8) in
  let blockAlign := wrap64 (Z.quot (wrap64 (numChannels * bitsPerSample)) 8) in
  (* RIFF *)
  let header := copy_at 0 tag_RIFF header in
  let header := copy_at 4 (LittleEndian.PutUint32 (uint32 (wrap64 (36 + pcmSize)))) header in
  let header := copy_at 8 tag_WAVE header in
  (* fmt *)
  let header := copy_at 12 tag_fmt header in
  let header := copy_at 16 (LittleEndian.PutUint32 16) header in
  let header := copy_at 20 (LittleEndian.PutUint16 1) header in
  let header := copy_at 22 (LittleEndian.PutUint16 (uint16 numChannels)) header in
  let header := copy_at 24 (LittleEndian.PutUint32 (uint32 sampleRate)) header in
  let header := copy_at 28 (LittleEndian.PutUint32 (uint32 byteRate)) header in
  let header := copy_at 32 (LittleEndian.PutUint16 (uint16 blockAlign)) header in
  let header := copy_at 34 (LittleEndian.PutUint16 (uint16 bitsPerSample)) header in
  (* data *)
  let header := copy_at 36 tag_data header in
  let header := copy_at 40 (LittleEndian.PutUint32 (uint32 pcmSize)) header in
  header.

(** [io.ReadFull(r, buf)] with [len(buf) = n] on an in-memory stream: the
    bytes read and the rest of the stream, or nothing when the stream ends
    first. *)
Definition ReadFull (n : nat) (s : list byte) : option (list byte * list byte) :=
  if (n <=? length s)%nat then Some (take n s, drop n s) else None.

(** [io.CopyN(io.Discard, r, n)]. *)
Definition Discard (n : nat) (s : list byte) : option (list byte) :=
  if (n <=? length s)%nat then Some (drop n s) else None.

Record WavInfo : Type := mkWavInfo {
  pcmSize : Z;
  sampleRate : Z;
  numChannels : Z;
  bitsPerSample : Z
}.

(** The named results and [fmtChunkFound] as they stand at the top of an
    iteration of the chunk loop. *)
Record ScanState : Type := mkScan {
  scSampleRate : Z;
  scNumChannels : Z;
  scBitsPerSample : Z;
  fmtChunkFound : bool
}.

Definition scan0 : ScanState := mkScan 0 0 0 false.

(** The chunk loop of [ParseWavHeader]; one unit of fuel per iteration. *)
Fixpoint scanChunks (fuel : nat) (st : ScanState) (s : list byte)
  : outcome (WavInfo * list byte) :=
  match fuel with
  | O => OutOfFuel
  | S fuel =>
      match ReadFull 8 s with
      | None => Fail ErrReadChunkHeader
      | Some (chunkHeader, s) =>
          let chunkID := slice 0 4 chunkHeader in
          let chunkSize := LittleEndian.Uint32 (slice 4 8 chunkHeader) in
          if bool_decide (chunkID = tag_fmt) then
            if chunkSize <? 16 then Fail (ErrFmtSize chunkSize)
            else
              match ReadFull (Z.to_nat chunkSize) s with
              | None => Fail ErrReadFmt
              | Some (fmtData, s) =>
                  let audioFormat := LittleEndian.Uint16 (slice 0 2 fmtData) in
                  let numChannels := LittleEndian.Uint16 (slice 2 4 fmtData) in
                  let sampleRate := LittleEndian.Uint32 (slice 4 8 fmtData) in
                  let bitsPerSample := LittleEndian.Uint16 (slice 14 16 fmtData) in
                  if negb (audioFormat =? 1) then Fail (ErrAudioFormat audioFormat)
                  else scanChunks fuel (mkScan sampleRate numChannels bitsPerSample true) s
              end
          else if bool_decide (chunkID = tag_data) then
            if negb (fmtChunkFound st) then Fail ErrDataBeforeFmt
            else Ok (mkWavInfo chunkSize (scSampleRate st) (scNumChannels st)
                               (scBitsPerSample st), s)
          else
            match Discard (Z.to_nat chunkSize) s with
            | None => Fail (ErrSkipChunk chunkID)
            | Some s => scanChunks fuel st s
            end
      end
  end.

(** [ParseWavHeader]: the parsed fields and the stream positioned at the
    first payload byte.  Every iteration of the loop consumes at least the
    eight bytes of a chunk header, so the length of the stream is fuel
    enough ([ParseWavHeader_terminates]). *)
Definition ParseWavHeader (wavStream : list byte) : outcome (WavInfo * list byte) :=
  match ReadFull 12 wavStream with
  | None => Fail ErrReadRiff
  | Some (riffHeader, s) =>
      if negb (bool_decide (slice 0 4 riffHeader = tag_RIFF))
         || negb (bool_decide (slice 8 12 riffHeader = tag_WAVE))
      then Fail ErrInvalidRiff
      else scanChunks (S (length s)) scan0 s
  end.

(** ** float64, as far as [EstimateOutBufBytes] uses it

    IEEE 754 binary64 with round-to-nearest-even, from the specification
    of floating-point numbers of the Standard Library. *)

Definition float64 : Type := spec_float.

(** [float64(v)] for an int [v]. *)
Definition float64_of_int (v : Z) : float64 := binary_normalize 53 1024 v 0 false.

Definition float64_mul (x y : float64) : float64 := SFmul 53 1024 x y.

(** The constant [1.25], which is 5 * 2^-2. *)
Definition f1_25 : float64 := binary_normalize 53 1024 5 (-2) false.

(** [int(f)]: truncation toward zero; outside the int range (and for
    infinities and NaN) the amd64 result, the least int. *)
Definition int_of_float64 (f : float64) : Z :=
  match f with
  | S754_zero _ => 0
  | S754_finite s m e =>
      let t := cond_Zopp s (if 0 <=? e then Z.pos m * 2 ^ e
                            else Z.quot (Z.pos m) (2 ^ (- e))) in
      if (- 2 ^ 63 <=? t) && (t <? 2 ^ 63) then t else - 2 ^ 63
  | _ => - 2 ^ 63
  end.

(** ** The encoder session (enc.go) *)

Definition SampleBitDepth : Z := 16.

(** [C.int(v)]. *)
Definition cint (v : Z) : Z := (v + 2 ^ 31) mod 2 ^ 32 - 2 ^ 31.

Record EncoderConfig : Type := mkEncoderConfig {
  SampleRate : Z;
  NumChannels : Z;
  Bitrate : Z;
  Quality : Z;
  VbrMode : Z;
  MpegMode : Z
}.

(** The LAME entry points the package calls, over an abstract state [H] of
    the engine behind a handle.  A call returns the C status or byte
    count, the state afterwards and, where it writes the output buffer,
    that buffer afterwards. [vbr_off] is the constant of lame.h. *)
Class Lame (H : Type) : Type := {
  vbr_off : Z;
  lame_init : option H;
  lame_set_in_samplerate : H -> Z -> Z * H;
  lame_set_num_channels : H -> Z -> Z * H;
  lame_set_brate : H -> Z -> Z * H;
  lame_set_VBR : H -> Z -> Z * H;
  lame_set_VBR_quality : H -> Z -> Z * H;
  lame_set_quality : H -> Z -> Z * H;
  lame_set_mode : H -> Z -> Z * H;
  lame_init_params : H -> Z * H;
  lame_get_framesize : H -> Z;
  lame_encode_buffer_interleaved :
    H -> list byte -> Z -> list byte -> Z -> Z * list byte * H;
  lame_encode_buffer :
    H -> list byte -> Z -> list byte -> Z -> Z * list byte * H;
  lame_encode_flush : H -> list byte -> Z -> Z * list byte * H;
  lame_get_frameNum : H -> Z
}.

(** The calls that open an engine, hand it PCM, flush it and close it, in
    the order they are made. The setters and getters ([lame_set_...],
    [lame_init_params], [lame_get_framesize], [lame_get_frameNum]) are not
    part of this log: they reach the engine through the state [H] only. *)
Inductive EngineCall : Type :=
  | CallInit
  | CallClose
  | CallEncodeInterleaved (pcm : list byte) (numSamples szOut : Z)
  | CallEncodeMono (pcm : list byte) (numSamples szOut : Z)
  | CallFlush (szOut : Z).

(** The Go slice whose first element a call passes the address of. How
    much of it the engine reads is up to the sample count: see [handed]. *)
Definition fed (c : EngineCall) : list byte :=
  match c with
  | CallEncodeInterleaved pcm _ _ => pcm
  | CallEncodeMono pcm _ _ => pcm
  | _ => []
  end.

(** The PCM bytes a call tells the engine to read. The count of lame.h is
    in samples per channel: [numSamples] pairs of 16-bit samples, four
    bytes each, on the interleaved entry point; [numSamples] 16-bit
    samples of the one buffer passed (the right buffer is nil) on the
    other. A count that is not positive covers no byte. *)
Definition handed (c : EngineCall) : list byte :=
  match c with
  | CallEncodeInterleaved pcm numSamples _ => take (Z.to_nat (numSamples * 4)) pcm
  | CallEncodeMono pcm numSamples _ => take (Z.to_nat (numSamples * 2)) pcm
  | _ => []
  end.

Definition toError (errNo : Z) : error :=
  if errNo =? -1 then ErrorBufferTooSmall
  else if errNo =? -2 then ErrorMalloc
  else if errNo =? -3 then ErrorParamsNotInitialized
  else if errNo =? -4 then ErrorPsychoAcousticProblems
  else ErrorUnknown.

Record Encoder (H : Type) : Type := mkEncoder {
  handle : option H;
  remainData : list byte;
  encNumChannels : Z;
  FrameSize : Z
}.
Arguments mkEncoder {H}.
Arguments handle {H}.
Arguments remainData {H}.
Arguments encNumChannels {H}.
Arguments FrameSize {H}.

(** What a method call on an encoder leaves behind: its result, the
    encoder, the caller's output buffer and the engine calls made. *)
Record Ret (H A : Type) : Type := mkRet {
  ret : outcome A;
  encAfter : Encoder H;
  outAfter : list byte;
  calls : list EngineCall
}.
Arguments mkRet {H A}.
Arguments ret {H A}.
Arguments encAfter {H A}.
Arguments outAfter {H A}.
Arguments calls {H A}.

Section Encoder.
Context {H : Type} `{Lame H}.

Definition bytesPerSampleOf (enc : Encoder H) : Z :=
  wrap64 (Z.quot (wrap64 (encNumChannels enc * SampleBitDepth)) 8).

Definition EstimateOutBufBytes (enc : Encoder H) (inBytes : Z) : outcome Z :=
  q ← go_div inBytes (bytesPerSampleOf enc);
  let numSamples := wrap64 (q + 1) in
  Ok (wrap64 (int_of_float64 (float64_mul f1_25 (float64_of_int numSamples)) + 7200)).

(** [Encode]. Taking [&out[0]] of an empty buffer panics; a nil handle
    (an encoder used after [Close]) is outside what the engine promises
    anything about, and the model stops there with a panic. *)
Definition Encode (enc : Encoder H) (in_ out : list byte) : Ret H Z :=
  let szIn := len in_ in
  let szOut := len out in
  if szIn =? 0 then mkRet (Fail ErrInputEmpty) enc out []
  else
    match EstimateOutBufBytes enc szIn with
    | Ok est =>
        if szOut <? est then mkRet (Fail ErrOutputTooSmall) enc out []
        else
          let '(in_, enc) :=
            if 0 <? len (remainData enc)
            then (remainData enc ++ in_,
                  mkEncoder (handle enc) [] (encNumChannels enc) (FrameSize enc))
            else (in_, enc) in
          let szIn := len in_ in
          let bytesPerSample := bytesPerSampleOf enc in
          match go_mod szIn bytesPerSample with
          | Ok remain =>
              let '(szIn, in_, enc) :=
                if 0 <? remain
                then (szIn - remain,
                      take (Z.to_nat (szIn - remain)) in_,
                      mkEncoder (handle enc)
                        (remainData enc ++ drop (Z.to_nat (szIn - remain)) in_)
                        (encNumChannels enc) (FrameSize enc))
                else (szIn, in_, enc) in
              if szIn =? 0 then mkRet (Ok 0) enc out []
              else if szOut =? 0 then mkRet (Panic IndexOutOfRange) enc out []
              else
                match handle enc with
                | None => mkRet (Panic NilDereference) enc out []
                | Some h =>
                    let numSamples := cint (Z.quot szIn bytesPerSample) in
                    let '(nWr, out, h, call) :=
                      if encNumChannels enc =? 2
                      then
                        let '(nWr, out, h) :=
                          lame_encode_buffer_interleaved h in_ numSamples out (cint szOut) in
                        (nWr, out, h, CallEncodeInterleaved in_ numSamples (cint szOut))
                      else
                        let '(nWr, out, h) :=
                          lame_encode_buffer h in_ numSamples out (cint szOut) in
                        (nWr, out, h, CallEncodeMono in_ numSamples (cint szOut)) in
                    let enc := mkEncoder (Some h) (remainData enc)
                                 (encNumChannels enc) (FrameSize enc) in
                    mkRet (if nWr <? 0 then Fail (toError nWr) else Ok nWr)
                          enc out [call]
                end
          | Fail e => mkRet (Fail e) enc out []
          | Panic p => mkRet (Panic p) enc out []
          | OutOfFuel => mkRet OutOfFuel enc out []
          end
    | Fail e => mkRet (Fail e) enc out []
    | Panic p => mkRet (Panic p) enc out []
    | OutOfFuel => mkRet OutOfFuel enc out []
    end.

Definition Flush (enc : Encoder H) (out : list byte) : Ret H Z :=
  let szOut := len out in
  match EstimateOutBufBytes enc 0 with
  | Ok est =>
      if szOut <? est then mkRet (Fail ErrOutputTooSmall) enc out []
      else if szOut =? 0 then mkRet (Panic IndexOutOfRange) enc out []
      else
        match handle enc with
        | None => mkRet (Panic NilDereference) enc out []
        | Some h =>
            let '(bytesOut, out, h) := lame_encode_flush h out (cint szOut) in
            let enc := mkEncoder (Some h) (remainData enc)
                         (encNumChannels enc) (FrameSize enc) in
            mkRet (if bytesOut <? 0 then Fail (toError bytesOut) else Ok bytesOut)
                  enc out [CallFlush (cint szOut)]
        end
  | Fail e => mkRet (Fail e) enc out []
  | Panic p => mkRet (Panic p) enc out []
  | OutOfFuel => mkRet OutOfFuel enc out []
  end.

Definition GetFrameNum (enc : Encoder H) : outcome Z :=
  match handle enc with
  | None => Panic NilDereference
  | Some h =>
      let frameNum := lame_get_frameNum h in
      if frameNum <? 0 then Fail (toError frameNum) else Ok frameNum
  end.

Definition Close (enc : Encoder H) : Encoder H * list EngineCall :=
  match handle enc with
  | Some h => (mkEncoder None (remainData enc) (encNumChannels enc) (FrameSize enc),
               [CallClose])
  | None => (enc, [])
  end.

End Encoder.

(** The encoder with another carry-over buffer. *)
Definition withCarry {H} (enc : Encoder H) (carry : list byte) : Encoder H :=
  mkEncoder (handle enc) carry (encNumChannels enc) (FrameSize enc).

(** What holds of an encoder between the calls of a session: a channel
    count whose frame width does not overflow, an engine handle, and less
    than one sample frame of carry-over. *)
Definition live {H} (enc : Encoder H) : Prop :=
  1 <= encNumChannels enc < 2 ^ 59
  /\ handle enc <> None
  /\ len (remainData enc) < encNumChannels enc * 2.

(** ** Encoder configurations behind pointers

    [EncodeFromWav] and [NewEncoder] receive a [*EncoderConfig] and write
    through it, so configurations live in a store and a pointer is an
    address in it ([None] is nil). *)

Abbreviation Store := (gmap nat EncoderConfig).

Definition zeroConfig : EncoderConfig := mkEncoderConfig 0 0 0 0 0 0.

Definition setSampleRate (v : Z) (c : EncoderConfig) : EncoderConfig :=
  mkEncoderConfig v (NumChannels c) (Bitrate c) (Quality c) (VbrMode c) (MpegMode c).
Definition setNumChannels (v : Z) (c : EncoderConfig) : EncoderConfig :=
  mkEncoderConfig (SampleRate c) v (Bitrate c) (Quality c) (VbrMode c) (MpegMode c).
Definition setBitrate (v : Z) (c : EncoderConfig) : EncoderConfig :=
  mkEncoderConfig (SampleRate c) (NumChannels c) v (Quality c) (VbrMode c) (MpegMode c).
Definition setQuality (v : Z) (c : EncoderConfig) : EncoderConfig :=
  mkEncoderConfig (SampleRate c) (NumChannels c) (Bitrate c) v (VbrMode c) (MpegMode c).

(** The defaulting of [populateEncConfig] on the pointee. *)
Definition populated (c : EncoderConfig) : EncoderConfig :=
  let c := if NumChannels c =? 0 then setNumChannels 2 c else c in
  let c := if SampleRate c =? 0 then setSampleRate 44100 c else c in
  let c := if Bitrate c =? 0 then setBitrate 128 c else c in
  let c := if (Quality c <? 0) || (9 <? Quality c) then setQuality 2 c else c in
  c.

(** [populateEncConfig(c)]: a nil pointer is replaced by a fresh zero
    configuration; the defaults are written through the pointer, which is
    returned. *)
Definition populateEncConfig (c : option nat) (st : Store) : outcome nat * Store :=
  let '(c, st) :=
    match c with
    | None => let l := fresh (dom st) in (l, <[l := zeroConfig]> st)
    | Some l => (l, st)
    end in
  match st !! c with
  | None => (Panic NilDereference, st)
  | Some cfg => (Ok c, <[c := populated cfg]> st)
  end.

Definition lame_ok {X} (r : Z * X) : outcome X :=
  if fst r <? 0 then Fail (toError (fst r)) else Ok (snd r).

Section NewEncoder.
Context {H : Type} `{Lame H}.

(** [initParams]: the engine state and the frame size, or the error of
    the first call that reports one. *)
Definition initParams (h : H) (c : EncoderConfig) : outcome (H * Z) :=
  h ← lame_ok (lame_set_in_samplerate h (cint (SampleRate c)));
  h ← lame_ok (lame_set_num_channels h (cint (NumChannels c)));
  h ← lame_ok (lame_set_brate h (cint (Bitrate c)));
  h ← lame_ok (lame_set_brate h (cint (Bitrate c)));
  h ← (if negb (VbrMode c =? vbr_off)
       then h ← lame_ok (lame_set_VBR h (VbrMode c));
            lame_ok (lame_set_VBR_quality h (Quality c))
       else h ← lame_ok (lame_set_VBR h vbr_off);
            lame_ok (lame_set_quality h (cint (Quality c))));
  h ← (if 0 <? MpegMode c
       then lame_ok (lame_set_mode h (MpegMode c - 1))
       else Ok h);
  h ← lame_ok (lame_init_params h);
  let frameSize := lame_get_framesize h in
  if frameSize <? 0 then Fail (toError frameSize) else Ok (h, frameSize).

(** [NewEncoder(c)]: the encoder or the error, the store afterwards and
    the engine calls made. *)
Definition NewEncoder (c : option nat) (st : Store)
  : outcome (Encoder H) * Store * list EngineCall :=
  match lame_init with
  | None => (Fail ErrLameInit, st, [CallInit])
  | Some h =>
      match populateEncConfig c st with
      | (Ok pc, st) =>
          match st !! pc with
          | None => (Panic NilDereference, st, [CallInit])
          | Some cfg =>
              match initParams h cfg with
              | Ok (h, frameSize) =>
                  match c ≫= (st !!.) with
                  | None => (Panic NilDereference, st, [CallInit])
                  | Some cfg =>
                      (Ok (mkEncoder (Some h) [] (NumChannels cfg) frameSize),
                       st, [CallInit])
                  end
              | Fail e => (Fail e, st, [CallInit; CallClose])
              | Panic p => (Panic p, st, [CallInit])
              | OutOfFuel => (OutOfFuel, st, [CallInit])
              end
          end
      | (Fail e, st) => (Fail e, st, [CallInit])
      | (Panic p, st) => (Panic p, st, [CallInit])
      | (OutOfFuel, st) => (OutOfFuel, st, [CallInit])
      end
  end.

End NewEncoder.

(** ** Destinations *)

Class Writer (W : Type) : Type := {
  Write : W -> list byte -> option error * W
}.

Definition SeekStart : Z := 0.
Definition SeekEnd : Z := 2.

Class WriteSeeker (W : Type) : Type := {
  seeker_writer :: Writer W;
  Seek : W -> Z -> Z -> option error * W
}.

(** ** A state monad with outcomes, for the stream drivers *)

Definition M (S A : Type) : Type := S -> outcome A * S.

#[global] Instance M_ret {S} : MRet (M S) := fun A a s => (Ok a, s).
#[global] Instance M_bind {S} : MBind (M S) := fun A B k m s =>
  match m s with
  | (Ok a, s) => k a s
  | (Fail e, s) => (Fail e, s)
  | (Panic p, s) => (Panic p, s)
  | (OutOfFuel, s) => (OutOfFuel, s)
  end.

Definition lift {S A} (o : outcome A) : M S A := fun s => (o, s).
Definition gets {S A} (f : S -> A) : M S A := fun s => (Ok (f s), s).
Definition modify {S} (f : S -> S) : M S unit := fun s => (Ok tt, f s).

(** [buf[:n]]. *)
Definition prefix (n : Z) (buf : list byte) : outcome (list byte) :=
  if (n <? 0) || (len buf <? n) then Panic IndexOutOfRange
  else Ok (take (Z.to_nat n) buf).

(** [r.Read(buf)] on an in-memory stream: at most [len(buf)] bytes; no
    byte at all means [io.EOF]. *)
Definition Read (bufLen : nat) (s : list byte) : list byte * list byte :=
  (take bufLen s, drop bufLen s).

(** ** EncodeFromWav (dec-exam.go) *)

(** The locals of the streaming part of [EncodeFromWav] and what it has
    done to the world so far. *)
Record EncRun (H W : Type) : Type := mkEncRun {
  rEnc : Encoder H;
  rOut : list byte;
  rWriter : W;
  rTotal : Z;
  rCalls : list EngineCall
}.
Arguments mkEncRun {H W}.
Arguments rEnc {H W}.
Arguments rOut {H W}.
Arguments rWriter {H W}.
Arguments rTotal {H W}.
Arguments rCalls {H W}.

(** What a driver leaves behind. *)
Record DriverRet (W A : Type) : Type := mkDriverRet {
  dret : outcome A;
  dwriter : W;
  dstore : Store;
  dcalls : list EngineCall
}.
Arguments mkDriverRet {W A}.
Arguments dret {W A}.
Arguments dwriter {W A}.
Arguments dstore {W A}.
Arguments dcalls {W A}.

Section EncodeFromWav.
Context {H W : Type} `{Lame H} `{Writer W}.

Definition doEncode (chunk : list byte) : M (EncRun H W) Z := fun s =>
  let r := Encode (rEnc s) chunk (rOut s) in
  (ret r, mkEncRun (encAfter r) (outAfter r) (rWriter s) (rTotal s)
                   (rCalls s ++ calls r)).

Definition doFlush : M (EncRun H W) Z := fun s =>
  let r := Flush (rEnc s) (rOut s) in
  (ret r, mkEncRun (encAfter r) (outAfter r) (rWriter s) (rTotal s)
                   (rCalls s ++ calls r)).

Definition doWrite (p : list byte) : M (EncRun H W) unit := fun s =>
  let '(e, w) := Write (rWriter s) p in
  (match e with Some e => Fail e | None => Ok tt end,
   mkEncRun (rEnc s) (rOut s) w (rTotal s) (rCalls s)).

(** [if encodedBytes > 0 { totalBytes += encodedBytes; writer.Write(outBuf[:encodedBytes]) }] *)
Definition emit (encodedBytes : Z) : M (EncRun H W) unit :=
  if 0 <? encodedBytes then
    _ ← modify (fun s => mkEncRun (rEnc s) (rOut s) (rWriter s)
                           (wrap64 (rTotal s + encodedBytes)) (rCalls s));
    out ← gets rOut;
    p ← lift (prefix encodedBytes out);
    doWrite p
  else mret tt.

(** The read loop; a read of no byte is [io.EOF]. *)
Fixpoint encodeLoop (fuel : nat) (wavStream : list byte) : M (EncRun H W) unit :=
  match fuel with
  | O => lift OutOfFuel
  | S fuel =>
      let '(chunk, wavStream) := Read 2048 wavStream in
      _ ← (if 0 <? len chunk
           then encodedBytes ← doEncode chunk; emit encodedBytes
           else mret tt);
      if len chunk =? 0 then mret tt else encodeLoop fuel wavStream
  end.

Definition encodeStream (sampleRate : Z) (wavStream : list byte)
  : M (EncRun H W) (Z * Z * Z) :=
  _ ← encodeLoop (S (length wavStream)) wavStream;
  encodedBytes ← doFlush;
  _ ← emit encodedBytes;
  enc ← gets rEnc;
  totalFrames ← lift (GetFrameNum enc);
  totalBytes ← gets rTotal;
  mret (totalBytes, totalFrames, sampleRate).

Definition EncodeFromWav (wavStream : list byte) (writer : W)
    (config : option nat) (st : Store) : DriverRet W (Z * Z * Z) :=
  match ParseWavHeader wavStream with
  | Ok (info, wavStream) =>
      if negb (bitsPerSample info =? SampleBitDepth)
      then mkDriverRet (Fail (ErrBitsPerSample (bitsPerSample info))) writer st []
      else
        match config ≫= (st !!.) with
        | None => mkDriverRet (Panic NilDereference) writer st []
        | Some cfg =>
            let st := match config with
                      | Some l => <[l := setNumChannels (numChannels info)
                                           (setSampleRate (sampleRate info) cfg)]> st
                      | None => st
                      end in
            let wavStream := take (Z.to_nat (pcmSize info)) wavStream in
            match NewEncoder config st with
            | (Ok encoder, st, cs) =>
                match EstimateOutBufBytes encoder 2048 with
                | Ok est =>
                    if est <? 0
                    then mkDriverRet (Panic IndexOutOfRange) writer st (cs ++ [CallClose])
                    else
                      let '(r, s) :=
                        encodeStream (sampleRate info) wavStream
                          (mkEncRun encoder (replicate (Z.to_nat est) Byte.x00)
                                    writer 0 cs) in
                      mkDriverRet r (rWriter s) st
                                  (rCalls s ++ snd (Close (rEnc s)))
                | Fail e => mkDriverRet (Fail e) writer st (cs ++ [CallClose])
                | Panic p => mkDriverRet (Panic p) writer st (cs ++ [CallClose])
                | OutOfFuel => mkDriverRet OutOfFuel writer st (cs ++ [CallClose])
                end
            | (Fail e, st, cs) => mkDriverRet (Fail e) writer st cs
            | (Panic p, st, cs) => mkDriverRet (Panic p) writer st cs
            | (OutOfFuel, st, cs) => mkDriverRet OutOfFuel writer st cs
            end
        end
  | Fail e => mkDriverRet (Fail e) writer st []
  | Panic p => mkDriverRet (Panic p) writer st []
  | OutOfFuel => mkDriverRet OutOfFuel writer st []
  end.

End EncodeFromWav.

(** ** The decoder session *)

(** The mpg123 entry points, over an abstract state [D] of the engine.
    [mpg123_DecodeWrapped] is the feed-and-drain step: status, bytes
    decoded, the output buffer and the state afterwards. The constants are
    those of mpg123.h. *)
Class Mpg123 (D : Type) : Type := {
  MPG123_OK : Z;
  MPG123_ENC_UNSIGNED_8 : Z;
  MPG123_ENC_SIGNED_16 : Z;
  MPG123_ENC_SIGNED_24 : Z;
  MPG123_ENC_SIGNED_32 : Z;
  mpg123_init : Z;
  mpg123_new : option D * Z;
  mpg123_open_feed : D -> Z * D;
  mpg123_param_quiet : D -> Z * D;
  mpg123_DecodeWrapped : D -> list byte -> Z -> list byte -> Z -> Z * Z * list byte * D;
  mpg123_getformat : D -> Z * (Z * Z * Z)
}.

Record Decoder (D : Type) : Type := mkDecoder {
  decHandle : option D;
  decSampleRate : Z;
  decNumChannels : Z;
  decSampleBitDepth : Z
}.
Arguments mkDecoder {D}.
Arguments decHandle {D}.
Arguments decSampleRate {D}.
Arguments decNumChannels {D}.
Arguments decSampleBitDepth {D}.

Section Decoder.
Context {D : Type} `{Mpg123 D}.

Definition NewDecoder : outcome (Decoder D) :=
  if negb (mpg123_init =? MPG123_OK) then Fail ErrMpg123Init
  else
    match mpg123_new with
    | (None, errNo) => Fail (ErrMpg123 errNo)
    | (Some mh, _) =>
        let '(errNo, mh) := mpg123_open_feed mh in
        if negb (errNo =? MPG123_OK) then Fail (ErrMpg123 errNo)
        else
          let '(errNo, mh) := mpg123_param_quiet mh in
          if negb (errNo =? MPG123_OK) then Fail (ErrMpg123 errNo)
          else Ok (mkDecoder (Some mh) 0 0 0)
    end.

Definition DecEstimateOutBufBytes : Z := (1152 * 8 * 4) * 5.

Definition getFormat (d : Decoder D) : outcome unit * Decoder D :=
  match decHandle d with
  | None => (Panic NilDereference, d)
  | Some h =>
      let '(errNo, (cRate, cChans, cEnc)) := mpg123_getformat h in
      if negb (errNo =? MPG123_OK) then (Fail (ErrMpg123 errNo), d)
      else
        let d := mkDecoder (decHandle d) cRate cChans (decSampleBitDepth d) in
        let withBits bits :=
          mkDecoder (decHandle d) (decSampleRate d) (decNumChannels d) bits in
        if cEnc =? MPG123_ENC_UNSIGNED_8 then (Ok tt, withBits 8)
        else if cEnc =? MPG123_ENC_SIGNED_16 then (Ok tt, withBits 16)
        else if cEnc =? MPG123_ENC_SIGNED_24 then (Ok tt, withBits 24)
        else if cEnc =? MPG123_ENC_SIGNED_32 then (Ok tt, withBits 32)
        else (Fail (ErrUnsupportedEncoding cEnc), d)
  end.

(** [Decode]: the result, the decoder and the output buffer afterwards. *)
Definition Decode (d : Decoder D) (in_ out : list byte)
  : outcome Z * Decoder D * list byte :=
  let szIn := len in_ in
  let szOut := len out in
  if szIn =? 0 then (Fail ErrInputEmpty, d, out)
  else if szOut <? DecEstimateOutBufBytes then (Fail ErrDecOutputTooSmall, d, out)
  else
    match decHandle d with
    | None => (Panic NilDereference, d, out)
    | Some h =>
        let '(errNo, bytesDecoded, out, h) :=
          mpg123_DecodeWrapped h in_ (cint szIn) out (cint szOut) in
        let d := mkDecoder (Some h) (decSampleRate d) (decNumChannels d)
                           (decSampleBitDepth d) in
        if negb (errNo =? MPG123_OK) then (Fail (ErrMpg123 errNo), d, out)
        else if (decSampleRate d =? 0) && (0 <? bytesDecoded) then
          match getFormat d with
          | (Ok _, d) => (Ok bytesDecoded, d, out)
          | (Fail e, d) => (Fail e, d, out)
          | (Panic p, d) => (Panic p, d, out)
          | (OutOfFuel, d) => (OutOfFuel, d, out)
          end
        else (Ok bytesDecoded, d, out)
    end.

End Decoder.

(** ** DecodeToWav (dec-exam.go) *)

Record DecRun (D W : Type) : Type := mkDecRun {
  qDec : Decoder D;
  qPcm : list byte;
  qWriter : W;
  qTotal : Z
}.
Arguments mkDecRun {D W}.
Arguments qDec {D W}.
Arguments qPcm {D W}.
Arguments qWriter {D W}.
Arguments qTotal {D W}.

Section DecodeToWav.
Context {D W : Type} `{Mpg123 D} `{WriteSeeker W}.

Definition doDecode (chunk : list byte) : M (DecRun D W) Z := fun s =>
  let '(r, d, pcm) := Decode (qDec s) chunk (qPcm s) in
  (r, mkDecRun d pcm (qWriter s) (qTotal s)).

(** A write to the destination; [wrap] decorates the error. *)
Definition putBytes (wrap : error -> error) (p : list byte) : M (DecRun D W) unit :=
  fun s =>
    let '(e, w) := Write (qWriter s) p in
    (match e with Some e => Fail (wrap e) | None => Ok tt end,
     mkDecRun (qDec s) (qPcm s) w (qTotal s)).

Definition doSeek (offset whence : Z) : M (DecRun D W) (option error) := fun s =>
  let '(e, w) := Seek (qWriter s) offset whence in
  (Ok e, mkDecRun (qDec s) (qPcm s) w (qTotal s)).

(** The body of [if decodedN > 0]: the placeholder header before the
    first payload bytes, then the payload. *)
Definition storeDecoded (decodedN : Z) : M (DecRun D W) unit :=
  totalBytes ← gets qTotal;
  _ ← (if totalBytes =? 0
       then putBytes ErrPlaceholder (replicate (Z.to_nat WavHeaderSize) Byte.x00)
       else mret tt);
  pcm ← gets qPcm;
  p ← lift (prefix decodedN pcm);
  _ ← putBytes id p;
  modify (fun s => mkDecRun (qDec s) (qPcm s) (qWriter s)
                            (wrap64 (qTotal s + decodedN))).

Fixpoint decodeLoop (fuel : nat) (inStream : list byte) : M (DecRun D W) unit :=
  match fuel with
  | O => lift OutOfFuel
  | S fuel =>
      let '(chunk, inStream) := Read 2048 inStream in
      _ ← (if 0 <? len chunk then
             decodedN ← doDecode chunk;
             if 0 <? decodedN then storeDecoded decodedN else mret tt
           else mret tt);
      if len chunk =? 0 then mret tt else decodeLoop fuel inStream
  end.

Definition decodeStream (inStream : list byte) : M (DecRun D W) (Z * Z * Z) :=
  _ ← decodeLoop (S (length inStream)) inStream;
  totalBytes ← gets qTotal;
  if totalBytes =? 0 then lift (Fail ErrNoAudio)
  else
    e ← doSeek 0 SeekStart;
    _ ← lift (match e with Some e => Fail (ErrSeekStart e) | None => Ok tt end);
    decoder ← gets qDec;
    _ ← putBytes ErrRealHeader
          (GenerateWavHeader totalBytes (decSampleRate decoder)
             (decNumChannels decoder) (decSampleBitDepth decoder));
    _ ← doSeek 0 SeekEnd;
    totalSamples ← lift (go_div totalBytes
                           (wrap64 (Z.quot (wrap64 (decNumChannels decoder
                                                     * decSampleBitDepth decoder)) 8)));
    mret (wrap64 (totalBytes + WavHeaderSize), totalSamples, decSampleRate decoder).

(** [DecodeToWav]: the result and the destination afterwards. The
    deferred [Close] of the decoder touches neither. *)
Definition DecodeToWav (inStream : list byte) (writer : W)
  : outcome (Z * Z * Z) * W :=
  match NewDecoder with
  | Ok decoder =>
      let '(r, s) :=
        decodeStream inStream
          (mkDecRun decoder (replicate (Z.to_nat DecEstimateOutBufBytes) Byte.x00)
                    writer 0) in
      (r, qWriter s)
  | Fail e => (Fail e, writer)
  | Panic p => (Panic p, writer)
  | OutOfFuel => (OutOfFuel, writer)
  end.

End DecodeToWav.

(** ** Notions the statements use *)

(** A session fed by a caller: one [Encode] per (chunk, output buffer)
    pair, the engine calls collected in order. *)
Fixpoint EncodeAll {H} `{Lame H} (enc : Encoder H)
    (cs : list (list byte * list byte)) : Encoder H * list EngineCall :=
  match cs with
  | [] => (enc, [])
  | (in_, out) :: cs =>
      let r := Encode enc in_ out in
      let '(enc', log) := EncodeAll (encAfter r) cs in
      (enc', calls r ++ log)
  end.

(** The two checks at the head of [Encode]. *)
Definition accepted {H} (enc : Encoder H) (c : list byte * list byte) : bool :=
  negb (len (fst c) =? 0)
  && match EstimateOutBufBytes enc (len (fst c)) with
     | Ok est => negb (len (snd c) <? est)
     | _ => false
     end.

(** The slices passed by a list of calls, in order. *)
Definition fedBytes (log : list EngineCall) : list byte := concat (map fed log).

(** Every byte a list of calls tells the engine to read, in order. *)
Definition handedBytes (log : list EngineCall) : list byte := concat (map handed log).

(** A chunk of a RIFF stream: four bytes of tag, the little-endian length
    [sz] and what follows. *)
Definition chunkAt (s tag : list byte) (sz : Z) (rest : list byte) : Prop :=
  exists szb, s = tag ++ szb ++ rest /\ length tag = 4%nat /\ length szb = 4%nat
              /\ sz = LittleEndian.Uint32 szb.

(** A chunk as it lies in a stream: the tag, the little-endian length of
    the body, the body. *)
Definition chunkBytes (c : list byte * list byte) : list byte :=
  fst c ++ LittleEndian.PutUint32 (len (snd c)) ++ snd c.

Definition chunksBytes (cs : list (list byte * list byte)) : list byte :=
  concat (map chunkBytes cs).

(** A chunk that is neither "fmt " nor "data": four bytes of tag and a
    body, of any content, whose length fits the size field. *)
Definition unknownChunk (c : list byte * list byte) : Prop :=
  length (fst c) = 4%nat /\ fst c <> tag_fmt /\ fst c <> tag_data
  /\ len (snd c) < 2 ^ 32.

(** The malformations of the chunk sequence of a WAV stream, up to its
    [data] chunk; [seen] tells whether a [fmt ] chunk came before. *)
Inductive ChunkFault : bool -> list byte -> Prop :=
  | fault_header_cut seen s :
      (length s < 8)%nat -> ChunkFault seen s
  | fault_fmt_short seen s sz rest :
      chunkAt s tag_fmt sz rest -> sz < 16 -> ChunkFault seen s
  | fault_fmt_cut seen s sz rest :
      chunkAt s tag_fmt sz rest -> 16 <= sz -> len rest < sz -> ChunkFault seen s
  | fault_not_pcm seen s sz body rest :
      chunkAt s tag_fmt sz (body ++ rest) -> 16 <= sz -> len body = sz ->
      LittleEndian.Uint16 body <> 1 -> ChunkFault seen s
  | fault_data_first s sz rest :
      chunkAt s tag_data sz rest -> ChunkFault false s
  | fault_skip_cut seen s tag sz rest :
      chunkAt s tag sz rest -> tag <> tag_fmt -> tag <> tag_data ->
      len rest < sz -> ChunkFault seen s
  | fault_after_fmt seen s sz body rest :
      chunkAt s tag_fmt sz (body ++ rest) -> 16 <= sz -> len body = sz ->
      LittleEndian.Uint16 body = 1 -> ChunkFault true rest -> ChunkFault seen s
  | fault_after_skip seen s tag sz body rest :
      chunkAt s tag sz (body ++ rest) -> tag <> tag_fmt -> tag <> tag_data ->
      len body = sz -> ChunkFault seen rest -> ChunkFault seen s.

Inductive Malformed (s : list byte) : Prop :=
  | riff_cut : (length s < 12)%nat -> Malformed s
  | riff_tags :
      (12 <= length s)%nat ->
      slice 0 4 s <> tag_RIFF \/ slice 8 12 s <> tag_WAVE -> Malformed s
  | riff_chunks :
      (12 <= length s)%nat -> ChunkFault false (drop 12 s) -> Malformed s.

(** The bytes the decoder yields over a whole input read in 2048-byte
    chunks, when every [Decode] succeeds and stays within the output
    buffer: their number and the decoder at the end. *)
Fixpoint decodedTotal {D} `{Mpg123 D} (fuel : nat) (d : Decoder D)
    (pcm inStream : list byte) : outcome (Z * Decoder D) :=
  match fuel with
  | O => OutOfFuel
  | S fuel =>
      let '(chunk, inStream) := Read 2048 inStream in
      if len chunk =? 0 then Ok (0, d)
      else
        match Decode d chunk pcm with
        | (Ok n, d, pcm) =>
            _ ← (if 0 <? n then prefix n pcm else Ok []);
            '(t, d) ← decodedTotal fuel d pcm inStream;
            Ok ((if 0 <? n then n else 0) + t, d)
        | (Fail e, _, _) => Fail e
        | (Panic p, _, _) => Panic p
        | (OutOfFuel, _, _) => OutOfFuel
        end
  end.

(** An in-memory file: contents and position. *)
Record MemFile : Type := mkMemFile {
  contents : list byte;
  position : nat
}.

Definition memWrite (f : MemFile) (p : list byte) : MemFile :=
  mkMemFile (take (position f) (contents f) ++ p
             ++ drop (position f + length p) (contents f))
            (position f + length p).

#[global] Instance MemFile_writer : Writer MemFile :=
  {| Write f p := (None, memWrite f p) |}.

#[global] Instance MemFile_seeker : WriteSeeker MemFile :=
  {| Seek f off whence :=
       (None, mkMemFile (contents f)
                (if whence =? SeekEnd
                 then Z.to_nat (len (contents f) + off)
                 else Z.to_nat off)) |}.

(** A pipe: it takes writes in order and cannot seek. *)
Record Pipe : Type := mkPipe { piped : list byte }.

#[global] Instance Pipe_writer : Writer Pipe :=
  {| Write f p := (None, mkPipe (piped f ++ p)) |}.

#[global] Instance Pipe_seeker : WriteSeeker Pipe :=
  {| Seek f off whence := (Some (ErrIO 29), f) |}.

(** A file that can be positioned from its start only: it refuses a seek
    relative to its end. *)
Record Tape : Type := mkTape { taped : MemFile }.

#[global] Instance Tape_writer : Writer Tape :=
  {| Write f p := (None, mkTape (memWrite (taped f) p)) |}.

#[global] Instance Tape_seeker : WriteSeeker Tape :=
  {| Seek f off whence :=
       if whence =? SeekEnd then (Some (ErrIO 22), f)
       else (None, mkTape (mkMemFile (contents (taped f)) (Z.to_nat off))) |}.

(** Two engines for the examples: they accept every setting and produce
    [nOut] bytes per call. *)
Definition constLame (nOut : Z) : Lame unit :=
  {| vbr_off := 0;
     lame_init := Some tt;
     lame_set_in_samplerate h _ := (0, h);
     lame_set_num_channels h _ := (0, h);
     lame_set_brate h _ := (0, h);
     lame_set_VBR h _ := (0, h);
     lame_set_VBR_quality h _ := (0, h);
     lame_set_quality h _ := (0, h);
     lame_set_mode h _ := (0, h);
     lame_init_params h := (0, h);
     lame_get_framesize _ := 1152;
     lame_encode_buffer_interleaved h _ _ out _ := (nOut, out, h);
     lame_encode_buffer h _ _ out _ := (nOut, out, h);
     lame_encode_flush h out _ := (nOut, out, h);
     lame_get_frameNum _ := 0 |}.

Definition constMpg123 (nOut : Z) : Mpg123 unit :=
  {| MPG123_OK := 0;
     MPG123_ENC_UNSIGNED_8 := 1;
     MPG123_ENC_SIGNED_16 := 208;
     MPG123_ENC_SIGNED_24 := 20672;
     MPG123_ENC_SIGNED_32 := 4480;
     mpg123_init := 0;
     mpg123_new := (Some tt, 0);
     mpg123_open_feed h := (0, h);
     mpg123_param_quiet h := (0, h);
     mpg123_DecodeWrapped h _ _ out _ := (0, nOut, out, h);
     mpg123_getformat _ := (0, (44100, 2, 208)) |}.

(** The bytes themselves that the decoder yields over a whole input, in
    the order [DecodeToWav] writes them. *)
Fixpoint decodedPayload {D} `{Mpg123 D} (fuel : nat) (d : Decoder D)
    (pcm inStream : list byte) : outcome (list byte * Decoder D) :=
  match fuel with
  | O => OutOfFuel
  | S fuel =>
      let '(chunk, inStream) := Read 2048 inStream in
      if len chunk =? 0 then Ok ([], d)
      else
        match Decode d chunk pcm with
        | (Ok n, d, pcm) =>
            p ← (if 0 <? n then prefix n pcm else Ok []);
            '(rest, d) ← decodedPayload fuel d pcm inStream;
            Ok (p ++ rest, d)
        | (Fail e, _, _) => Fail e
        | (Panic p, _, _) => Panic p
        | (OutOfFuel, _, _) => OutOfFuel
        end
  end.

(** The two calls that hand PCM to the engine. *)
Definition isEncodeCall (c : EngineCall) : bool :=
  match c with
  | CallEncodeInterleaved _ _ _ | CallEncodeMono _ _ _ => true
  | _ => false
  end.

(** ** The feed-and-drain step in C (the cgo preamble of the decoder)

    [mpg123_DecodeWrapped] over the two mpg123 entry points it calls. The
    engine sees the output buffer and the offset [pOut] has reached in it;
    a call returns its status, the byte count it stored in [szDone], the
    buffer and its state afterwards. The status constants are those of
    mpg123.h. The loop runs on fuel, one unit per [mpg123_read]. *)
Module Shim.

Class Raw (D : Type) : Type := {
  MPG123_OK : Z;
  MPG123_NEED_MORE : Z;
  MPG123_DONE : Z;
  MPG123_NEW_FORMAT : Z;
  mpg123_feed : D -> list byte -> Z -> Z * D;
  mpg123_read : D -> list byte -> Z -> Z -> Z * Z * list byte * D
}.

(** [(size_t)v] for an int [v]. *)
Definition size_t (v : Z) : Z := v mod 2 ^ 64.

(** The result of the call: the returned status, [*bytesDecode], the
    output buffer and the engine state. *)
Fixpoint drain {D} `{Raw D} (fuel : nat) (mh : D) (out : list byte)
    (pOut outSize bytesDecode : Z) : outcome (Z * Z * list byte * D) :=
  match fuel with
  | O => OutOfFuel
  | S fuel =>
      let '(errNo, szDone, out, mh) := mpg123_read mh out pOut (size_t outSize) in
      let done := cint szDone in
      if negb (errNo =? MPG123_OK) then
        if (errNo =? MPG123_NEED_MORE) || (errNo =? MPG123_DONE)
        then Ok (MPG123_OK, cint (bytesDecode + done), out, mh)
        else if errNo =? MPG123_NEW_FORMAT
             then drain fuel mh out pOut outSize bytesDecode
             else Ok (errNo, bytesDecode, out, mh)
      else if done =? 0 then Ok (MPG123_OK, bytesDecode, out, mh)
      else drain fuel mh out (pOut + done) (cint (outSize - done))
                 (cint (bytesDecode + done))
  end.

Definition mpg123_DecodeWrapped {D} `{Raw D} (fuel : nat) (mh : D)
    (pBuffer : list byte) (bufferSize : Z) (out : list byte)
    (outSize bytesDecode : Z) : outcome (Z * Z * list byte * D) :=
  let '(errNo, mh) := mpg123_feed mh pBuffer (size_t bufferSize) in
  if negb (errNo =? MPG123_OK) then Ok (errNo, bytesDecode, out, mh)
  else drain fuel mh out 0 outSize 0.

(** What mpg123 promises of [mpg123_read]: it stores between nothing and
    the capacity it was given, and does not announce a new format twice in
    a row. *)
Definition wellBehaved (D : Type) `{Raw D} : Prop :=
  (forall mh out pOut cap,
     0 <= cap -> 0 <= (mpg123_read mh out pOut cap).1.1.2 <= cap)
  /\ (forall mh out pOut cap,
        (mpg123_read mh out pOut cap).1.1.1 = MPG123_NEW_FORMAT ->
        forall out' pOut' cap',
          (mpg123_read (mpg123_read mh out pOut cap).2 out' pOut' cap').1.1.1
          <> MPG123_NEW_FORMAT).

(** An engine for the examples: it announces its format on the first read
    and then delivers four bytes for every byte it was fed. *)
Definition toyRaw : Raw (bool * Z) :=
  {| MPG123_OK := 0;
     MPG123_NEED_MORE := -10;
     MPG123_DONE := -12;
     MPG123_NEW_FORMAT := -11;
     mpg123_feed mh _ size := (0, (fst mh, snd mh + 4 * size));
     mpg123_read mh out _ cap :=
       if negb (fst mh) then (-11, 0, out, (true, snd mh))
       else if snd mh <=? 0 then (-10, 0, out, mh)
       else (0, Z.min (snd mh) cap, out, (true, snd mh - Z.min (snd mh) cap)) |}.

End Shim.

(** * Properties *)

(** ** Little-endian fields *)

Lemma Z_of_byte_of_Z v : Z_of_byte (byte_of_Z v) = v mod 256.
Proof.
  unfold Z_of_byte, byte_of_Z.
  assert (Hr : 0 <= v mod 256 < 256) by (apply Z.mod_pos_bound; lia).
  destruct (Byte.of_N (Z.to_N (v mod 256))) as [b|] eqn:E.
  - apply Byte.to_of_N in E. rewrite E. lia.
  - apply Byte.of_N_None_iff in E. lia.
Qed.

Lemma Z_of_byte_range b : 0 <= Z_of_byte b < 256.
Proof.
  unfold Z_of_byte. pose proof (Byte.to_N_bounded b). lia.
Qed.

(** Or-ing a shifted field above a narrower one adds them. *)
Lemma lor_shiftl_add a b k :
  0 <= k -> 0 <= a < 2 ^ k -> Z.lor a (Z.shiftl b k) = a + b * 2 ^ k.
Proof.
  intros Hk Ha. rewrite Z.shiftl_mul_pow2 by lia.
  symmetry. apply Z.add_nocarry_lor.
  apply Z.bits_inj'. intros i Hi. rewrite Z.land_spec, Z.bits_0.
  destruct (Z.ltb_spec i k).
  - rewrite Z.mul_pow2_bits_low by lia. apply andb_false_r.
  - rewrite <- (Z.mod_small a (2 ^ k)) by lia.
    rewrite Z.mod_pow2_bits_high by lia. reflexivity.
Qed.

Lemma Uint16_PutUint16 v rest :
  0 <= v < 2 ^ 16 ->
  LittleEndian.Uint16 (LittleEndian.PutUint16 v ++ rest) = v.
Proof.
  intros Hv. cbn [LittleEndian.PutUint16 LittleEndian.Uint16 app].
  rewrite !Z_of_byte_of_Z, !Z.shiftr_div_pow2 by lia.
  rewrite lor_shiftl_add by (try apply Z.mod_pos_bound; lia).
  change (2 ^ 8) with 256 in *. Z.div_mod_to_equations. lia.
Qed.

Lemma Uint32_PutUint32 v rest :
  0 <= v < 2 ^ 32 ->
  LittleEndian.Uint32 (LittleEndian.PutUint32 v ++ rest) = v.
Proof.
  intros Hv. cbn [LittleEndian.PutUint32 LittleEndian.Uint32 app].
  rewrite !Z_of_byte_of_Z, !Z.shiftr_div_pow2 by lia.
  assert (B := fun x => Z.mod_pos_bound x 256 eq_refl).
  rewrite (lor_shiftl_add _ _ 8) by (try apply B; lia).
  rewrite (lor_shiftl_add _ _ 16).
  2: lia.
  2: { pose proof (B v); pose proof (B (v / 2 ^ 8)). lia. }
  rewrite (lor_shiftl_add _ _ 24).
  2: lia.
  2: { pose proof (B v); pose proof (B (v / 2 ^ 8)); pose proof (B (v / 2 ^ 16)). lia. }
  change (2 ^ 8) with 256 in *. change (2 ^ 16) with 65536 in *.
  change (2 ^ 24) with 16777216 in *. change (2 ^ 32) with 4294967296 in *.
  Z.div_mod_to_equations. lia.
Qed.

(** ** Reading chunks *)

Lemma ReadFull_app n (a s : list byte) :
  length a = n -> ReadFull n (a ++ s) = Some (a, s).
Proof.
  intros <-. unfold ReadFull.
  rewrite length_app, (proj2 (Nat.leb_le _ _)) by lia.
  by rewrite take_app_length, drop_app_length.
Qed.

Lemma ReadFull_short n (s : list byte) :
  (length s < n)%nat -> ReadFull n s = None.
Proof.
  intros Hs. unfold ReadFull. by rewrite (proj2 (Nat.leb_gt _ _)).
Qed.

Lemma ReadFull_Some n (s a r : list byte) :
  ReadFull n s = Some (a, r) -> s = a ++ r /\ length a = n.
Proof.
  unfold ReadFull. destruct (Nat.leb_spec n (length s)); [|done].
  intros [= <- <-]. by rewrite take_drop, length_take_le.
Qed.

Lemma Discard_app n (a s : list byte) :
  length a = n -> Discard n (a ++ s) = Some s.
Proof.
  intros <-. unfold Discard.
  rewrite length_app, (proj2 (Nat.leb_le _ _)) by lia.
  by rewrite drop_app_length.
Qed.

Lemma Discard_short n (s : list byte) :
  (length s < n)%nat -> Discard n s = None.
Proof.
  intros Hs. unfold Discard. by rewrite (proj2 (Nat.leb_gt _ _)).
Qed.

Lemma Discard_Some n (s r : list byte) :
  Discard n s = Some r -> exists a, s = a ++ r /\ length a = n.
Proof.
  unfold Discard. destruct (Nat.leb_spec n (length s)); [|done].
  intros [= <-]. exists (take n s). by rewrite take_drop, length_take_le.
Qed.

Lemma slice_0_app {A} n (a b : list A) : length a = n -> slice 0 n (a ++ b) = a.
Proof.
  intros <-. unfold slice. by rewrite Nat.sub_0_r, drop_0, take_app_length.
Qed.

Lemma slice_0_all {A} n (a : list A) : length a = n -> slice 0 n a = a.
Proof.
  intros <-. unfold slice. by rewrite Nat.sub_0_r, drop_0, firstn_all.
Qed.

Lemma slice_app_r {A} n m (a b : list A) :
  length a = n -> slice n m (a ++ b) = slice 0 (m - n) b.
Proof.
  intros <-. unfold slice. by rewrite drop_app_length, Nat.sub_0_r.
Qed.

(** One iteration of the chunk loop, on a stream that has a whole chunk
    header in front. *)
Lemma scanChunks_step fuel st tag szb s :
  length tag = 4%nat -> length szb = 4%nat ->
  scanChunks (S fuel) st (tag ++ szb ++ s) =
    let chunkSize := LittleEndian.Uint32 szb in
    if bool_decide (tag = tag_fmt) then
      if chunkSize <? 16 then Fail (ErrFmtSize chunkSize)
      else
        match ReadFull (Z.to_nat chunkSize) s with
        | None => Fail ErrReadFmt
        | Some (fmtData, s) =>
            let audioFormat := LittleEndian.Uint16 (slice 0 2 fmtData) in
            if negb (audioFormat =? 1) then Fail (ErrAudioFormat audioFormat)
            else scanChunks fuel
                   (mkScan (LittleEndian.Uint32 (slice 4 8 fmtData))
                           (LittleEndian.Uint16 (slice 2 4 fmtData))
                           (LittleEndian.Uint16 (slice 14 16 fmtData)) true) s
        end
    else if bool_decide (tag = tag_data) then
      if negb (fmtChunkFound st) then Fail ErrDataBeforeFmt
      else Ok (mkWavInfo chunkSize (scSampleRate st) (scNumChannels st)
                         (scBitsPerSample st), s)
    else
      match Discard (Z.to_nat chunkSize) s with
      | None => Fail (ErrSkipChunk tag)
      | Some s => scanChunks fuel st s
      end.
Proof.
  intros Ht Hz. cbn [scanChunks].
  rewrite (app_assoc tag szb s), (ReadFull_app 8 (tag ++ szb)) by
    (rewrite length_app; lia).
  rewrite (slice_0_app 4 tag szb Ht), (slice_app_r 4 8 tag szb Ht).
  change (8 - 4)%nat with 4%nat. rewrite (slice_0_all 4 szb Hz). reflexivity.
Qed.

(** Fuel: more of it changes nothing once the loop has finished, and the
    length of the stream is always enough. *)
Lemma scanChunks_mono f f' st s :
  (f <= f')%nat -> scanChunks f st s <> OutOfFuel ->
  scanChunks f' st s = scanChunks f st s.
Proof.
  revert f' st s. induction f as [|f IH]; intros f' st s Hle Hne; [done|].
  destruct f' as [|f']; [lia|]. cbn [scanChunks] in *.
  destruct (ReadFull 8 s) as [[hdr s1]|]; [|done].
  repeat match goal with
         | |- context [if ?b then _ else _] => destruct b
         | |- context [match ?o with Some _ => _ | None => _ end] =>
             destruct o as [[? ?]|] || destruct o
         end; try done; apply IH; (lia || done).
Qed.

Lemma scanChunks_enough f st s :
  (length s < f)%nat -> scanChunks f st s <> OutOfFuel.
Proof.
  revert st s. induction f as [|f IH]; intros st s Hf; [lia|].
  cbn [scanChunks].
  destruct (ReadFull 8 s) as [[hdr s1]|] eqn:E; [|done].
  apply ReadFull_Some in E as [-> Hh]. rewrite length_app in Hf.
  repeat match goal with
         | |- context [if ?b then _ else _] => destruct b
         end; try done.
  - destruct (ReadFull _ s1) as [[body s2]|] eqn:E2; [|done].
    apply ReadFull_Some in E2 as [-> Hb]. rewrite length_app in Hf.
    destruct (negb _); [done|]. apply IH. lia.
  - destruct (Discard _ s1) as [s2|] eqn:E2; [|done].
    apply Discard_Some in E2 as (a & -> & Ha). rewrite length_app in Hf.
    apply IH. lia.
Qed.

Lemma scanChunks_fuel f st s :
  (length s < f)%nat -> scanChunks f st s = scanChunks (S (length s)) st s.
Proof.
  intros Hf. apply scanChunks_mono; [lia|]. apply scanChunks_enough. lia.
Qed.

(** [ParseWavHeader] always comes to a result. *)
Lemma ParseWavHeader_terminates s : ParseWavHeader s <> OutOfFuel.
Proof.
  unfold ParseWavHeader. destruct (ReadFull 12 s) as [[hdr s1]|]; [|done].
  destruct (_ || _); [done|]. apply scanChunks_enough. lia.
Qed.

Lemma ParseWavHeader_no_panic s p : ParseWavHeader s <> Panic p.
Proof.
  unfold ParseWavHeader. destruct (ReadFull 12 s) as [[hdr s1]|]; [|done].
  destruct (_ || _); [done|]. generalize (S (length s1)) scan0.
  intros f. revert s1. induction f as [|f IH]; intros s1 st; [done|].
  cbn [scanChunks].
  destruct (ReadFull 8 s1) as [[h s2]|]; [|done].
  repeat match goal with
         | |- context [if ?b then _ else _] => destruct b
         | |- context [match ?o with Some _ => _ | None => _ end] =>
             destruct o as [[? ?]|] || destruct o
         end; try done; apply IH.
Qed.

(** After a well-formed RIFF prologue the chunk loop takes over. *)
Lemma ParseWavHeader_prologue szb s :
  length szb = 4%nat ->
  ParseWavHeader (tag_RIFF ++ szb ++ tag_WAVE ++ s) = scanChunks (S (length s)) scan0 s.
Proof.
  intros Hz. unfold ParseWavHeader.
  replace (tag_RIFF ++ szb ++ tag_WAVE ++ s)
    with ((tag_RIFF ++ szb ++ tag_WAVE) ++ s) by (by rewrite <- !app_assoc).
  rewrite (ReadFull_app 12) by (rewrite !length_app, Hz; reflexivity).
  rewrite (slice_0_app 4 tag_RIFF) by reflexivity.
  rewrite (app_assoc tag_RIFF szb), (slice_app_r 8) by (rewrite length_app, Hz; reflexivity).
  change (12 - 8)%nat with 4%nat. rewrite (slice_0_all 4 tag_WAVE) by reflexivity.
  rewrite !bool_decide_eq_true_2 by reflexivity. reflexivity.
Qed.

(** The fields of a [fmt ] body laid out field after field. *)
Lemma fmt_body_fields (fmtc ch rate brate align bits extra : list byte) :
  length fmtc = 2%nat -> length ch = 2%nat -> length rate = 4%nat ->
  length brate = 4%nat -> length align = 2%nat -> length bits = 2%nat ->
  let body := fmtc ++ ch ++ rate ++ brate ++ align ++ bits ++ extra in
  slice 0 2 body = fmtc /\ slice 2 4 body = ch /\ slice 4 8 body = rate
  /\ slice 14 16 body = bits.
Proof.
  intros H1 H2 H3 H4 H5 H6.
  repeat match goal with
         | H : length ?l = _ |- _ =>
             is_var l; destruct l as [|? l]; cbn [length] in H; try lia;
             try (apply Nat.succ_inj in H)
         end.
  repeat split.
Qed.

(** The layout [GenerateWavHeader] fills in, field after field. *)
Lemma GenerateWavHeader_layout pcm rate ch bits :
  GenerateWavHeader pcm rate ch bits =
    tag_RIFF ++ LittleEndian.PutUint32 (uint32 (wrap64 (36 + pcm)))
    ++ tag_WAVE
    ++ tag_fmt ++ LittleEndian.PutUint32 16
    ++ LittleEndian.PutUint16 1
    ++ LittleEndian.PutUint16 (uint16 ch)
    ++ LittleEndian.PutUint32 (uint32 rate)
    ++ LittleEndian.PutUint32
         (uint32 (wrap64 (Z.quot (wrap64 (wrap64 (rate * ch) * bits)) 8)))
    ++ LittleEndian.PutUint16 (uint16 (wrap64 (Z.quot (wrap64 (ch * bits)) 8)))
    ++ LittleEndian.PutUint16 (uint16 bits)
    ++ tag_data ++ LittleEndian.PutUint32 (uint32 pcm).
Proof. reflexivity. Qed.

Lemma ParseWavHeader_generated pcm rate ch bits payload :
  0 <= pcm < 2 ^ 32 -> 0 <= rate < 2 ^ 32 ->
  0 <= ch < 2 ^ 16 -> 0 <= bits < 2 ^ 16 ->
  ParseWavHeader (GenerateWavHeader pcm rate ch bits ++ payload)
  = Ok (mkWavInfo pcm rate ch bits, payload).
Proof.
  intros Hp Hr Hc Hb.
  rewrite GenerateWavHeader_layout. unfold uint32, uint16.
  rewrite (Z.mod_small pcm (2 ^ 32)), (Z.mod_small rate (2 ^ 32)),
    (Z.mod_small ch (2 ^ 16)), (Z.mod_small bits (2 ^ 16)) by lia.
  repeat rewrite <- app_assoc.
  rewrite ParseWavHeader_prologue by reflexivity.
  match goal with
  | |- scanChunks _ _ ?s = ?r =>
      enough (E : scanChunks 2 scan0 s = r)
        by (rewrite <- E; apply scanChunks_mono;
            [rewrite !length_app; cbn; lia | by rewrite E])
  end.
  rewrite scanChunks_step by reflexivity.
  rewrite bool_decide_eq_true_2 by reflexivity.
  replace (LittleEndian.Uint32 (LittleEndian.PutUint32 16)) with 16 by reflexivity.
  cbv zeta. change (16 <? 16) with false. cbv iota.
  match goal with
  | |- context [ReadFull _ (?a ++ ?b ++ ?c ++ ?d ++ ?e ++ ?f ++ ?rest)] =>
      destruct (fmt_body_fields a b c d e f [] eq_refl eq_refl eq_refl
                  eq_refl eq_refl eq_refl) as (F1 & F2 & F3 & F4);
      replace (a ++ b ++ c ++ d ++ e ++ f ++ rest)
        with ((a ++ b ++ c ++ d ++ e ++ f ++ []) ++ rest)
        by (rewrite <- !app_assoc; reflexivity)
  end.
  rewrite ReadFull_app by reflexivity. cbv beta iota zeta.
  rewrite F1, F2, F3, F4.
  rewrite <- (app_nil_r (LittleEndian.PutUint16 ch)),
          <- (app_nil_r (LittleEndian.PutUint32 rate)),
          <- (app_nil_r (LittleEndian.PutUint16 bits)).
  rewrite !Uint16_PutUint16, Uint32_PutUint32 by lia.
  replace (LittleEndian.Uint16 (LittleEndian.PutUint16 1)) with 1 by reflexivity.
  change (negb (1 =? 1)) with false. cbv iota.
  rewrite scanChunks_step by reflexivity.
  rewrite bool_decide_eq_false_2 by discriminate.
  rewrite bool_decide_eq_true_2 by reflexivity.
  cbn [fmtChunkFound negb scSampleRate scNumChannels scBitsPerSample].
  rewrite <- (app_nil_r (LittleEndian.PutUint32 pcm)), Uint32_PutUint32 by lia.
  reflexivity.
Qed.

(** C2. For every payload size and sample rate below 2^32 and every
    channel count and bit depth below 2^16, [ParseWavHeader] applied to
    the 44 bytes of [GenerateWavHeader] returns these four values and no
    error. *)
Theorem ParseWavHeader_GenerateWavHeader pcm rate ch bits :
  0 <= pcm < 2 ^ 32 -> 0 <= rate < 2 ^ 32 ->
  0 <= ch < 2 ^ 16 -> 0 <= bits < 2 ^ 16 ->
  length (GenerateWavHeader pcm rate ch bits) = 44%nat /\
  ParseWavHeader (GenerateWavHeader pcm rate ch bits)
  = Ok (mkWavInfo pcm rate ch bits, []).
Proof.
  intros Hp Hr Hc Hb. split; [reflexivity|].
  rewrite <- (app_nil_r (GenerateWavHeader _ _ _ _)).
  by apply ParseWavHeader_generated.
Qed.

Lemma ParseWavHeader_GenerateWavHeader_witness :
  length (GenerateWavHeader 88200 44100 2 16) = 44%nat /\
  ParseWavHeader (GenerateWavHeader 88200 44100 2 16)
  = Ok (mkWavInfo 88200 44100 2 16, []).
Proof.
  apply (ParseWavHeader_GenerateWavHeader 88200 44100 2 16); lia.
Defined.

(** ** Skipping unknown chunks *)

Lemma scanChunks_skip f st tag L payload rest :
  length tag = 4%nat -> tag <> tag_fmt -> tag <> tag_data ->
  0 <= L < 2 ^ 32 -> len payload = L ->
  scanChunks (S f) st (tag ++ LittleEndian.PutUint32 L ++ payload ++ rest)
  = scanChunks f st rest.
Proof.
  intros Ht Hf Hd HL Hp.
  rewrite scanChunks_step by done.
  rewrite !bool_decide_eq_false_2 by done. cbv zeta.
  rewrite <- (app_nil_r (LittleEndian.PutUint32 L)), Uint32_PutUint32 by done.
  rewrite Discard_app; [done|]. unfold len in Hp. lia.
Qed.

Lemma scanChunks_skip_chunks cs f st rest :
  Forall unknownChunk cs ->
  scanChunks (length cs + f) st (chunksBytes cs ++ rest) = scanChunks f st rest.
Proof.
  induction 1 as [|c cs (Ht & Hf & Hd & HL) _ IH]; [done|].
  unfold chunksBytes in *. cbn [map concat length Nat.add].
  unfold chunkBytes at 1. rewrite <- !app_assoc.
  rewrite scanChunks_skip; [exact IH | done | done | done | unfold len in *; lia | done].
Qed.

(** With the fuel [ParseWavHeader] gives the loop: chunks that are neither
    "fmt " nor "data" in front of a stream are passed over, each by the
    length it declares. *)
Lemma scanChunks_strip cs st rest :
  Forall unknownChunk cs ->
  scanChunks (S (length (chunksBytes cs ++ rest))) st (chunksBytes cs ++ rest)
  = scanChunks (S (length rest)) st rest.
Proof.
  intros Hcs.
  rewrite <- (scanChunks_fuel (length cs + S (length (chunksBytes cs ++ rest))) st
                (chunksBytes cs ++ rest)) by lia.
  rewrite scanChunks_skip_chunks by done.
  apply scanChunks_fuel. rewrite length_app. lia.
Qed.

Lemma scanChunks_fmt st fsz fbody rest :
  length fsz = 4%nat -> len fbody = LittleEndian.Uint32 fsz ->
  scanChunks (S (length ((tag_fmt ++ fsz ++ fbody) ++ rest))) st
    ((tag_fmt ++ fsz ++ fbody) ++ rest)
  = if LittleEndian.Uint32 fsz <? 16 then Fail (ErrFmtSize (LittleEndian.Uint32 fsz))
    else if negb (LittleEndian.Uint16 (slice 0 2 fbody) =? 1)
         then Fail (ErrAudioFormat (LittleEndian.Uint16 (slice 0 2 fbody)))
         else scanChunks (S (length rest))
                (mkScan (LittleEndian.Uint32 (slice 4 8 fbody))
                        (LittleEndian.Uint16 (slice 2 4 fbody))
                        (LittleEndian.Uint16 (slice 14 16 fbody)) true) rest.
Proof.
  intros Hfs Hfb.
  rewrite <- !(app_assoc tag_fmt), <- !(app_assoc fsz).
  rewrite scanChunks_step by done.
  rewrite bool_decide_eq_true_2 by done. cbv zeta.
  destruct (_ <? 16); [done|].
  rewrite ReadFull_app by (unfold len in Hfb; lia).
  destruct (negb _); [done|].
  apply scanChunks_fuel. rewrite !length_app. lia.
Qed.

Lemma ParseWavHeader_riff riff s :
  length riff = 12%nat ->
  ParseWavHeader (riff ++ s)
  = if negb (bool_decide (slice 0 4 riff = tag_RIFF))
       || negb (bool_decide (slice 8 12 riff = tag_WAVE))
    then Fail ErrInvalidRiff
    else scanChunks (S (length s)) scan0 s.
Proof. intros Hr. unfold ParseWavHeader. by rewrite ReadFull_app. Qed.

(** Unknown chunks in front of and behind the "fmt " chunk leave no trace
    in the result. *)
Lemma ParseWavHeader_strip riff fsz fbody before after rest :
  length riff = 12%nat ->
  length fsz = 4%nat -> len fbody = LittleEndian.Uint32 fsz ->
  Forall unknownChunk before -> Forall unknownChunk after ->
  ParseWavHeader (riff ++ chunksBytes before ++ (tag_fmt ++ fsz ++ fbody)
                       ++ chunksBytes after ++ rest)
  = ParseWavHeader (riff ++ (tag_fmt ++ fsz ++ fbody) ++ rest).
Proof.
  intros Hr Hfs Hfb Hb Ha.
  rewrite !ParseWavHeader_riff by done.
  destruct (_ || _); [done|].
  rewrite scanChunks_strip by done.
  rewrite !scanChunks_fmt by done.
  destruct (_ <? 16); [done|]. destruct (negb _); [done|].
  by apply scanChunks_strip.
Qed.

Lemma chunksBytes_insert mid c after :
  chunksBytes (mid ++ c :: after)
  = chunksBytes mid ++ chunkBytes c ++ chunksBytes after.
Proof. unfold chunksBytes. by rewrite map_app, concat_app. Qed.

(** C4. An extra chunk whose tag is neither "fmt " nor "data", with a
    declared length and exactly as many bytes of body, inserted between
    the "fmt " and the "data" chunk of a stream (among any other such
    chunks, before or behind "fmt "), leaves the result of
    [ParseWavHeader] (values, error and stream position) unchanged.
    Every chunk other than "fmt " and "data" is skipped by its declared
    length: dropping all of them changes nothing, and a generated header
    with any such chunks put in before and behind its "fmt " chunk,
    whatever their bodies hold, parses to the generated values with the
    stream positioned at the first byte behind the "data" header. *)
Theorem ParseWavHeader_skips_unknown_chunk
    (riff fsz fbody rest payload : list byte)
    (before mid after : list (list byte * list byte)) (c : list byte * list byte)
    (pcm rate ch bits : Z) :
  length riff = 12%nat ->
  length fsz = 4%nat -> len fbody = LittleEndian.Uint32 fsz ->
  Forall unknownChunk before -> Forall unknownChunk mid ->
  Forall unknownChunk after -> unknownChunk c ->
  0 <= pcm < 2 ^ 32 -> 0 <= rate < 2 ^ 32 ->
  0 <= ch < 2 ^ 16 -> 0 <= bits < 2 ^ 16 ->
  let fmt := tag_fmt ++ fsz ++ fbody in
  let hdr := GenerateWavHeader pcm rate ch bits in
  ParseWavHeader (riff ++ chunksBytes before ++ fmt ++ chunksBytes mid
                       ++ chunkBytes c ++ chunksBytes after ++ rest)
  = ParseWavHeader (riff ++ chunksBytes before ++ fmt ++ chunksBytes mid
                         ++ chunksBytes after ++ rest)
  /\ ParseWavHeader (riff ++ chunksBytes before ++ fmt ++ chunksBytes after ++ rest)
     = ParseWavHeader (riff ++ fmt ++ rest)
  /\ ParseWavHeader (take 12 hdr ++ chunksBytes before ++ slice 12 36 hdr
                       ++ chunksBytes after ++ drop 36 hdr ++ payload)
     = Ok (mkWavInfo pcm rate ch bits, payload).
Proof.
  intros Hr Hfs Hfb Hb Hm Ha Hc Hp Hrt Hch Hbt fmt hdr.
  split_and!.
  - transitivity (ParseWavHeader (riff ++ fmt ++ rest)).
    + replace (chunksBytes mid ++ chunkBytes c ++ chunksBytes after ++ rest)
        with (chunksBytes (mid ++ c :: after) ++ rest)
        by (by rewrite chunksBytes_insert, <- !app_assoc).
      apply ParseWavHeader_strip; try done.
      apply Forall_app. split; [done|]. by constructor.
    + symmetry.
      replace (chunksBytes mid ++ chunksBytes after ++ rest)
        with (chunksBytes (mid ++ after) ++ rest)
        by (unfold chunksBytes; by rewrite map_app, concat_app, <- app_assoc).
      apply ParseWavHeader_strip; try done. by apply Forall_app.
  - by apply ParseWavHeader_strip.
  - assert (Hfmt : slice 12 36 hdr
                   = tag_fmt ++ LittleEndian.PutUint32 16 ++ slice 20 36 hdr)
      by reflexivity.
    rewrite Hfmt.
    rewrite ParseWavHeader_strip; try done; try reflexivity.
    rewrite <- Hfmt, !app_assoc, <- (app_assoc _ _ (drop 36 hdr)).
    replace (take 12 hdr ++ slice 12 36 hdr ++ drop 36 hdr) with hdr by reflexivity.
    by apply ParseWavHeader_generated.
Qed.

Lemma ParseWavHeader_skips_unknown_chunk_witness :
  let hdr := GenerateWavHeader 4 44100 2 16 in
  let riff := take 12 hdr in
  let fmt := tag_fmt ++ LittleEndian.PutUint32 16 ++ slice 20 36 hdr in
  let rest := drop 36 hdr ++ list_byte_of_string "abcd" in
  let before := [(list_byte_of_string "LIST", list_byte_of_string "data")] in
  let mid := [(list_byte_of_string "cue ", [])] in
  let after := [(list_byte_of_string "fact", list_byte_of_string "fmt 1234")] in
  let c := (list_byte_of_string "JUNK", list_byte_of_string "0123456789") in
  ParseWavHeader (riff ++ chunksBytes before ++ fmt ++ chunksBytes mid
                       ++ chunkBytes c ++ chunksBytes after ++ rest)
  = ParseWavHeader (riff ++ chunksBytes before ++ fmt ++ chunksBytes mid
                         ++ chunksBytes after ++ rest)
  /\ ParseWavHeader (riff ++ chunksBytes before ++ fmt ++ chunksBytes after ++ rest)
     = ParseWavHeader (riff ++ fmt ++ rest)
  /\ ParseWavHeader (take 12 hdr ++ chunksBytes before ++ slice 12 36 hdr
                       ++ chunksBytes after ++ drop 36 hdr
                       ++ list_byte_of_string "abcd")
     = Ok (mkWavInfo 4 44100 2 16, list_byte_of_string "abcd").
Proof.
  intros hdr riff fmt rest before mid after c.
  apply (ParseWavHeader_skips_unknown_chunk riff (LittleEndian.PutUint32 16)
           (slice 20 36 hdr) rest (list_byte_of_string "abcd")
           before mid after c 4 44100 2 16);
    try reflexivity; try lia;
    repeat constructor; discriminate.
Defined.

Example junk_chunk_example :
  ParseWavHeader
    (take 12 (GenerateWavHeader 4 44100 2 16)
     ++ (tag_fmt ++ LittleEndian.PutUint32 16
                 ++ slice 20 36 (GenerateWavHeader 4 44100 2 16))
     ++ (list_byte_of_string "JUNK" ++ LittleEndian.PutUint32 10
           ++ list_byte_of_string "0123456789")
     ++ drop 36 (GenerateWavHeader 4 44100 2 16) ++ list_byte_of_string "abcd")
  = Ok (mkWavInfo 4 44100 2 16, list_byte_of_string "abcd").
Proof. vm_compute. reflexivity. Qed.

(** ** When the header is rejected *)

Lemma split_chunk_header (s : list byte) :
  (8 <= length s)%nat ->
  exists tag szb rest, s = tag ++ szb ++ rest /\ length tag = 4%nat /\ length szb = 4%nat.
Proof.
  intros Hs. exists (take 4 s), (take 4 (drop 4 s)), (drop 4 (drop 4 s)).
  rewrite !take_drop, !length_take, length_drop. repeat split; lia.
Qed.

Lemma Uint16_slice body :
  LittleEndian.Uint16 (slice 0 2 body) = LittleEndian.Uint16 body.
Proof. by destruct body as [|a [|b t]]. Qed.

Lemma Uint32_nonneg b : 0 <= LittleEndian.Uint32 b.
Proof.
  destruct b as [|b0 [|b1 [|b2 [|b3 t]]]]; try done.
  cbn [LittleEndian.Uint32].
  pose proof (Z_of_byte_range b0). pose proof (Z_of_byte_range b1).
  pose proof (Z_of_byte_range b2). pose proof (Z_of_byte_range b3).
  rewrite !Z.lor_nonneg, !Z.shiftl_nonneg. lia.
Qed.

Lemma failed_Fail {A} (e : error) : failed (@Fail A e).
Proof. by exists e. Qed.

Lemma not_failed_Ok {A} (a : A) : ~ failed (Ok a).
Proof. by intros [e He]. Qed.

#[local] Hint Resolve failed_Fail : core.

(** Every failure of the chunk loop is one of the listed faults. *)
Lemma scanChunks_fault_sound f st s :
  failed (scanChunks f st s) -> ChunkFault (fmtChunkFound st) s.
Proof.
  revert st s. induction f as [|f IH]; intros st s Hfail.
  { by destruct Hfail. }
  destruct (Nat.lt_ge_cases (length s) 8) as [Hs|Hs].
  { by apply fault_header_cut. }
  destruct (split_chunk_header s Hs) as (tag & szb & rest & -> & Ht & Hz).
  assert (Hc : chunkAt (tag ++ szb ++ rest) tag (LittleEndian.Uint32 szb) rest)
    by (by exists szb).
  rewrite scanChunks_step in Hfail by done. cbv zeta in Hfail.
  destruct (bool_decide (tag = tag_fmt)) eqn:Efmt.
  - apply bool_decide_eq_true_1 in Efmt. subst tag.
    destruct (Z.ltb_spec (LittleEndian.Uint32 szb) 16) as [Hlt|Hge].
    { by eapply fault_fmt_short. }
    destruct (ReadFull _ rest) as [[body s2]|] eqn:ER.
    + apply ReadFull_Some in ER as [-> Hb].
      assert (Hlen : len body = LittleEndian.Uint32 szb) by (unfold len; lia).
      rewrite Uint16_slice in Hfail.
      destruct (Z.eqb_spec (LittleEndian.Uint16 body) 1) as [E1|E1]; cbn [negb] in Hfail.
      * eapply fault_after_fmt; eauto. by apply IH in Hfail.
      * eapply fault_not_pcm; eauto.
    + eapply fault_fmt_cut; eauto.
      unfold ReadFull in ER. destruct (Nat.leb_spec (Z.to_nat (LittleEndian.Uint32 szb))
                                         (length rest)); [done|].
      unfold len. lia.
  - apply bool_decide_eq_false_1 in Efmt.
    destruct (bool_decide (tag = tag_data)) eqn:Edata.
    + apply bool_decide_eq_true_1 in Edata. subst tag.
      destruct (fmtChunkFound st); cbn [negb] in Hfail.
      * by apply not_failed_Ok in Hfail.
      * by eapply fault_data_first.
    + apply bool_decide_eq_false_1 in Edata.
      destruct (Discard _ rest) as [s2|] eqn:ED.
      * apply Discard_Some in ED as (body & -> & Hb).
        eapply fault_after_skip; eauto. unfold len.
        pose proof (Uint32_nonneg szb). lia.
      * eapply fault_skip_cut; eauto.
        unfold Discard in ED. destruct (Nat.leb_spec (Z.to_nat (LittleEndian.Uint32 szb))
                                          (length rest)); [done|].
        unfold len. lia.
Qed.

(** Every listed fault makes the chunk loop fail. *)
Lemma scanChunks_fault_complete seen s :
  ChunkFault seen s ->
  forall f st, (length s < f)%nat -> fmtChunkFound st = seen ->
  failed (scanChunks f st s).
Proof.
  induction 1 as [seen s Hs
                 |seen s sz rest (szb & -> & Ht & Hz & ->) Hlt
                 |seen s sz rest (szb & -> & Ht & Hz & ->) Hge Hcut
                 |seen s sz body rest (szb & -> & Ht & Hz & ->) Hge Hb Hpcm
                 |s sz rest (szb & -> & Ht & Hz & ->)
                 |seen s tag sz rest (szb & -> & Ht & Hz & ->) Hnf Hnd Hcut
                 |seen s sz body rest (szb & -> & Ht & Hz & ->) Hge Hb Hpcm Hrest IH
                 |seen s tag sz body rest (szb & -> & Ht & Hz & ->) Hnf Hnd Hb Hrest IH];
    intros [|f] st Hf Hseen; try lia.
  - cbn [scanChunks]. by rewrite ReadFull_short.
  - rewrite scanChunks_step, bool_decide_eq_true_2 by done. cbv zeta.
    by rewrite (proj2 (Z.ltb_lt _ _)).
  - rewrite scanChunks_step, bool_decide_eq_true_2 by done. cbv zeta.
    rewrite (proj2 (Z.ltb_ge _ _)) by done.
    rewrite ReadFull_short; [done|]. unfold len in Hcut. lia.
  - rewrite scanChunks_step, bool_decide_eq_true_2 by done. cbv zeta.
    rewrite (proj2 (Z.ltb_ge _ _)) by done.
    rewrite ReadFull_app by (unfold len in Hb; lia).
    rewrite Uint16_slice, (proj2 (Z.eqb_neq _ _)) by done. cbn [negb]. done.
  - rewrite scanChunks_step by done.
    rewrite bool_decide_eq_false_2, bool_decide_eq_true_2 by done.
    cbv zeta. rewrite Hseen. cbn [negb]. done.
  - rewrite scanChunks_step by done.
    rewrite !bool_decide_eq_false_2 by done. cbv zeta.
    rewrite Discard_short; [done|]. unfold len in Hcut. lia.
  - rewrite scanChunks_step, bool_decide_eq_true_2 by done. cbv zeta.
    rewrite (proj2 (Z.ltb_ge _ _)) by done.
    rewrite ReadFull_app by (unfold len in Hb; lia).
    rewrite Uint16_slice, (proj2 (Z.eqb_eq _ _)) by done. cbn [negb].
    apply IH; [|done]. rewrite !length_app in Hf. lia.
  - rewrite scanChunks_step by done.
    rewrite !bool_decide_eq_false_2 by done. cbv zeta.
    rewrite Discard_app by (unfold len in Hb; lia).
    apply IH; [|done]. rewrite !length_app in Hf. lia.
Qed.

(** C8. [ParseWavHeader] fails exactly on the malformed streams: a
    prologue that is cut short or lacks "RIFF" at offset 0 or "WAVE" at
    offset 8, a "fmt " chunk declaring fewer than 16 bytes or an audio
    format other than 1, a "data" chunk before any "fmt " chunk, or a
    stream ending inside a chunk header, a "fmt " body or a skipped body.
    On every other stream it returns a result. *)
Theorem ParseWavHeader_fails_iff_malformed s :
  (failed (ParseWavHeader s) <-> Malformed s) /\
  (~ Malformed s -> exists r, ParseWavHeader s = Ok r).
Proof.
  assert (Hiff : failed (ParseWavHeader s) <-> Malformed s).
  { unfold ParseWavHeader.
    destruct (Nat.lt_ge_cases (length s) 12) as [Hs|Hs].
    { rewrite ReadFull_short by done. split; [|done]. intros _. by apply riff_cut. }
    rewrite <- (take_drop 12 s) at 1.
    rewrite ReadFull_app by (rewrite length_take; lia).
    assert (E1 : slice 0 4 (take 12 s) = slice 0 4 s).
    { unfold slice. by rewrite !drop_0, take_take. }
    assert (E2 : slice 8 12 (take 12 s) = slice 8 12 s).
    { unfold slice. change (12 - 8)%nat with 4%nat.
      replace (drop 8 (take 12 s)) with (take 4 (drop 8 s))
        by apply (take_drop_commute s 4 8).
      by rewrite take_take. }
    rewrite E1, E2.
    destruct (bool_decide (slice 0 4 s = tag_RIFF)) eqn:ER; cbn [negb orb].
    - apply bool_decide_eq_true_1 in ER.
      destruct (bool_decide (slice 8 12 s = tag_WAVE)) eqn:EW; cbn [negb].
      + apply bool_decide_eq_true_1 in EW. split.
        * intros Hf. apply riff_chunks; [done|].
          by apply scanChunks_fault_sound in Hf.
        * intros [Hc|_ [Hc|Hc]|_ Hc]; [lia|done|done|].
          eapply scanChunks_fault_complete; eauto.
      + apply bool_decide_eq_false_1 in EW. split; [|done].
        intros _. apply riff_tags; auto.
    - apply bool_decide_eq_false_1 in ER. split; [|done].
      intros _. apply riff_tags; auto. }
  split; [done|]. intros Hm.
  destruct (ParseWavHeader s) as [r|e|p|] eqn:E.
  - by exists r.
  - destruct Hm. apply Hiff. by exists e.
  - by apply ParseWavHeader_no_panic in E.
  - by apply ParseWavHeader_terminates in E.
Qed.

(** ** float64 arithmetic that is exact *)

Lemma digits2_pos_size p : digits2_pos p = Pos.size p.
Proof. induction p; cbn; congruence. Qed.

Lemma digits2_log2 p : Z.pos (digits2_pos p) = Z.log2 (Z.pos p) + 1.
Proof.
  rewrite digits2_pos_size. destruct p; cbn [Z.log2 Pos.size]; lia.
Qed.

Lemma digits2_bound p n :
  0 <= n -> (Z.pos (digits2_pos p) <= n <-> Z.pos p < 2 ^ n).
Proof.
  intros Hn. rewrite digits2_log2.
  rewrite (Z.log2_lt_pow2 (Z.pos p) n) by lia. lia.
Qed.

Lemma digits2_shift p q k :
  0 <= k -> Z.pos q = Z.pos p * 2 ^ k ->
  Z.pos (digits2_pos q) = Z.pos (digits2_pos p) + k.
Proof.
  intros Hk E. rewrite !digits2_log2, E, Z.log2_mul_pow2 by lia. lia.
Qed.

Lemma iter_xO_pow2 m k : Z.pos (Pos.iter xO m k) = Z.pos m * 2 ^ Z.pos k.
Proof.
  induction k as [|k IH] using Pos.peano_ind.
  - cbn [Pos.iter]. lia.
  - rewrite Pos.iter_succ, Pos2Z.inj_xO, IH, Pos2Z.inj_succ, Z.pow_succ_r by lia. lia.
Qed.

Lemma iter_pos_iter {A} (f : A -> A) p x : SpecFloat.iter_pos f p x = Pos.iter f x p.
Proof.
  revert x. induction p as [p IH|p IH|]; intros x; cbn [SpecFloat.iter_pos Pos.iter].
  - rewrite !IH. by rewrite <- !Pos.iter_swap.
  - by rewrite !IH.
  - done.
Qed.

(** Shifting out [k] zero bits loses nothing. *)
Lemma shr_zeros m k :
  SpecFloat.iter_pos shr_1 k (Build_shr_record (Z.pos (Pos.iter xO m k)) false false)
  = Build_shr_record (Z.pos m) false false.
Proof.
  rewrite iter_pos_iter. induction k as [|k IH] using Pos.peano_ind.
  - reflexivity.
  - rewrite Pos.iter_succ_r, Pos.iter_succ. cbn [shr_1 orb]. apply IH.
Qed.

(** Rounding a 53-bit mantissa followed by [k] zero bits is exact. *)
Lemma binary_round_aux_zeros sx (M m : positive) (k e : Z) :
  0 <= k -> Z.pos M = Z.pos m * 2 ^ k -> Z.pos (digits2_pos m) = 53 ->
  -1074 <= e + k <= 971 ->
  binary_round_aux 53 1024 sx (Z.pos M) e loc_Exact = S754_finite sx m (e + k).
Proof.
  intros Hk HM Hm He.
  pose proof (digits2_shift m M k Hk HM) as HdM.
  assert (Hshr : shr_fexp 53 1024 (Z.pos M) e loc_Exact
                 = (Build_shr_record (Z.pos m) false false, e + k)).
  { unfold shr_fexp, fexp, emin. cbn [Zdigits2 shr_record_of_loc].
    rewrite HdM, Hm.
    replace (Z.max (53 + k + e - 53) (3 - 1024 - 53) - e) with k by lia.
    destruct k as [|kp|kp]; [| |lia].
    - cbn [shr]. rewrite Z.mul_1_r in HM. injection HM as ->.
      by rewrite Z.add_0_r.
    - cbn [shr]. rewrite <- iter_xO_pow2 in HM. injection HM as ->.
      by rewrite shr_zeros. }
  unfold binary_round_aux. rewrite Hshr.
  cbn [shr_m loc_of_shr_record round_nearest_even].
  assert (Hshr2 : shr_fexp 53 1024 (Z.pos m) (e + k) loc_Exact
                  = (Build_shr_record (Z.pos m) false false, e + k)).
  { unfold shr_fexp, fexp, emin. cbn [Zdigits2 shr_record_of_loc].
    rewrite Hm.
    replace (Z.max (53 + (e + k) - 53) (3 - 1024 - 53) - (e + k)) with 0 by lia.
    reflexivity. }
  rewrite Hshr2. cbn [shr_m].
  by rewrite (proj2 (Z.leb_le (e + k) (1024 - 53))) by lia.
Qed.

(** An integer of at most 53 bits converts exactly: the mantissa is the
    integer shifted up to 53 bits. *)
Lemma float64_of_int_exact (x : Z) :
  0 < x < 2 ^ 53 ->
  exists m : positive,
    float64_of_int x = S754_finite false m (Z.log2 x - 52)
    /\ Z.pos m = x * 2 ^ (52 - Z.log2 x)
    /\ Z.pos (digits2_pos m) = 53.
Proof.
  intros Hx. destruct x as [|p|p]; try lia.
  assert (Hd : 0 <= Z.log2 (Z.pos p) <= 52).
  { split; [apply Z.log2_nonneg|].
    pose proof (proj1 (Z.log2_lt_pow2 (Z.pos p) 53 ltac:(lia)) ltac:(lia)). lia. }
  set (d := Z.log2 (Z.pos p)) in *.
  unfold float64_of_int, binary_normalize, binary_round, shl_align, fexp, emin.
  rewrite digits2_log2. fold d.
  replace (Z.max (d + 1 + 0 - 53) (3 - 1024 - 53) - 0) with (d - 52) by lia.
  replace (Z.max (d + 1 + 0 - 53) (3 - 1024 - 53)) with (d - 52) by lia.
  destruct (d - 52) as [|q|q] eqn:Eq; try lia.
  - exists p. replace (52 - d) with 0 by lia. rewrite Z.mul_1_r.
    assert (Hdp : Z.pos (digits2_pos p) = 53) by (rewrite digits2_log2; fold d; lia).
    split; [|done].
    rewrite (binary_round_aux_zeros false p p 0 0); rewrite ?Z.mul_1_r; try done; lia.
  - exists (Pos.iter xO p q).
    assert (E : Z.pos (Pos.iter xO p q) = Z.pos p * 2 ^ (52 - d)).
    { rewrite iter_xO_pow2. f_equal. f_equal. lia. }
    assert (Hdp : Z.pos (digits2_pos (Pos.iter xO p q)) = 53).
    { rewrite (digits2_shift p _ (52 - d)) by (lia || done).
      rewrite digits2_log2. fold d. lia. }
    split; [|done].
    rewrite (binary_round_aux_zeros false _ (Pos.iter xO p q) 0 (Z.neg q));
      rewrite ?Z.mul_1_r, ?Z.add_0_r; try done; lia.
Qed.

Lemma f1_25_value : f1_25 = S754_finite false 5629499534213120 (-52).
Proof. reflexivity. Qed.

(** [int(1.25 * float64(x))] is [5x/4] as long as [5x] fits 53 bits. *)
Lemma estimate_float_exact (x : Z) :
  0 < x -> 5 * x < 2 ^ 53 ->
  int_of_float64 (float64_mul f1_25 (float64_of_int x)) = 5 * x / 4.
Proof.
  intros Hx H5.
  destruct (float64_of_int_exact x ltac:(lia)) as (m & -> & Hm & Hdm).
  rewrite f1_25_value. unfold float64_mul, SFmul. cbn [xorb].
  set (d := Z.log2 x) in *.
  assert (Hd : 0 <= d) by apply Z.log2_nonneg.
  set (D := Z.log2 (5 * x)).
  assert (HD : d + 2 <= D <= 52).
  { subst D d. split.
    - replace (Z.log2 x + 2) with (Z.log2 (x * 2 ^ 2)) by
        (rewrite Z.log2_mul_pow2; lia).
      apply Z.log2_le_mono. lia.
    - pose proof (proj1 (Z.log2_lt_pow2 (5 * x) 53 ltac:(lia)) ltac:(lia)). lia. }
  (* the 53-bit mantissa of 5x *)
  assert (Hq : 0 < 5 * x * 2 ^ (52 - D)) by (apply Z.mul_pos_pos; [lia|apply Z.pow_pos_nonneg; lia]).
  destruct (5 * x * 2 ^ (52 - D)) as [|q|q] eqn:Eq; try lia.
  assert (Hdq : Z.pos (digits2_pos q) = 53).
  { rewrite digits2_log2, <- Eq, Z.log2_mul_pow2 by lia. fold D. lia. }
  rewrite (binary_round_aux_zeros false _ q (50 + D - d)); try lia.
  - unfold int_of_float64. cbn [cond_Zopp].
    replace (-52 + (d - 52) + (50 + D - d)) with (D - 54) by lia.
    rewrite (proj2 (Z.leb_gt 0 (D - 54))) by lia.
    replace (- (D - 54)) with (2 + (52 - D)) by lia.
    rewrite Z.pow_add_r by lia. rewrite <- Eq.
    rewrite Z.quot_div_nonneg by (try apply Z.mul_pos_pos; try apply Z.pow_pos_nonneg; lia).
    rewrite Z.div_mul_cancel_r by (try apply Z.pow_nonzero; lia).
    change (2 ^ 2) with 4.
    assert (0 <= 5 * x / 4 < 2 ^ 53) by (split; [apply Z.div_pos; lia|];
      apply Z.div_lt_upper_bound; lia).
    rewrite (proj2 (Z.leb_le _ _)), (proj2 (Z.ltb_lt _ _)) by lia. reflexivity.
  - rewrite Pos2Z.inj_mul, Hm, <- Eq.
    assert (E1 : 2 ^ (50 + D - d) = 2 ^ (D - 2) * 2 ^ (52 - d))
      by (rewrite <- Z.pow_add_r by lia; f_equal; lia).
    assert (E2 : 2 ^ 50 = 2 ^ (52 - D) * 2 ^ (D - 2))
      by (rewrite <- Z.pow_add_r by lia; f_equal; lia).
    rewrite E1. change (Z.pos 5629499534213120) with (5 * 2 ^ 50).
    rewrite E2. ring.
Qed.

(** ** The output-buffer estimate *)

Lemma wrap64_small v : - 2 ^ 63 <= v < 2 ^ 63 -> wrap64 v = v.
Proof. intros Hv. unfold wrap64. rewrite Z.mod_small; lia. Qed.

Lemma cint_small v : - 2 ^ 31 <= v < 2 ^ 31 -> cint v = v.
Proof. intros Hv. unfold cint. rewrite Z.mod_small; lia. Qed.

Section EncoderFacts.
Context {H : Type} `{Lame H}.
Implicit Types enc : Encoder H.

(** For a channel count that does not overflow, a sample frame is two
    bytes per channel. *)
Lemma bytesPerSampleOf_channels enc :
  1 <= encNumChannels enc < 2 ^ 59 ->
  bytesPerSampleOf enc = encNumChannels enc * 2.
Proof.
  intros Hc. unfold bytesPerSampleOf, SampleBitDepth.
  rewrite (wrap64_small (_ * 16)) by lia.
  replace (encNumChannels enc * 16) with (encNumChannels enc * 2 * 8) by lia.
  rewrite Z.quot_mul by lia. apply wrap64_small. lia.
Qed.

Lemma EstimateOutBufBytes_exact enc n :
  1 <= encNumChannels enc < 2 ^ 59 -> 0 <= n ->
  5 * (n / (encNumChannels enc * 2) + 1) < 2 ^ 53 ->
  EstimateOutBufBytes enc n
  = Ok (5 * (n / (encNumChannels enc * 2) + 1) / 4 + 7200).
Proof.
  intros Hc Hn Hx. unfold EstimateOutBufBytes, go_div.
  rewrite bytesPerSampleOf_channels by done.
  set (w := encNumChannels enc * 2) in *.
  rewrite (proj2 (Z.eqb_neq w 0)) by lia. cbn [mbind outcome_bind].
  rewrite Z.quot_div_nonneg by lia.
  assert (0 <= n / w) by (apply Z.div_pos; lia).
  rewrite (wrap64_small (n / w)) by lia.
  rewrite (wrap64_small (n / w + 1)) by lia.
  rewrite estimate_float_exact by lia.
  assert (0 <= 5 * (n / w + 1) / 4 < 2 ^ 53)
    by (split; [apply Z.div_pos; lia | apply Z.div_lt_upper_bound; lia]).
  by rewrite wrap64_small by lia.
Qed.

(** Inputs below 2^48 bytes, which is every Go slice, are within the
    exact range; the estimate is then at least 7201. *)
Lemma EstimateOutBufBytes_slice enc n :
  1 <= encNumChannels enc < 2 ^ 59 -> 0 <= n < 2 ^ 48 ->
  exists est, EstimateOutBufBytes enc n = Ok est /\ 7201 <= est.
Proof.
  intros Hc Hn.
  assert (0 <= n / (encNumChannels enc * 2) <= n).
  { split; [apply Z.div_pos; lia|]. apply Z.div_le_upper_bound; nia. }
  eexists. split; [apply EstimateOutBufBytes_exact; lia|].
  assert (1 <= 5 * (n / (encNumChannels enc * 2) + 1) / 4)
    by (apply Z.div_le_lower_bound; lia).
  lia.
Qed.

End EncoderFacts.

(** C5, as the code has it. For every channel count [c] with
    [1 <= c < 2^59] and every input length [n >= 0] with
    [5 * (n / (c*2) + 1) < 2^53], where float64 arithmetic is exact,
    [EstimateOutBufBytes n] is [floor(1.25 * (n / (c*2) + 1)) + 7200]; in
    particular the flush estimate [EstimateOutBufBytes 0] is 7201. *)
Theorem EstimateOutBufBytes_formula {H} (enc : Encoder H) (n : Z) :
  1 <= encNumChannels enc < 2 ^ 59 -> 0 <= n ->
  5 * (n / (encNumChannels enc * 2) + 1) < 2 ^ 53 ->
  EstimateOutBufBytes enc n
  = Ok (Qfloor ((5 # 4) * inject_Z (n / (encNumChannels enc * 2) + 1)) + 7200)
  /\ EstimateOutBufBytes enc 0 = Ok 7201.
Proof.
  intros Hc Hn Hx. split.
  - rewrite EstimateOutBufBytes_exact by done.
    unfold Qfloor, Qmult, inject_Z. cbn [Qnum Qden].
    reflexivity.
  - rewrite EstimateOutBufBytes_exact by (rewrite ?Z.div_0_l; lia).
    by rewrite Z.div_0_l by lia.
Qed.

Lemma EstimateOutBufBytes_formula_witness :
  EstimateOutBufBytes (mkEncoder (@None unit) [] 2 1152) 2048
  = Ok (Qfloor ((5 # 4) * inject_Z (2048 / (2 * 2) + 1)) + 7200)
  /\ EstimateOutBufBytes (mkEncoder (@None unit) [] 2 1152) 0 = Ok 7201.
Proof.
  apply (EstimateOutBufBytes_formula (mkEncoder (@None unit) [] 2 1152) 2048);
    [cbn; lia | lia | vm_compute; reflexivity].
Defined.

(** C5 as stated fails for a mono encoder at [n = 2^54]: the sample count
    [2^53 + 1] is not a float64 and is rounded to [2^53] before the
    multiplication, so the estimate is one less than the formula. *)
Lemma EstimateOutBufBytes_float64_rounding :
  1 <= encNumChannels (mkEncoder (@None unit) [] 1 1152) /\ 0 <= 2 ^ 54 /\
  EstimateOutBufBytes (mkEncoder (@None unit) [] 1 1152) (2 ^ 54)
  <> Ok (Qfloor ((5 # 4) * inject_Z (2 ^ 54 / (1 * 2) + 1)) + 7200).
Proof. repeat split; vm_compute; congruence. Qed.

(** ** One call of Encode *)

Section EncodeFacts.
Context {H : Type} `{Lame H}.
Implicit Types enc : Encoder H.

(** What [Encode] does once both checks have passed: the carry-over and
    the chunk are joined, the whole frames in front go to the engine and
    the rest is the new carry-over. *)
Lemma Encode_accepted enc in_ out est :
  len in_ <> 0 -> EstimateOutBufBytes enc (len in_) = Ok est -> est <= len out ->
  0 < bytesPerSampleOf enc ->
  let data := remainData enc ++ in_ in
  let w := bytesPerSampleOf enc in
  let m := Z.to_nat (len data - Z.rem (len data) w) in
  let enc1 := withCarry enc (drop m data) in
  Encode enc in_ out =
    if (m =? 0)%nat then mkRet (Ok 0) enc1 out []
    else if len out =? 0 then mkRet (Panic IndexOutOfRange) enc1 out []
    else
      match handle enc with
      | None => mkRet (Panic NilDereference) enc1 out []
      | Some h =>
          let numSamples := cint (Z.quot (Z.of_nat m) w) in
          let '(nWr, out', h, call) :=
            if encNumChannels enc =? 2
            then
              let '(nWr, out', h) :=
                lame_encode_buffer_interleaved h (take m data) numSamples out
                  (cint (len out)) in
              (nWr, out', h, CallEncodeInterleaved (take m data) numSamples (cint (len out)))
            else
              let '(nWr, out', h) :=
                lame_encode_buffer h (take m data) numSamples out (cint (len out)) in
              (nWr, out', h, CallEncodeMono (take m data) numSamples (cint (len out))) in
          mkRet (if nWr <? 0 then Fail (toError nWr) else Ok nWr)
                (mkEncoder (Some h) (drop m data) (encNumChannels enc) (FrameSize enc))
                out' [call]
      end.
Proof.
  intros Hin Hest Hout Hw data w m enc1.
  unfold Encode. rewrite (proj2 (Z.eqb_neq _ _) Hin), Hest.
  rewrite (proj2 (Z.ltb_ge _ _) Hout).
  assert (Hdata : (if 0 <? len (remainData enc)
                   then (remainData enc ++ in_, withCarry enc [])
                   else (in_, enc)) = (data, withCarry enc [])).
  { destruct enc as [h [|b rd] c fs]; [reflexivity|].
    unfold len. cbn [remainData length]. 
    by rewrite (proj2 (Z.ltb_lt 0 _)) by lia. }
  unfold withCarry in Hdata. rewrite Hdata. clear Hdata.
  change (bytesPerSampleOf (mkEncoder (handle enc) [] (encNumChannels enc) (FrameSize enc)))
    with w.
  unfold go_mod. rewrite (proj2 (Z.eqb_neq w 0)) by lia.
  assert (Hlen : 0 <= len data) by (unfold len; lia).
  pose proof (Z.rem_bound_pos (len data) w Hlen Hw) as Hrem.
  assert (Hle : Z.rem (len data) w <= len data).
  { destruct (Z.lt_ge_cases (len data) w).
    - rewrite Z.rem_small; lia.
    - lia. }
  cbn [handle remainData encNumChannels FrameSize app].
  destruct (Z.ltb_spec 0 (Z.rem (len data) w)) as [Hr|Hr].
  - fold m.
    replace (len data - Z.rem (len data) w =? 0) with (m =? 0)%nat.
    2: { subst m. destruct (Z.eqb_spec (len data - Z.rem (len data) w) 0) as [->|];
           [reflexivity|]. apply Nat.eqb_neq. lia. }
    replace (len data - Z.rem (len data) w) with (Z.of_nat m) by (subst m; lia).
    reflexivity.
  - assert (Hr0 : Z.rem (len data) w = 0) by lia.
    assert (Hm : m = length data) by (subst m; unfold len in *; lia).
    assert (Hmn : (m =? 0)%nat = false).
    { apply Nat.eqb_neq. rewrite Hm. unfold data. rewrite length_app.
      unfold len in Hin. lia. }
    rewrite Hmn. subst enc1. rewrite Hm, drop_all, firstn_all.
    assert (Hnz : len data <> 0)
      by (unfold len, data; rewrite length_app; unfold len in Hin; lia).
    rewrite (proj2 (Z.eqb_neq _ _) Hnz).
    reflexivity.
Qed.

(** C6. When both checks pass and carry-over plus chunk are shorter than
    one sample frame, [Encode] returns 0 and no error, calls no engine
    entry point, and the carry-over becomes the old carry-over followed
    by the whole chunk. *)
Theorem Encode_below_one_frame enc in_ out est :
  len in_ <> 0 -> EstimateOutBufBytes enc (len in_) = Ok est -> est <= len out ->
  len (remainData enc) + len in_ < bytesPerSampleOf enc ->
  ret (Encode enc in_ out) = Ok 0
  /\ calls (Encode enc in_ out) = []
  /\ remainData (encAfter (Encode enc in_ out)) = remainData enc ++ in_
  /\ handle (encAfter (Encode enc in_ out)) = handle enc
  /\ outAfter (Encode enc in_ out) = out.
Proof.
  intros Hin Hest Hout Hshort.
  assert (Hw : 0 < bytesPerSampleOf enc) by (unfold len in *; lia).
  rewrite (Encode_accepted enc in_ out est) by done. cbv zeta.
  assert (Hlen : len (remainData enc ++ in_) = len (remainData enc) + len in_)
    by (unfold len; rewrite length_app; lia).
  rewrite Z.rem_small by (unfold len in *; lia).
  rewrite Z.sub_diag. done.
Qed.

(** C7. [Encode] returns an error without calling the engine and
    without touching the carry-over exactly when the input is empty or
    the output is shorter than [EstimateOutBufBytes (len input)]; the
    errors are the empty-input and the output-too-small error, in this
    order. [Flush] returns the output-too-small error, likewise without
    effect, when the output is shorter than [EstimateOutBufBytes 0]. *)
Theorem Encode_rejects_exactly enc in_ out est est0 :
  EstimateOutBufBytes enc (len in_) = Ok est ->
  EstimateOutBufBytes enc 0 = Ok est0 ->
  ((exists e, ret (Encode enc in_ out) = Fail e
              /\ calls (Encode enc in_ out) = []
              /\ remainData (encAfter (Encode enc in_ out)) = remainData enc)
   <-> (len in_ = 0 \/ len out < est))
  /\ (len in_ = 0 ->
      Encode enc in_ out = mkRet (Fail ErrInputEmpty) enc out [])
  /\ (len in_ <> 0 -> len out < est ->
      Encode enc in_ out = mkRet (Fail ErrOutputTooSmall) enc out [])
  /\ (len out < est0 ->
      Flush enc out = mkRet (Fail ErrOutputTooSmall) enc out []).
Proof.
  intros Hest Hest0.
  assert (Hempty : len in_ = 0 ->
                   Encode enc in_ out = mkRet (Fail ErrInputEmpty) enc out []).
  { intros E. unfold Encode. by rewrite E. }
  assert (Hsmall : len in_ <> 0 -> len out < est ->
                   Encode enc in_ out = mkRet (Fail ErrOutputTooSmall) enc out []).
  { intros E Hlt. unfold Encode.
    by rewrite (proj2 (Z.eqb_neq _ _) E), Hest, (proj2 (Z.ltb_lt _ _) Hlt). }
  repeat split; try done.
  - intros (e & Hret & Hcalls & _).
    destruct (Z.eq_dec (len in_) 0) as [|Hin]; [by left|].
    destruct (Z.lt_ge_cases (len out) est) as [|Hout]; [by right|].
    exfalso. revert Hret Hcalls. unfold Encode, go_mod.
    rewrite (proj2 (Z.eqb_neq _ _) Hin), Hest, (proj2 (Z.ltb_ge _ _) Hout).
    repeat match goal with
           | |- context [if ?b then _ else _] => destruct b
           | |- context [match ?o with Some _ => _ | None => _ end] => destruct o
           | |- context [let '(_, _) := ?p in _] => destruct p
           end; cbn; congruence.
  - intros [E|Hlt].
    + rewrite (Hempty E). by exists ErrInputEmpty.
    + destruct (Z.eq_dec (len in_) 0) as [E|Hin].
      * rewrite (Hempty E). by exists ErrInputEmpty.
      * rewrite (Hsmall Hin Hlt). by exists ErrOutputTooSmall.
  - intros Hlt. unfold Flush. by rewrite Hest0, (proj2 (Z.ltb_lt _ _) Hlt).
Qed.

End EncodeFacts.

Lemma Encode_below_one_frame_witness :
  let H := constLame 0 in
  let enc := mkEncoder (Some tt) [Byte.x01] 2 1152 in
  let in_ := [Byte.x02; Byte.x03] in
  let out := replicate (Z.to_nat 7201) Byte.x00 in
  ret (Encode enc in_ out) = Ok 0
  /\ calls (Encode enc in_ out) = []
  /\ remainData (encAfter (Encode enc in_ out)) = remainData enc ++ in_
  /\ handle (encAfter (Encode enc in_ out)) = handle enc
  /\ outAfter (Encode enc in_ out) = out.
Proof.
  intros H enc in_ out.
  apply (Encode_below_one_frame enc in_ out 7201); vm_compute; congruence.
Defined.

Lemma Encode_rejects_exactly_witness :
  let H := constLame 0 in
  let enc := mkEncoder (Some tt) [] 2 1152 in
  let in_ := [Byte.x01; Byte.x02; Byte.x03; Byte.x04] in
  let out := replicate 10 Byte.x00 in
  ((exists e, ret (Encode enc in_ out) = Fail e
              /\ calls (Encode enc in_ out) = []
              /\ remainData (encAfter (Encode enc in_ out)) = remainData enc)
   <-> (len in_ = 0 \/ len out < 7202))
  /\ (len in_ = 0 ->
      Encode enc in_ out = mkRet (Fail ErrInputEmpty) enc out [])
  /\ (len in_ <> 0 -> len out < 7202 ->
      Encode enc in_ out = mkRet (Fail ErrOutputTooSmall) enc out [])
  /\ (len out < 7201 ->
      Flush enc out = mkRet (Fail ErrOutputTooSmall) enc out []).
Proof.
  intros H enc in_ out.
  apply (Encode_rejects_exactly enc in_ out 7202 7201); reflexivity.
Defined.

(** ** A session of Encode calls *)

Section Session.
Context {H : Type} `{Lame H}.
Implicit Types enc : Encoder H.


(** A call that fails a check changes nothing. *)
Lemma Encode_rejected enc in_ out :
  1 <= encNumChannels enc < 2 ^ 59 -> len in_ < 2 ^ 48 ->
  accepted enc (in_, out) = false ->
  calls (Encode enc in_ out) = [] /\ encAfter (Encode enc in_ out) = enc.
Proof.
  intros Hc Hn. unfold accepted. cbn [fst snd].
  destruct (EstimateOutBufBytes_slice enc (len in_) Hc) as (est & Hest & _);
    [unfold len in *; lia|].
  rewrite Hest. unfold Encode. rewrite Hest.
  destruct (len in_ =? 0); [done|]. cbn [negb andb].
  destruct (len out <? est); [done|]. done.
Qed.

(** A call that passes the checks hands the engine the whole frames in
    front of carry-over plus chunk and keeps the rest. *)
Lemma Encode_frames enc in_ out :
  live enc -> len in_ < 2 ^ 48 -> accepted enc (in_, out) = true ->
  let r := Encode enc in_ out in
  let fw := encNumChannels enc * 2 in
  fedBytes (calls r) ++ remainData (encAfter r) = remainData enc ++ in_
  /\ len (fedBytes (calls r)) mod fw = 0
  /\ len (remainData (encAfter r)) <= fw - 1
  /\ encNumChannels (encAfter r) = encNumChannels enc
  /\ handle (encAfter r) <> None
  /\ Forall (fun c => len (fed c) mod fw = 0) (calls r).
Proof.
  intros (Hc & Hh & Hrd) Hn Hacc r fw.
  unfold accepted in Hacc. cbn [fst snd] in Hacc.
  destruct (EstimateOutBufBytes_slice enc (len in_) Hc) as (est & Hest & Hest1);
    [unfold len in *; lia|].
  rewrite Hest in Hacc. apply andb_prop in Hacc as [Hin Hout].
  apply negb_true_iff, Z.eqb_neq in Hin. apply negb_true_iff, Z.ltb_ge in Hout.
  pose proof (bytesPerSampleOf_channels enc Hc) as Hw. fold fw in Hw.
  subst r. rewrite (Encode_accepted enc in_ out est) by (done || lia).
  cbv zeta. rewrite Hw.
  set (data := remainData enc ++ in_).
  assert (Hlen : 0 <= len data) by (unfold len; lia).
  pose proof (Z.rem_bound_pos (len data) fw Hlen ltac:(lia)) as Hrem.
  assert (Hle : Z.rem (len data) fw <= len data).
  { destruct (Z.lt_ge_cases (len data) fw); [rewrite Z.rem_small; lia | lia]. }
  set (m := Z.to_nat (len data - Z.rem (len data) fw)).
  assert (Hm : Z.of_nat m = len data - Z.rem (len data) fw) by lia.
  assert (Hmle : (m <= length data)%nat) by (unfold len in *; lia).
  assert (Hdrop : len (drop m data) = Z.rem (len data) fw)
    by (unfold len in *; rewrite length_drop; lia).
  assert (Htake : len (take m data) mod fw = 0).
  { unfold len. rewrite length_take_le by done. rewrite Hm.
    rewrite Z.rem_mod_nonneg by lia. rewrite Zminus_mod, Z.mod_mod by lia.
    rewrite Z.sub_diag. apply Z.mod_0_l. lia. }
  destruct (Nat.eqb_spec m 0) as [E0|E0].
  - cbn [calls encAfter withCarry remainData encNumChannels handle].
    rewrite E0, drop_0 in Hdrop |- *. split_and!; try done; lia.
  - rewrite (proj2 (Z.eqb_neq (len out) 0)) by lia.
    destruct (handle enc) as [h|]; [|done].
    destruct (encNumChannels enc =? 2).
    + destruct (lame_encode_buffer_interleaved _ _ _ _ _) as [[nWr out'] h'].
      cbn [calls encAfter remainData encNumChannels handle fedBytes map fed concat].
      rewrite app_nil_r, take_drop. split_and!; try done; [lia|].
      by repeat constructor.
    + destruct (lame_encode_buffer _ _ _ _ _) as [[nWr out'] h'].
      cbn [calls encAfter remainData encNumChannels handle fedBytes map fed concat].
      rewrite app_nil_r, take_drop. split_and!; try done; [lia|].
      by repeat constructor.
Qed.

Lemma Encode_keeps_live enc in_ out :
  live enc -> len in_ < 2 ^ 48 ->
  live (encAfter (Encode enc in_ out))
  /\ encNumChannels (encAfter (Encode enc in_ out)) = encNumChannels enc.
Proof.
  intros Hl Hn. destruct (accepted enc (in_, out)) eqn:Hacc.
  - destruct (Encode_frames enc in_ out Hl Hn Hacc) as (_ & _ & Hr & Hc & Hh & _).
    cbv zeta in *. split; [|done]. destruct Hl as (Hc0 & _ & _).
    unfold live. rewrite Hc. split_and!; (done || lia).
  - destruct Hl as (Hc0 & Hh0 & Hr0).
    destruct (Encode_rejected enc in_ out Hc0 Hn Hacc) as [_ ->].
    by split_and!.
Qed.

Lemma EncodeAll_app enc cs1 cs2 :
  EncodeAll enc (cs1 ++ cs2) =
    (fst (EncodeAll (fst (EncodeAll enc cs1)) cs2),
     snd (EncodeAll enc cs1) ++ snd (EncodeAll (fst (EncodeAll enc cs1)) cs2)).
Proof.
  revert enc. induction cs1 as [|[in_ out] cs1 IH]; intros enc.
  - cbn. by destruct (EncodeAll enc cs2).
  - cbn [EncodeAll app]. rewrite IH.
    destruct (EncodeAll (encAfter (Encode enc in_ out)) cs1) as [e1 l1].
    cbn [fst snd]. by rewrite app_assoc.
Qed.



(** With one or two channels and fewer than 2^31 sample frames at hand,
    the sample count covers the slice passed, to the byte. *)
Lemma Encode_handed enc in_ out :
  live enc -> encNumChannels enc = 1 \/ encNumChannels enc = 2 ->
  len in_ <= (2 ^ 31 - 1) * (encNumChannels enc * 2) ->
  accepted enc (in_, out) = true ->
  Forall (fun c => handed c = fed c) (calls (Encode enc in_ out)).
Proof.
  intros (Hc & Hh & Hrd) Hch Hn Hacc.
  unfold accepted in Hacc. cbn [fst snd] in Hacc.
  destruct (EstimateOutBufBytes_slice enc (len in_) Hc) as (est & Hest & Hest1);
    [unfold len in *; lia|].
  rewrite Hest in Hacc. apply andb_prop in Hacc as [Hin Hout].
  apply negb_true_iff, Z.eqb_neq in Hin. apply negb_true_iff, Z.ltb_ge in Hout.
  pose proof (bytesPerSampleOf_channels enc Hc) as Hw.
  rewrite (Encode_accepted enc in_ out est) by (done || lia).
  cbv zeta. rewrite Hw.
  set (fw := encNumChannels enc * 2) in *.
  set (data := remainData enc ++ in_).
  assert (Hlen : 0 <= len data < 2 ^ 31 * fw).
  { unfold len, data in *. rewrite length_app. lia. }
  pose proof (Z.rem_bound_pos (len data) fw ltac:(lia) ltac:(lia)) as Hrem.
  assert (Hle : Z.rem (len data) fw <= len data).
  { destruct (Z.lt_ge_cases (len data) fw); [rewrite Z.rem_small; lia | lia]. }
  set (m := Z.to_nat (len data - Z.rem (len data) fw)).
  assert (Hm : Z.of_nat m = len data - Z.rem (len data) fw) by lia.
  assert (Hdiv : Z.of_nat m = len data / fw * fw).
  { rewrite Hm, Z.rem_mod_nonneg by lia.
    pose proof (Z.div_mod (len data) fw ltac:(lia)). lia. }
  assert (Hq : 0 <= len data / fw < 2 ^ 31).
  { split; [apply Z.div_pos; lia | apply Z.div_lt_upper_bound; lia]. }
  assert (Hquot : cint (Z.quot (Z.of_nat m) fw) = len data / fw).
  { rewrite Z.quot_div_nonneg by lia. rewrite Hdiv, Z.div_mul by lia.
    apply cint_small. lia. }
  destruct (m =? 0)%nat; [constructor|].
  destruct (len out =? 0); [constructor|].
  destruct (handle enc) as [h|]; [|constructor].
  rewrite Hquot.
  assert (Hcover : forall k, fw = k ->
            take (Z.to_nat (len data / fw * k)) (take m data) = take m data).
  { intros k <-. rewrite <- Hdiv, Nat2Z.id, take_take. f_equal. lia. }
  destruct Hch as [E|E].
  - rewrite E. change (1 =? 2) with false. cbv iota.
    destruct (lame_encode_buffer _ _ _ _ _) as [[nWr out'] h'].
    cbn [calls]. constructor; [|constructor]. cbn [handed fed].
    apply Hcover. subst fw. lia.
  - rewrite E. change (2 =? 2) with true. cbv iota.
    destruct (lame_encode_buffer_interleaved _ _ _ _ _) as [[nWr out'] h'].
    cbn [calls]. constructor; [|constructor]. cbn [handed fed].
    apply Hcover. subst fw. lia.
Qed.

Lemma handedBytes_fed (log : list EngineCall) :
  Forall (fun c => handed c = fed c) log -> handedBytes log = fedBytes log.
Proof.
  unfold handedBytes, fedBytes. induction 1 as [|c log E _ IH]; [done|].
  cbn [map concat]. by rewrite E, IH.
Qed.




End Session.



Example Encode_session_example :
  let H := constLame 0 in
  let enc := mkEncoder (Some tt) [] 2 1152 in
  let out := replicate (Z.to_nat 7300) Byte.x00 in
  let cs := [([Byte.x01; Byte.x02; Byte.x03; Byte.x04; Byte.x05], out);
             ([Byte.x06; Byte.x07; Byte.x08; Byte.x09], out)] in
  map fed (snd (EncodeAll enc cs))
  = [[Byte.x01; Byte.x02; Byte.x03; Byte.x04];
     [Byte.x05; Byte.x06; Byte.x07; Byte.x08]]
  /\ remainData (fst (EncodeAll enc cs)) = [Byte.x09].
Proof. vm_compute. done. Qed.

(** ** EncodeFromWav and the caller's configuration *)

Lemma populated_fields c :
  VbrMode (populated c) = VbrMode c
  /\ MpegMode (populated c) = MpegMode c
  /\ Bitrate (populated c) = (if Bitrate c =? 0 then 128 else Bitrate c)
  /\ Quality (populated c)
     = (if (Quality c <? 0) || (9 <? Quality c) then 2 else Quality c)
  /\ SampleRate (populated c) = (if SampleRate c =? 0 then 44100 else SampleRate c)
  /\ NumChannels (populated c) = (if NumChannels c =? 0 then 2 else NumChannels c).
Proof.
  unfold populated, setNumChannels, setSampleRate, setBitrate, setQuality.
  destruct c as [sr nc br q vm mm]. cbn [NumChannels].
  destruct (nc =? 0); cbn [SampleRate]; destruct (sr =? 0); cbn [Bitrate];
    destruct (br =? 0); cbn [Quality]; destruct ((q <? 0) || (9 <? q)); done.
Qed.

Section EncodeFromWavFacts.
Context {H W : Type} `{Lame H} `{Writer W}.

(** [NewEncoder] on a valid pointer: the store is left alone when no
    engine handle could be had, and holds the defaulted configuration
    otherwise, whatever the engine then answers. *)
Lemma NewEncoder_store l st cfg :
  st !! l = Some cfg ->
  (NewEncoder (H:=H) (Some l) st).1.2
  = match lame_init with
    | Some _ => <[l := populated cfg]> st
    | None => st
    end.
Proof.
  intros Hl. unfold NewEncoder. destruct lame_init as [h|]; [|done].
  unfold populateEncConfig. rewrite Hl, lookup_insert_eq.
  destruct (initParams h (populated cfg)) as [[h' fs]|e|p|]; try done.
  cbn [mbind option_bind]. by rewrite lookup_insert_eq.
Qed.

(** C10. When the parsed header announces a bit depth other than 16,
    [EncodeFromWav] fails with the unsupported-depth error and has made
    no engine call (so no encoder session exists), written nothing and
    left the configuration alone. *)
Theorem EncodeFromWav_requires_16_bit wavStream (writer : W) config st info rest :
  ParseWavHeader wavStream = Ok (info, rest) ->
  bitsPerSample info <> 16 ->
  EncodeFromWav (H:=H) wavStream writer config st
  = mkDriverRet (Fail (ErrBitsPerSample (bitsPerSample info))) writer st [].
Proof.
  intros Hp Hb. unfold EncodeFromWav, SampleBitDepth. rewrite Hp.
  by rewrite (proj2 (Z.eqb_neq _ _) Hb).
Qed.

Lemma EncodeFromWav_store wavStream (writer : W) l st cfg :
  st !! l = Some cfg ->
  dstore (EncodeFromWav (H:=H) wavStream writer (Some l) st)
  = match ParseWavHeader wavStream with
    | Ok (info, _) =>
        if bitsPerSample info =? 16 then
          let cfg1 := setNumChannels (numChannels info)
                        (setSampleRate (sampleRate info) cfg) in
          <[l := match lame_init (H:=H) with
                 | Some _ => populated cfg1
                 | None => cfg1
                 end]> st
        else st
    | _ => st
    end.
Proof.
  intros Hl. unfold EncodeFromWav.
  destruct (ParseWavHeader wavStream) as [[info rest]|e|p|]; try done.
  unfold SampleBitDepth. destruct (bitsPerSample info =? 16); [|done].
  cbn [negb mbind option_bind]. rewrite Hl. cbv zeta.
  set (cfg1 := setNumChannels _ _).
  pose proof (NewEncoder_store l (<[l := cfg1]> st) cfg1 (lookup_insert_eq _ _ _)) as HN.
  destruct (NewEncoder (Some l) (<[l := cfg1]> st)) as [[r st'] cs].
  cbn [fst snd] in HN. subst st'.
  assert (E : match lame_init (H:=H) with
              | Some _ => <[l := populated cfg1]> (<[l := cfg1]> st)
              | None => <[l := cfg1]> st
              end
              = <[l := match lame_init (H:=H) with
                       | Some _ => populated cfg1
                       | None => cfg1
                       end]> st).
  { destruct lame_init; [apply insert_insert_eq | done]. }
  rewrite E.
  destruct r as [enc|e|p|]; try done.
  destruct (EstimateOutBufBytes enc 2048) as [est|e|p|]; try done.
  destruct (est <? 0); [done|].
  by destruct (encodeStream _ _ _).
Qed.

(** C9, as the code has it. With a valid configuration pointer,
    [EncodeFromWav] leaves the configuration alone when the header is
    rejected or not 16-bit; otherwise it writes the parsed sample rate
    and channel count into it and, once an engine handle exists, the
    defaults of [populateEncConfig] into the same configuration: a zero
    bitrate becomes 128, a quality outside 0..9 becomes 2 (and a parsed
    zero rate or channel count 44100 or 2). [VbrMode] and [MpegMode]
    never change; [Bitrate] and [Quality] stay when non-zero and within
    0..9. No other address of the store changes. *)
Theorem EncodeFromWav_config wavStream (writer : W) l st cfg :
  st !! l = Some cfg ->
  let r := EncodeFromWav (H:=H) wavStream writer (Some l) st in
  let touched :=
    match ParseWavHeader wavStream with
    | Ok (info, _) => bitsPerSample info =? 16
    | _ => false
    end in
  let parsed :=
    match ParseWavHeader wavStream with
    | Ok (info, _) => setNumChannels (numChannels info)
                        (setSampleRate (sampleRate info) cfg)
    | _ => cfg
    end in
  (forall l', l' <> l -> dstore r !! l' = st !! l')
  /\ dstore r !! l
     = Some (if touched
             then match lame_init (H:=H) with
                  | Some _ => populated parsed
                  | None => parsed
                  end
             else cfg)
  /\ exists cfg',
       dstore r !! l = Some cfg'
       /\ VbrMode cfg' = VbrMode cfg /\ MpegMode cfg' = MpegMode cfg
       /\ (Bitrate cfg' = Bitrate cfg \/ Bitrate cfg = 0 /\ Bitrate cfg' = 128)
       /\ (Quality cfg' = Quality cfg
           \/ (Quality cfg < 0 \/ 9 < Quality cfg) /\ Quality cfg' = 2).
Proof.
  intros Hl r touched parsed. subst r.
  rewrite (EncodeFromWav_store wavStream writer l st cfg Hl).
  subst touched parsed.
  destruct (ParseWavHeader wavStream) as [[info rest]|e|p|];
    try (split_and!; [done|done|]; exists cfg; split_and!; auto).
  destruct (bitsPerSample info =? 16);
    [|split_and!; [done|done|]; exists cfg; split_and!; auto].
  cbv zeta. set (cfg1 := setNumChannels _ _).
  assert (Hv : VbrMode cfg1 = VbrMode cfg /\ MpegMode cfg1 = MpegMode cfg
               /\ Bitrate cfg1 = Bitrate cfg /\ Quality cfg1 = Quality cfg)
    by done.
  destruct Hv as (Hv1 & Hv2 & Hv3 & Hv4).
  split_and!.
  - intros l' Hne. by rewrite lookup_insert_ne.
  - by rewrite lookup_insert_eq.
  - rewrite lookup_insert_eq. eexists. split; [done|].
    destruct (lame_init (H:=H)); [|split_and!; auto].
    destruct (populated_fields cfg1) as (P1 & P2 & P3 & P4 & _).
    rewrite P1, P2, P3, P4, Hv1, Hv2, Hv3, Hv4. split_and!; try done.
    + destruct (Z.eqb_spec (Bitrate cfg) 0); auto.
    + destruct (Z.ltb_spec (Quality cfg) 0); cbn [orb]; [auto|].
      destruct (Z.ltb_spec 9 (Quality cfg)); auto.
Qed.

End EncodeFromWavFacts.

Lemma EncodeFromWav_requires_16_bit_witness :
  let H := constLame 0 in
  EncodeFromWav (GenerateWavHeader 8 8000 1 8 ++ replicate 8 Byte.xff)
    (mkMemFile [] 0) None ∅
  = mkDriverRet (Fail (ErrBitsPerSample 8)) (mkMemFile [] 0) ∅ [].
Proof.
  intros H.
  apply (EncodeFromWav_requires_16_bit _ _ _ _ (mkWavInfo 8 8000 1 8)
           (replicate 8 Byte.xff)); [reflexivity | discriminate].
Defined.

Lemma EncodeFromWav_config_witness :
  let H := constLame 0 in
  let cfg := mkEncoderConfig 0 0 192 5 0 0 in
  let r := EncodeFromWav (GenerateWavHeader 0 22050 1 16) (mkMemFile [] 0)
             (Some 7%nat) {[7%nat := cfg]} in
  exists cfg',
    dstore r !! 7%nat = Some cfg'
    /\ VbrMode cfg' = VbrMode cfg /\ MpegMode cfg' = MpegMode cfg
    /\ (Bitrate cfg' = Bitrate cfg \/ Bitrate cfg = 0 /\ Bitrate cfg' = 128)
    /\ (Quality cfg' = Quality cfg
        \/ (Quality cfg < 0 \/ 9 < Quality cfg) /\ Quality cfg' = 2).
Proof.
  intros H cfg r.
  apply (EncodeFromWav_config (GenerateWavHeader 0 22050 1 16) (mkMemFile [] 0)
           7%nat {[7%nat := cfg]} cfg).
  apply lookup_singleton_eq.
Defined.

(** C9 as stated fails: a caller who leaves [Bitrate] at zero finds 128 in
    the configuration after the call. *)
Lemma EncodeFromWav_overwrites_bitrate :
  let H := constLame 0 in
  let cfg := mkEncoderConfig 0 0 0 2 0 0 in
  let r := EncodeFromWav (GenerateWavHeader 0 44100 2 16) (mkMemFile [] 0)
             (Some 0%nat) {[0%nat := cfg]} in
  Bitrate cfg = 0 /\ Bitrate <$> (dstore r !! 0%nat) = Some 128.
Proof.
  intros H cfg r. split; [reflexivity|]. subst r.
  rewrite (EncodeFromWav_store _ _ 0%nat _ cfg) by apply lookup_singleton_eq.
  replace (ParseWavHeader (GenerateWavHeader 0 44100 2 16))
    with (Ok (mkWavInfo 0 44100 2 16, @nil byte)) by reflexivity.
  change (bitsPerSample _ =? 16) with true. cbv beta iota zeta.
  rewrite lookup_insert_eq. reflexivity.
Qed.

(** ** DecodeToWav *)

Lemma M_bind_Ok {S A B} (m : M S A) (k : A -> M S B) s a s' :
  m s = (Ok a, s') -> (m ≫= k) s = k a s'.
Proof. intros E. unfold mbind, M_bind. by rewrite E. Qed.

Section DecodeToWavFacts.
Context {D W : Type} `{Mpg123 D} `{WriteSeeker W}.







End DecodeToWavFacts.



(** ** The drivers' loops finish *)

Section Termination.
Context {H D W : Type} `{Lame H} `{Mpg123 D} `{WriteSeeker W}.

Lemma EstimateOutBufBytes_fuel (enc : Encoder H) n :
  EstimateOutBufBytes enc n <> OutOfFuel.
Proof.
  unfold EstimateOutBufBytes, go_div, mbind, outcome_bind. repeat case_match; simplify_eq; done.
Qed.

Lemma Encode_fuel (enc : Encoder H) in_ out : ret (Encode enc in_ out) <> OutOfFuel.
Proof.
  pose proof (EstimateOutBufBytes_fuel enc (len in_)) as HE.
  unfold Encode, go_mod. repeat case_match; simplify_eq; done.
Qed.

Lemma Flush_fuel (enc : Encoder H) out : ret (Flush enc out) <> OutOfFuel.
Proof.
  pose proof (EstimateOutBufBytes_fuel enc 0) as HE.
  unfold Flush. repeat case_match; simplify_eq; done.
Qed.

Lemma emit_fuel n (st : EncRun H W) : (emit n st).1 <> OutOfFuel.
Proof.
  unfold emit, mbind, M_bind, modify, gets, lift, prefix, doWrite, mret, M_ret.
  repeat case_match; simplify_eq; done.
Qed.

Lemma encodeLoop_enough f s (st : EncRun H W) :
  (length s < f)%nat -> (encodeLoop f s st).1 <> OutOfFuel.
Proof.
  revert s st. induction f as [|f IH]; intros s st Hf; [lia|].
  cbn [encodeLoop]. unfold Read.
  destruct (Z.eqb_spec (len (take 2048 s)) 0) as [E0|E0].
  { rewrite E0. done. }
  assert (Hpos : 0 < len (take 2048 s)) by (unfold len in *; lia).
  rewrite (proj2 (Z.ltb_lt _ _) Hpos).
  assert (Hdrop : (length (drop 2048 s) < f)%nat).
  { rewrite length_drop. destruct s; [done|]. cbn [length] in *. lia. }
  unfold mbind at 1, M_bind at 1.
  match goal with
  | |- context [match ?X with (_, _) => _ end] =>
      destruct X as [[[]|e|p|] st1] eqn:EB; try done
  end.
  - by apply IH.
  - exfalso. revert EB. unfold mbind, M_bind, doEncode.
    pose proof (Encode_fuel (rEnc st) (take 2048 s) (rOut st)) as HE.
    destruct (ret (Encode (rEnc st) (take 2048 s) (rOut st))) as [n|e|p|]; try done.
    intros EB. pose proof (emit_fuel n (mkEncRun
                 (encAfter (Encode (rEnc st) (take 2048 s) (rOut st)))
                 (outAfter (Encode (rEnc st) (take 2048 s) (rOut st)))
                 (rWriter st) (rTotal st)
                 (rCalls st ++ calls (Encode (rEnc st) (take 2048 s) (rOut st))))) as HM.
    by rewrite EB in HM.
Qed.

Lemma Decode_fuel (d : Decoder D) in_ out : (Decode d in_ out).1.1 <> OutOfFuel.
Proof.
  unfold Decode, getFormat. repeat case_match; simplify_eq; done.
Qed.

Lemma storeDecoded_fuel n (st : DecRun D W) : (storeDecoded n st).1 <> OutOfFuel.
Proof.
  unfold storeDecoded, mbind, M_bind, modify, gets, lift, prefix, putBytes, mret, M_ret.
  repeat case_match; simplify_eq; done.
Qed.

Lemma decodeLoop_enough f s (st : DecRun D W) :
  (length s < f)%nat -> (decodeLoop f s st).1 <> OutOfFuel.
Proof.
  revert s st. induction f as [|f IH]; intros s st Hf; [lia|].
  cbn [decodeLoop]. unfold Read.
  destruct (Z.eqb_spec (len (take 2048 s)) 0) as [E0|E0].
  { rewrite E0. done. }
  assert (Hpos : 0 < len (take 2048 s)) by (unfold len in *; lia).
  rewrite (proj2 (Z.ltb_lt _ _) Hpos).
  assert (Hdrop : (length (drop 2048 s) < f)%nat).
  { rewrite length_drop. destruct s; [done|]. cbn [length] in *. lia. }
  unfold mbind at 1, M_bind at 1.
  match goal with
  | |- context [match ?X with (_, _) => _ end] =>
      destruct X as [[[]|e|p|] st1] eqn:EB; try done
  end.
  - by apply IH.
  - exfalso. revert EB. unfold mbind, M_bind, doDecode.
    pose proof (Decode_fuel (qDec st) (take 2048 s) (qPcm st)) as HE.
    destruct (Decode (qDec st) (take 2048 s) (qPcm st)) as [[[n|e|p|] d1] pcm1];
      try done.
    destruct (0 <? n); [|done].
    intros EB.
    pose proof (storeDecoded_fuel n (mkDecRun d1 pcm1 (qWriter st) (qTotal st))) as HM.
    by rewrite EB in HM.
Qed.

Lemma decodedTotal_enough f (d : Decoder D) pcm s :
  (length s < f)%nat -> decodedTotal f d pcm s <> OutOfFuel.
Proof.
  revert d pcm s. induction f as [|f IH]; intros d pcm s Hf; [lia|].
  cbn [decodedTotal]. unfold Read.
  destruct (Z.eqb_spec (len (take 2048 s)) 0) as [E0|E0]; [done|].
  assert (Hdrop : (length (drop 2048 s) < f)%nat).
  { rewrite length_drop. destruct s; [done|]. cbn [length] in *. lia. }
  pose proof (Decode_fuel d (take 2048 s) pcm) as HD.
  destruct (Decode d (take 2048 s) pcm) as [[[n|e|p|] d1] pcm1]; try done.
  pose proof (IH d1 pcm1 _ Hdrop) as HI.
  unfold mbind, outcome_bind, prefix. repeat case_match; simplify_eq; done.
Qed.

(** [DecodeToWav] comes to a result on every input. *)
Lemma DecodeToWav_terminates s (w : W) : (DecodeToWav (D:=D) s w).1 <> OutOfFuel.
Proof.
  unfold DecodeToWav. set (pcm0 := replicate _ _).
  destruct NewDecoder as [d|e|p|] eqn:EN; try done.
  - destruct (decodeStream s (mkDecRun d pcm0 w 0)) as [o st1] eqn:ES.
    cbn [fst]. intros ->. revert ES. unfold decodeStream, mbind, M_bind.
    pose proof (decodeLoop_enough (S (length s)) s (mkDecRun d pcm0 w 0) ltac:(lia))
      as HL.
    destruct (decodeLoop (S (length s)) s (mkDecRun d pcm0 w 0)) as [[[]|?|?|] st2];
      try done.
    unfold gets, lift, doSeek, putBytes, go_div, mret, M_ret.
    repeat case_match; simplify_eq; done.
  - revert EN. unfold NewDecoder. repeat case_match; simplify_eq; done.
Qed.

(** [EncodeFromWav] comes to a result on every input. *)
Lemma EncodeFromWav_terminates s (w : W) config st :
  dret (EncodeFromWav (H:=H) s w config st) <> OutOfFuel.
Proof.
  pose proof (ParseWavHeader_terminates s) as HP.
  unfold EncodeFromWav.
  destruct (ParseWavHeader s) as [[info rest]|e|p|]; try done.
  destruct (negb _); [done|].
  destruct (config ≫= _) as [cfg|]; [|done]. cbv zeta.
  match goal with
  | |- context [NewEncoder ?c ?st] =>
      assert (HN : (NewEncoder (H:=H) c st).1.1 <> OutOfFuel);
      [|destruct (NewEncoder (H:=H) c st) as [[[enc|e|p|] st'] cs]; try done]
  end.
  { unfold NewEncoder, populateEncConfig.
    assert (HI : forall h c, initParams (H:=H) h c <> OutOfFuel).
    { intros h c. unfold initParams, lame_ok, mbind, outcome_bind.
      repeat case_match; simplify_eq; done. }
    repeat case_match; simplify_eq; try done.
    all: match goal with E : initParams _ _ = OutOfFuel |- _ => by apply HI in E end. }
  pose proof (EstimateOutBufBytes_fuel enc 2048) as HE.
  destruct (EstimateOutBufBytes enc 2048) as [est|e|p|]; try done.
  destruct (est <? 0); [done|].
  match goal with
  | |- context [encodeStream ?r ?s ?st0] =>
      destruct (encodeStream r s st0) as [o st1] eqn:ES
  end.
  cbn [dret]. intros ->. revert ES. unfold encodeStream, mbind, M_bind.
  match goal with
  | |- context [encodeLoop ?f ?s ?st0] =>
      pose proof (encodeLoop_enough f s st0 ltac:(lia)) as HL;
      destruct (encodeLoop f s st0) as [[[]|?|?|] st2]; try done
  end.
  unfold doFlush.
  pose proof (Flush_fuel (rEnc st2) (rOut st2)) as HF.
  destruct (ret (Flush (rEnc st2) (rOut st2))) as [n|?|?|]; try done.
  match goal with
  | |- context [emit n ?st3] =>
      pose proof (emit_fuel n st3) as HM; destruct (emit n st3) as [[[]|?|?|] st4];
      try done
  end.
  unfold gets, lift, GetFrameNum, mret, M_ret. repeat case_match; simplify_eq; done.
Qed.

End Termination.

(** * Further properties *)

(** ** Configuration defaults *)

Lemma EncoderConfig_eq (a b : EncoderConfig) :
  SampleRate a = SampleRate b -> NumChannels a = NumChannels b ->
  Bitrate a = Bitrate b -> Quality a = Quality b ->
  VbrMode a = VbrMode b -> MpegMode a = MpegMode b -> a = b.
Proof. destruct a, b. cbn. congruence. Qed.

(** X1. [populateEncConfig] leaves a configuration the engine setters can
    take: channel count, sample rate and bitrate are non-zero and the
    quality is within 0..9; it changes only the fields that were zero or
    out of range, so applying it twice is applying it once, and a
    configuration that is already valid is returned as it is. *)
Theorem populated_valid c :
  NumChannels (populated c) <> 0
  /\ SampleRate (populated c) <> 0
  /\ Bitrate (populated c) <> 0
  /\ 0 <= Quality (populated c) <= 9
  /\ populated (populated c) = populated c
  /\ (NumChannels c <> 0 -> SampleRate c <> 0 -> Bitrate c <> 0 ->
      0 <= Quality c <= 9 -> populated c = c).
Proof.
  destruct (populated_fields c) as (Pv & Pm & Pb & Pq & Ps & Pn).
  destruct (populated_fields (populated c)) as (Qv & Qm & Qb & Qq & Qs & Qn).
  assert (Hn : NumChannels (populated c) <> 0)
    by (rewrite Pn; destruct (Z.eqb_spec (NumChannels c) 0); lia).
  assert (Hs : SampleRate (populated c) <> 0)
    by (rewrite Ps; destruct (Z.eqb_spec (SampleRate c) 0); lia).
  assert (Hb : Bitrate (populated c) <> 0)
    by (rewrite Pb; destruct (Z.eqb_spec (Bitrate c) 0); lia).
  assert (Hq : 0 <= Quality (populated c) <= 9).
  { rewrite Pq. destruct (Z.ltb_spec (Quality c) 0); cbn [orb]; [lia|].
    destruct (Z.ltb_spec 9 (Quality c)); lia. }
  split_and!; try done; try lia.
  - apply EncoderConfig_eq; try congruence.
    + rewrite Qs. by rewrite (proj2 (Z.eqb_neq _ _) Hs).
    + rewrite Qn. by rewrite (proj2 (Z.eqb_neq _ _) Hn).
    + rewrite Qb. by rewrite (proj2 (Z.eqb_neq _ _) Hb).
    + rewrite Qq. rewrite (proj2 (Z.ltb_ge _ _)), (proj2 (Z.ltb_ge _ _)) by lia. done.
  - intros Hn0 Hs0 Hb0 Hq0. apply EncoderConfig_eq; try done.
    + rewrite Ps. by rewrite (proj2 (Z.eqb_neq _ _) Hs0).
    + rewrite Pn. by rewrite (proj2 (Z.eqb_neq _ _) Hn0).
    + rewrite Pb. by rewrite (proj2 (Z.eqb_neq _ _) Hb0).
    + rewrite Pq. rewrite (proj2 (Z.ltb_ge _ _)), (proj2 (Z.ltb_ge _ _)) by lia. done.
Qed.

Lemma populated_valid_witness :
  let c := mkEncoderConfig 0 1 0 12 0 0 in
  let c' := mkEncoderConfig 22050 1 64 9 0 0 in
  NumChannels (populated c) <> 0
  /\ 0 <= Quality (populated c) <= 9
  /\ populated (populated c) = populated c
  /\ populated c' = c'.
Proof.
  intros c c'.
  destruct (populated_valid c) as (P1 & _ & _ & P4 & P5 & _).
  destruct (populated_valid c') as (_ & _ & _ & _ & _ & P6).
  refine (conj P1 (conj P4 (conj P5 (P6 _ _ _ _)))); cbn; lia.
Defined.

(** X2. [populateEncConfig] writes to one address only: the pointer it is
    given, or for a nil pointer a fresh address, which then holds the
    defaults (2 channels, 44100 Hz, 128 kbps, quality 0). Every
    configuration already in the store is left as it was, and the pointer
    returned is where the defaulted configuration lives. *)
Theorem populateEncConfig_frame (c : option nat) (st : Store) :
  match populateEncConfig c st with
  | (Ok l, st') =>
      (forall l', l' <> l -> st' !! l' = st !! l')
      /\ match c with
         | Some l0 => l = l0 /\ exists cfg, st !! l = Some cfg
                                            /\ st' !! l = Some (populated cfg)
         | None => st !! l = None
                   /\ st' !! l = Some (mkEncoderConfig 44100 2 128 0 0 0)
         end
  | (Panic p, st') => p = NilDereference /\ st' = st /\ exists l, c = Some l /\ st !! l = None
  | _ => False
  end.
Proof.
  unfold populateEncConfig. destruct c as [l|].
  - destruct (st !! l) as [cfg|] eqn:E.
    + split; [intros l' Hne; by rewrite lookup_insert_ne|].
      split; [done|]. exists cfg. by rewrite lookup_insert_eq.
    + split_and!; try done. by exists l.
  - set (l := fresh (dom st)).
    assert (Hl : st !! l = None) by (apply not_elem_of_dom, is_fresh).
    rewrite lookup_insert_eq. split.
    + intros l' Hne. by rewrite !lookup_insert_ne.
    + split; [done|]. by rewrite lookup_insert_eq.
Qed.

Lemma populateEncConfig_frame_witness :
  let st : Store := {[1%nat := zeroConfig; 2%nat := mkEncoderConfig 8000 1 0 0 0 0]} in
  (populateEncConfig (Some 1%nat) st).2 !! 2%nat = st !! 2%nat.
Proof.
  intros st.
  pose proof (populateEncConfig_frame (Some 1%nat) st) as P.
  destruct (populateEncConfig (Some 1%nat) st) as [[l|e|p|] st']; try done.
  - destruct P as [P [-> _]]. cbn [snd]. apply P. lia.
  - destruct P as (_ & _ & l & [= <-] & Hn). vm_compute in Hn. discriminate.
Defined.

(** ** Encoder sessions *)

Section EncoderSessions.
Context {H : Type} `{Lame H}.
Implicit Types enc : Encoder H.

Lemma initParams_frameSize h c h' fs :
  initParams h c = Ok (h', fs) -> 0 <= fs.
Proof.
  unfold initParams, lame_ok, mbind, outcome_bind.
  repeat case_match; simplify_eq; try done.
  all: intros [= <- <-]; lia.
Qed.

(** X3. [NewEncoder] never leaks the engine handle: it either returns an
    encoder after the single call of [lame_init] (with a handle, an empty
    carry-over, a non-zero channel count and a frame size that is not
    negative), or, when an engine setter refuses, an error after having
    closed the handle it had obtained; without a handle it fails with the
    initialisation error and the configuration is not touched. *)
Theorem NewEncoder_handle (l : nat) (st : Store) cfg :
  st !! l = Some cfg ->
  match NewEncoder (H:=H) (Some l) st with
  | (Ok enc, st', cs) =>
      cs = [CallInit] /\ handle enc <> None /\ remainData enc = []
      /\ encNumChannels enc = NumChannels (populated cfg)
      /\ encNumChannels enc <> 0 /\ 0 <= FrameSize enc
  | (Fail e, st', cs) =>
      (lame_init (H:=H) = None /\ e = ErrLameInit /\ cs = [CallInit] /\ st' = st)
      \/ (lame_init (H:=H) <> None /\ cs = [CallInit; CallClose])
  | _ => False
  end.
Proof.
  intros Hl. unfold NewEncoder. destruct lame_init as [h|] eqn:EI.
  2: { left. done. }
  unfold populateEncConfig. rewrite Hl, lookup_insert_eq.
  destruct (initParams h (populated cfg)) as [[h' fs]|e|p|] eqn:EP.
  - cbn [mbind option_bind]. rewrite lookup_insert_eq.
    cbn [handle remainData encNumChannels FrameSize].
    split_and!; try done.
    + destruct (populated_fields cfg) as (_ & _ & _ & _ & _ & ->).
      destruct (Z.eqb_spec (NumChannels cfg) 0); lia.
    + by eapply initParams_frameSize.
  - right. done.
  - revert EP. unfold initParams, lame_ok, mbind, outcome_bind.
    repeat case_match; simplify_eq; done.
  - revert EP. unfold initParams, lame_ok, mbind, outcome_bind.
    repeat case_match; simplify_eq; done.
Qed.

(** X4. Neither [Encode] nor [Flush] ever changes the channel count or the
    frame size of a session or drops its handle, and [Flush] never touches
    the carry-over: bytes short of a whole sample frame stay in the
    session and are not handed to the engine by [Flush]. *)
Theorem Encode_Flush_preserve enc in_ out :
  encNumChannels (encAfter (Encode enc in_ out)) = encNumChannels enc
  /\ FrameSize (encAfter (Encode enc in_ out)) = FrameSize enc
  /\ (handle enc <> None -> handle (encAfter (Encode enc in_ out)) <> None)
  /\ encNumChannels (encAfter (Flush enc out)) = encNumChannels enc
  /\ FrameSize (encAfter (Flush enc out)) = FrameSize enc
  /\ (handle enc <> None -> handle (encAfter (Flush enc out)) <> None)
  /\ remainData (encAfter (Flush enc out)) = remainData enc
  /\ fedBytes (calls (Flush enc out)) = [].
Proof.
  assert (HE : encNumChannels (encAfter (Encode enc in_ out)) = encNumChannels enc
               /\ FrameSize (encAfter (Encode enc in_ out)) = FrameSize enc
               /\ (handle enc <> None -> handle (encAfter (Encode enc in_ out)) <> None)).
  { unfold Encode, go_mod. repeat case_match; simplify_eq; cbn; done. }
  assert (HF : encNumChannels (encAfter (Flush enc out)) = encNumChannels enc
               /\ FrameSize (encAfter (Flush enc out)) = FrameSize enc
               /\ (handle enc <> None -> handle (encAfter (Flush enc out)) <> None)
               /\ remainData (encAfter (Flush enc out)) = remainData enc
               /\ fedBytes (calls (Flush enc out)) = []).
  { unfold Flush. repeat case_match; simplify_eq; cbn; done. }
  destruct HE as (? & ? & ?), HF as (? & ? & ? & ? & ?). by split_and!.
Qed.


(** X6. Within the lengths a slice can have the estimate grows with the
    input length and is never below 7201, so an output buffer sized for a
    chunk size is large enough for every shorter chunk and for [Flush]. *)
Theorem EstimateOutBufBytes_monotone enc n n' :
  1 <= encNumChannels enc < 2 ^ 59 -> 0 <= n <= n' -> n' < 2 ^ 48 ->
  exists est est',
    EstimateOutBufBytes enc n = Ok est /\ EstimateOutBufBytes enc n' = Ok est'
    /\ 7201 <= est <= est'.
Proof.
  intros Hc Hn Hn'.
  set (w := encNumChannels enc * 2).
  assert (Hdiv : 0 <= n / w <= n' / w).
  { split; [apply Z.div_pos; lia|]. apply Z.div_le_mono; lia. }
  assert (Hup : n' / w <= n') by (apply Z.div_le_upper_bound; nia).
  eexists _, _. split_and!.
  - apply EstimateOutBufBytes_exact; fold w; lia.
  - apply EstimateOutBufBytes_exact; fold w; lia.
  - fold w. assert (1 <= 5 * (n / w + 1) / 4) by (apply Z.div_le_lower_bound; lia). lia.
  - fold w. apply Z.add_le_mono_r, Z.div_le_mono; lia.
Qed.

End EncoderSessions.

Lemma NewEncoder_handle_witness :
  let H := constLame 0 in
  match NewEncoder (Some 3%nat) {[3%nat := mkEncoderConfig 0 0 0 11 0 0]} with
  | (Ok enc, st', cs) =>
      cs = [CallInit] /\ handle enc <> None /\ remainData enc = []
      /\ encNumChannels enc = NumChannels (populated (mkEncoderConfig 0 0 0 11 0 0))
      /\ encNumChannels enc <> 0 /\ 0 <= FrameSize enc
  | (Fail e, st', cs) =>
      (lame_init = None /\ e = ErrLameInit /\ cs = [CallInit]
       /\ st' = {[3%nat := mkEncoderConfig 0 0 0 11 0 0]})
      \/ (lame_init <> None /\ cs = [CallInit; CallClose])
  | _ => False
  end.
Proof.
  intros H.
  apply (NewEncoder_handle 3%nat {[3%nat := mkEncoderConfig 0 0 0 11 0 0]}
           (mkEncoderConfig 0 0 0 11 0 0)).
  apply lookup_singleton_eq.
Defined.

Lemma Encode_Flush_preserve_witness :
  let H := constLame 0 in
  let enc := mkEncoder (Some tt) [Byte.x01] 2 1152 in
  let out := replicate (Z.to_nat 7300) Byte.x00 in
  handle (encAfter (Encode enc [Byte.x02; Byte.x03; Byte.x04] out)) <> None
  /\ handle (encAfter (Flush enc out)) <> None
  /\ remainData (encAfter (Flush enc out)) = [Byte.x01].
Proof.
  intros H enc out.
  destruct (Encode_Flush_preserve enc [Byte.x02; Byte.x03; Byte.x04] out)
    as (_ & _ & P3 & _ & _ & P6 & P7 & _).
  split_and!; [apply P3; discriminate | apply P6; discriminate | exact P7].
Defined.


Lemma EstimateOutBufBytes_monotone_witness :
  exists est est',
    EstimateOutBufBytes (mkEncoder (@None unit) [] 2 1152) 100 = Ok est
    /\ EstimateOutBufBytes (mkEncoder (@None unit) [] 2 1152) 2048 = Ok est'
    /\ 7201 <= est <= est'.
Proof.
  apply (EstimateOutBufBytes_monotone (mkEncoder (@None unit) [] 2 1152) 100 2048);
    cbn; lia.
Defined.

(** ** More on the WAV container *)

Lemma Uint16_range b : 0 <= LittleEndian.Uint16 b < 2 ^ 16.
Proof.
  destruct b as [|b0 [|b1 t]]; try (cbn; lia).
  cbn [LittleEndian.Uint16].
  pose proof (Z_of_byte_range b0). pose proof (Z_of_byte_range b1).
  rewrite lor_shiftl_add by lia. lia.
Qed.

Lemma Uint32_range b : 0 <= LittleEndian.Uint32 b < 2 ^ 32.
Proof.
  destruct b as [|b0 [|b1 [|b2 [|b3 t]]]]; try (cbn; lia).
  cbn [LittleEndian.Uint32].
  pose proof (Z_of_byte_range b0). pose proof (Z_of_byte_range b1).
  pose proof (Z_of_byte_range b2). pose proof (Z_of_byte_range b3).
  rewrite (lor_shiftl_add _ _ 8) by lia.
  rewrite (lor_shiftl_add _ _ 16) by lia.
  rewrite (lor_shiftl_add _ _ 24) by lia. lia.
Qed.

(** X7. The header [GenerateWavHeader] builds carries, at their fixed
    offsets, the tags "RIFF", "WAVE", "fmt " and "data", a RIFF size of 36
    plus the payload size, a fmt size of 16, the PCM format code 1, and
    the derived byte rate [rate * channels * bits / 8] and block align
    [channels * bits / 8], cut to their 32 and 16 bits. *)
Theorem GenerateWavHeader_fields pcm rate ch bits :
  0 <= pcm < 2 ^ 32 - 36 -> 0 <= rate -> 0 <= ch -> 0 <= bits ->
  rate * ch * bits < 2 ^ 63 -> ch * bits < 2 ^ 63 ->
  let h := GenerateWavHeader pcm rate ch bits in
  slice 0 4 h = tag_RIFF
  /\ LittleEndian.Uint32 (slice 4 8 h) = 36 + pcm
  /\ slice 8 12 h = tag_WAVE
  /\ slice 12 16 h = tag_fmt
  /\ LittleEndian.Uint32 (slice 16 20 h) = 16
  /\ LittleEndian.Uint16 (slice 20 22 h) = 1
  /\ LittleEndian.Uint32 (slice 28 32 h) = (rate * ch * bits / 8) mod 2 ^ 32
  /\ LittleEndian.Uint16 (slice 32 34 h) = (ch * bits / 8) mod 2 ^ 16
  /\ slice 36 40 h = tag_data.
Proof.
  intros Hp Hr Hc Hb Hprod Hprod2 h. subst h.
  assert (E4 : slice 4 8 (GenerateWavHeader pcm rate ch bits)
               = LittleEndian.PutUint32 (uint32 (wrap64 (36 + pcm)))) by reflexivity.
  assert (E28 : slice 28 32 (GenerateWavHeader pcm rate ch bits)
                = LittleEndian.PutUint32
                    (uint32 (wrap64 (Z.quot (wrap64 (wrap64 (rate * ch) * bits)) 8))))
    by reflexivity.
  assert (E32 : slice 32 34 (GenerateWavHeader pcm rate ch bits)
                = LittleEndian.PutUint16
                    (uint16 (wrap64 (Z.quot (wrap64 (ch * bits)) 8))))
    by reflexivity.
  rewrite E4, E28, E32.
  assert (Hbr : wrap64 (Z.quot (wrap64 (wrap64 (rate * ch) * bits)) 8)
                = rate * ch * bits / 8).
  { assert (Hin : wrap64 (wrap64 (rate * ch) * bits) = rate * ch * bits).
    { destruct (Z.eq_dec bits 0) as [->|Hb0].
      - by rewrite !Z.mul_0_r.
      - rewrite (wrap64_small (rate * ch)) by nia. apply wrap64_small. nia. }
    rewrite Hin, Z.quot_div_nonneg by nia.
    apply wrap64_small. split; [|apply Z.div_lt_upper_bound; nia].
    assert (0 <= rate * ch * bits / 8) by (apply Z.div_pos; nia). lia. }
  assert (Hba : wrap64 (Z.quot (wrap64 (ch * bits)) 8) = ch * bits / 8).
  { rewrite (wrap64_small (ch * bits)) by nia. rewrite Z.quot_div_nonneg by nia.
    apply wrap64_small. split; [|apply Z.div_lt_upper_bound; nia].
    assert (0 <= ch * bits / 8) by (apply Z.div_pos; nia). lia. }
  rewrite Hbr, Hba, (wrap64_small (36 + pcm)) by lia.
  unfold uint32, uint16. rewrite (Z.mod_small (36 + pcm)) by lia.
  rewrite <- (app_nil_r (LittleEndian.PutUint32 (36 + pcm))),
          <- (app_nil_r (LittleEndian.PutUint32 (_ mod _))),
          <- (app_nil_r (LittleEndian.PutUint16 (_ mod _))).
  rewrite !Uint32_PutUint32, Uint16_PutUint16
    by (try apply Z.mod_pos_bound; lia).
  split_and!; reflexivity.
Qed.

Lemma GenerateWavHeader_fields_witness :
  let h := GenerateWavHeader 88200 44100 2 16 in
  slice 0 4 h = tag_RIFF
  /\ LittleEndian.Uint32 (slice 4 8 h) = 36 + 88200
  /\ slice 8 12 h = tag_WAVE
  /\ slice 12 16 h = tag_fmt
  /\ LittleEndian.Uint32 (slice 16 20 h) = 16
  /\ LittleEndian.Uint16 (slice 20 22 h) = 1
  /\ LittleEndian.Uint32 (slice 28 32 h) = (44100 * 2 * 16 / 8) mod 2 ^ 32
  /\ LittleEndian.Uint16 (slice 32 34 h) = (2 * 16 / 8) mod 2 ^ 16
  /\ slice 36 40 h = tag_data.
Proof.
  apply (GenerateWavHeader_fields 88200 44100 2 16); lia.
Defined.

(** The chunk loop reads a prefix of the stream and nothing behind it. *)
Lemma scanChunks_prefix f st s info rest :
  scanChunks f st s = Ok (info, rest) ->
  exists pre, s = pre ++ rest
              /\ (8 <= length pre)%nat
              /\ forall t, scanChunks f st (pre ++ t) = Ok (info, t).
Proof.
  revert st s. induction f as [|f IH]; intros st s; [done|].
  destruct (Nat.lt_ge_cases (length s) 8) as [Hs|Hs].
  { cbn [scanChunks]. by rewrite ReadFull_short. }
  destruct (split_chunk_header s Hs) as (tag & szb & s1 & -> & Ht & Hz).
  rewrite scanChunks_step by done. cbv zeta.
  destruct (bool_decide (tag = tag_fmt)) eqn:Efmt.
  - destruct (LittleEndian.Uint32 szb <? 16) eqn:Esz; [done|].
    destruct (ReadFull _ s1) as [[body s2]|] eqn:ER; [|done].
    apply ReadFull_Some in ER as [-> Hb].
    destruct (negb _) eqn:Eaf; [done|].
    intros Hrec. destruct (IH _ _ Hrec) as (pre2 & -> & _ & Hpre2).
    exists (tag ++ szb ++ body ++ pre2). split_and!.
    + by rewrite <- !app_assoc.
    + rewrite !length_app. lia.
    + intros t. rewrite <- !app_assoc. rewrite scanChunks_step by done.
      cbv zeta. rewrite Efmt, Esz, ReadFull_app by done. rewrite Eaf. apply Hpre2.
  - destruct (bool_decide (tag = tag_data)) eqn:Edata.
    + destruct (negb (fmtChunkFound st)) eqn:Eseen; [done|].
      intros [= <- <-]. exists (tag ++ szb). split_and!.
      * by rewrite <- app_assoc.
      * rewrite length_app. lia.
      * intros t. rewrite <- app_assoc. rewrite scanChunks_step by done.
        cbv zeta. by rewrite Efmt, Edata, Eseen.
    + destruct (Discard _ s1) as [s2|] eqn:ED; [|done].
      apply Discard_Some in ED as (body & -> & Hb).
      intros Hrec. destruct (IH _ _ Hrec) as (pre2 & -> & _ & Hpre2).
      exists (tag ++ szb ++ body ++ pre2). split_and!.
      * by rewrite <- !app_assoc.
      * rewrite !length_app. lia.
      * intros t. rewrite <- !app_assoc. rewrite scanChunks_step by done.
        cbv zeta. rewrite Efmt, Edata, Discard_app by done. apply Hpre2.
Qed.

(** X8. A successful [ParseWavHeader] has read a prefix of the stream (at
    least the twelve bytes of the prologue and the eight of the data chunk
    header) and left the rest: the result does not depend on anything
    behind the data chunk header, whatever payload or trailer follows
    is handed back untouched as the stream position. *)
Theorem ParseWavHeader_reads_prefix s info rest :
  ParseWavHeader s = Ok (info, rest) ->
  exists pre, s = pre ++ rest
              /\ (20 <= length pre)%nat
              /\ forall t, ParseWavHeader (pre ++ t) = Ok (info, t).
Proof.
  unfold ParseWavHeader.
  destruct (ReadFull 12 s) as [[riff s1]|] eqn:ER; [|done].
  apply ReadFull_Some in ER as [-> Hr].
  destruct (_ || _) eqn:Etags; [done|].
  intros Hscan. destruct (scanChunks_prefix _ _ _ _ _ Hscan) as (pre & -> & Hlen & Hpre).
  exists (riff ++ pre). split_and!.
  - by rewrite <- app_assoc.
  - rewrite length_app. lia.
  - intros t. rewrite <- app_assoc, ReadFull_app by done. rewrite Etags.
    specialize (Hpre t).
    destruct (Nat.le_gt_cases (S (length (pre ++ rest))) (S (length (pre ++ t)))).
    + rewrite <- Hpre. apply scanChunks_mono; [done|]. by rewrite Hpre.
    + rewrite <- Hpre. symmetry. apply scanChunks_fuel. lia.
Qed.

Lemma ParseWavHeader_reads_prefix_witness :
  exists pre,
    GenerateWavHeader 4 8000 1 16 ++ list_byte_of_string "abcdLIST"
    = pre ++ list_byte_of_string "abcdLIST"
    /\ (20 <= length pre)%nat
    /\ forall t, ParseWavHeader (pre ++ t) = Ok (mkWavInfo 4 8000 1 16, t).
Proof.
  apply (ParseWavHeader_reads_prefix
           (GenerateWavHeader 4 8000 1 16 ++ list_byte_of_string "abcdLIST")).
  reflexivity.
Defined.

Lemma scanChunks_ranges f st s info rest :
  0 <= scSampleRate st < 2 ^ 32 -> 0 <= scNumChannels st < 2 ^ 16 ->
  0 <= scBitsPerSample st < 2 ^ 16 ->
  scanChunks f st s = Ok (info, rest) ->
  0 <= pcmSize info < 2 ^ 32 /\ 0 <= sampleRate info < 2 ^ 32
  /\ 0 <= numChannels info < 2 ^ 16 /\ 0 <= bitsPerSample info < 2 ^ 16.
Proof.
  revert st s. induction f as [|f IH]; intros st s H1 H2 H3; [done|].
  cbn [scanChunks].
  destruct (ReadFull 8 s) as [[hdr s1]|]; [|done].
  repeat case_match; try done.
  - apply IH; cbn; (apply Uint32_range || apply Uint16_range).
  - intros [= <- <-]. cbn. split_and!; try lia; apply Uint32_range.
  - by apply IH.
Qed.

(** X9. Whatever the stream holds, the values a successful
    [ParseWavHeader] returns are those of unsigned header fields: payload
    size and sample rate lie in [0, 2^32), channel count and bit depth in
    [0, 2^16); none of them is ever negative. *)
Theorem ParseWavHeader_ranges s info rest :
  ParseWavHeader s = Ok (info, rest) ->
  0 <= pcmSize info < 2 ^ 32 /\ 0 <= sampleRate info < 2 ^ 32
  /\ 0 <= numChannels info < 2 ^ 16 /\ 0 <= bitsPerSample info < 2 ^ 16.
Proof.
  unfold ParseWavHeader.
  destruct (ReadFull 12 s) as [[riff s1]|]; [|done].
  destruct (_ || _); [done|].
  apply scanChunks_ranges; cbn; lia.
Qed.

Lemma ParseWavHeader_ranges_witness :
  0 <= pcmSize (mkWavInfo 4 8000 1 16) < 2 ^ 32
  /\ 0 <= sampleRate (mkWavInfo 4 8000 1 16) < 2 ^ 32
  /\ 0 <= numChannels (mkWavInfo 4 8000 1 16) < 2 ^ 16
  /\ 0 <= bitsPerSample (mkWavInfo 4 8000 1 16) < 2 ^ 16.
Proof.
  apply (ParseWavHeader_ranges (GenerateWavHeader 4 8000 1 16) _ []).
  reflexivity.
Defined.

(** ** The decoder session *)

Section DecoderFacts.
Context {D : Type} `{Mpg123 D}.

(** X10. Once a decoder has a sample rate, [Decode] never asks the engine
    for the format again: sample rate, channel count and bit depth stay as
    first discovered, whatever the engine decodes afterwards. A call
    refused for an empty input or a short output buffer changes neither
    the decoder nor the buffer. *)
Theorem Decode_keeps_format (d : Decoder D) in_ out :
  (decSampleRate d <> 0 ->
   decSampleRate (Decode d in_ out).1.2 = decSampleRate d
   /\ decNumChannels (Decode d in_ out).1.2 = decNumChannels d
   /\ decSampleBitDepth (Decode d in_ out).1.2 = decSampleBitDepth d)
  /\ (len in_ = 0 \/ len out < 184320 ->
      exists e, Decode d in_ out = (Fail e, d, out)).
Proof.
  split.
  - intros Hr. unfold Decode.
    destruct (len in_ =? 0); [done|].
    destruct (len out <? DecEstimateOutBufBytes); [done|].
    destruct (decHandle d) as [h|]; [|done].
    destruct (mpg123_DecodeWrapped _ _ _ _ _) as [[[errNo n] out'] h'].
    destruct (negb (errNo =? MPG123_OK)); [done|].
    cbn [decSampleRate]. rewrite (proj2 (Z.eqb_neq _ _) Hr). done.
  - intros [E|E]; unfold Decode.
    + rewrite E. by eexists.
    + destruct (len in_ =? 0); [by eexists|].
      change DecEstimateOutBufBytes with 184320.
      rewrite (proj2 (Z.ltb_lt _ _) E). by eexists.
Qed.

(** X11. The first [Decode] of a decoder without a format that yields
    bytes takes sample rate and channel count from the engine and a bit
    depth of 8, 16, 24 or 32; any other encoding makes the call fail, so
    a call that returns bytes never leaves the depth outside these four. *)
Theorem Decode_discovers_format (d d' : Decoder D) in_ out out' n :
  decSampleRate d = 0 ->
  Decode d in_ out = (Ok n, d', out') -> 0 < n ->
  exists h rate ch enc,
    decHandle d' = Some h
    /\ mpg123_getformat h = (MPG123_OK, (rate, ch, enc))
    /\ decSampleRate d' = rate /\ decNumChannels d' = ch
    /\ (decSampleBitDepth d' = 8 \/ decSampleBitDepth d' = 16
        \/ decSampleBitDepth d' = 24 \/ decSampleBitDepth d' = 32).
Proof.
  intros Hr. unfold Decode.
  destruct (len in_ =? 0); [done|].
  destruct (len out <? DecEstimateOutBufBytes); [done|].
  destruct (decHandle d) as [h|]; [|done].
  destruct (mpg123_DecodeWrapped _ _ _ _ _) as [[[errNo m] o] h'].
  destruct (negb (errNo =? MPG123_OK)); [done|].
  cbn [decSampleRate]. rewrite Hr. change (0 =? 0) with true. cbn [andb].
  destruct (Z.ltb_spec 0 m) as [Hm|Hm].
  - unfold getFormat. cbn [decHandle decSampleRate decNumChannels decSampleBitDepth].
    destruct (mpg123_getformat h') as [e [[rate ch] enc]] eqn:EF.
    destruct (Z.eqb_spec e MPG123_OK) as [->|]; cbn [negb]; [|done].
    repeat case_match; simplify_eq; intros [= <- <- <-] _;
      exists h', rate, ch, enc; cbn; split_and!; auto.
  - intros [= <- <- <-] Hn. lia.
Qed.

End DecoderFacts.

Lemma Decode_keeps_format_witness :
  let M := constMpg123 4 in
  let d := mkDecoder (Some tt) 8000 1 8 in
  let pcm0 := replicate (Z.to_nat DecEstimateOutBufBytes) Byte.x00 in
  (Decode d [Byte.xff] pcm0).1.1 = Ok 4
  /\ mpg123_getformat tt = (0, (44100, 2, 208))
  /\ (decSampleRate (Decode d [Byte.xff] pcm0).1.2 = 8000
      /\ decNumChannels (Decode d [Byte.xff] pcm0).1.2 = 1
      /\ decSampleBitDepth (Decode d [Byte.xff] pcm0).1.2 = 8)
  /\ exists e, Decode d [Byte.xff] [] = (Fail e, d, []).
Proof.
  intros M d pcm0.
  split; [vm_compute; reflexivity|]. split; [reflexivity|].
  split.
  - apply (proj1 (Decode_keeps_format d [Byte.xff] pcm0)). discriminate.
  - apply (proj2 (Decode_keeps_format d [Byte.xff] [])). right. reflexivity.
Defined.

Lemma Decode_discovers_format_witness :
  let M := constMpg123 4 in
  exists h rate ch enc,
    decHandle (mkDecoder (Some tt) 44100 2 16) = Some h
    /\ mpg123_getformat h = (MPG123_OK, (rate, ch, enc))
    /\ decSampleRate (mkDecoder (Some tt) 44100 2 16) = rate
    /\ decNumChannels (mkDecoder (Some tt) 44100 2 16) = ch
    /\ (decSampleBitDepth (mkDecoder (Some tt) 44100 2 16) = 8
        \/ decSampleBitDepth (mkDecoder (Some tt) 44100 2 16) = 16
        \/ decSampleBitDepth (mkDecoder (Some tt) 44100 2 16) = 24
        \/ decSampleBitDepth (mkDecoder (Some tt) 44100 2 16) = 32).
Proof.
  intros M.
  set (pcm0 := replicate (Z.to_nat DecEstimateOutBufBytes) Byte.x00).
  assert (H1 : (Decode (mkDecoder (Some tt) 0 0 0) [Byte.xff] pcm0).1
               = (Ok 4, mkDecoder (Some tt) 44100 2 16))
    by (vm_compute; reflexivity).
  destruct (Decode (mkDecoder (Some tt) 0 0 0) [Byte.xff] pcm0) as [[r d'] o'] eqn:E.
  cbn [fst] in H1. injection H1 as -> ->.
  exact (Decode_discovers_format (mkDecoder (Some tt) 0 0 0) _ _ _ _ _ eq_refl E eq_refl).
Defined.

(** ** What EncodeFromWav hands to the engine *)

Section EncodeFromWavRun.
Context {H W : Type} `{Lame H} `{Writer W}.

Lemma Encode_Ok_accepted (enc : Encoder H) in_ out n :
  1 <= encNumChannels enc < 2 ^ 59 -> len in_ < 2 ^ 48 ->
  ret (Encode enc in_ out) = Ok n -> accepted enc (in_, out) = true.
Proof.
  intros Hc Hn. unfold accepted. cbn [fst snd].
  destruct (EstimateOutBufBytes_slice enc (len in_) Hc) as (est & Hest & _);
    [unfold len in *; lia|].
  unfold Encode. rewrite Hest.
  destruct (len in_ =? 0); [done|]. destruct (len out <? est); done.
Qed.

Lemma Encode_calls (enc : Encoder H) in_ out :
  Forall (fun c => isEncodeCall c = true) (calls (Encode enc in_ out)).
Proof.
  unfold Encode, go_mod. repeat case_match; simplify_eq; cbn [calls];
    by repeat constructor.
Qed.

Lemma Flush_Ok (enc : Encoder H) out n :
  ret (Flush enc out) = Ok n ->
  exists k, calls (Flush enc out) = [CallFlush k]
            /\ remainData (encAfter (Flush enc out)) = remainData enc
            /\ handle (encAfter (Flush enc out)) <> None.
Proof.
  unfold Flush. repeat case_match; simplify_eq; cbn; try done.
  intros _. by eexists.
Qed.

Lemma emit_keeps n (st st' : EncRun H W) r :
  emit n st = (r, st') -> rEnc st' = rEnc st /\ rCalls st' = rCalls st.
Proof.
  unfold emit, mbind, M_bind, modify, gets, lift, prefix, doWrite, mret, M_ret.
  repeat case_match; simplify_eq; cbn; intros; simplify_eq; done.
Qed.

(** The read loop hands every byte of the stream to [Encode], in order,
    and with one or two channels every sample count covers its slice. *)
Lemma encodeLoop_stream f s (st st' : EncRun H W) :
  live (rEnc st) ->
  encNumChannels (rEnc st) = 1 \/ encNumChannels (rEnc st) = 2 ->
  encodeLoop f s st = (Ok tt, st') ->
  live (rEnc st')
  /\ encNumChannels (rEnc st') = encNumChannels (rEnc st)
  /\ exists log,
       rCalls st' = rCalls st ++ log
       /\ Forall (fun c => isEncodeCall c = true /\ handed c = fed c
                           /\ len (fed c) mod (encNumChannels (rEnc st) * 2) = 0) log
       /\ fedBytes log ++ remainData (rEnc st') = remainData (rEnc st) ++ s.
Proof.
  revert s st. induction f as [|f IH]; intros s st Hl Hch; [done|].
  cbn [encodeLoop]. unfold Read.
  destruct (Z.eqb_spec (len (take 2048 s)) 0) as [E0|E0].
  { rewrite E0. cbn. intros [= <-]. split_and!; try done.
    exists []. rewrite app_nil_r. split_and!; try done.
    assert (s = []) as ->; [|by rewrite app_nil_r].
    destruct s; [done|]. unfold len in E0. cbn in E0. lia. }
  assert (Hpos : 0 < len (take 2048 s)) by (unfold len in *; lia).
  rewrite (proj2 (Z.ltb_lt _ _) Hpos).
  unfold mbind at 1, M_bind at 1.
  match goal with
  | |- context [match ?X with (_, _) => _ end] =>
      destruct X as [[[]|e|p|] st1] eqn:EB; try done
  end.
  revert EB. unfold mbind, M_bind, doEncode.
  set (r := Encode (rEnc st) (take 2048 s) (rOut st)).
  destruct (ret r) as [n|e|p|] eqn:ER; try done.
  intros EM. apply emit_keeps in EM as [Henc Hcalls].
  cbn [rEnc rCalls] in Henc, Hcalls.
  assert (Hn0 : len (take 2048 s) <= 2048).
  { unfold len. rewrite length_take. lia. }
  assert (Hn : len (take 2048 s) < 2 ^ 48) by lia.
  assert (Hn31 : len (take 2048 s) <= (2 ^ 31 - 1) * (encNumChannels (rEnc st) * 2))
    by (destruct Hch as [E|E]; rewrite E; lia).
  pose proof Hl as (Hc & _ & _).
  pose proof (Encode_Ok_accepted (rEnc st) (take 2048 s) (rOut st) n Hc Hn ER) as Hacc.
  destruct (Encode_frames (rEnc st) (take 2048 s) (rOut st) Hl Hn Hacc) as (Hs & _ & _ & Hch1 & _ & Hf).
  pose proof (Encode_handed (rEnc st) (take 2048 s) (rOut st) Hl Hch Hn31 Hacc) as Hhd.
  destruct (Encode_keeps_live (rEnc st) (take 2048 s) (rOut st) Hl Hn) as [Hl1 _].
  cbv zeta in Hs, Hch1, Hf. fold r in Hs, Hch1, Hf, Hl1, Hhd.
  intros EL. apply IH in EL; [|by rewrite Henc|by rewrite Henc, Hch1].
  destruct EL as (Hl' & Hc' & log & Hlog & Hall & Hfed).
  rewrite Henc, Hch1 in Hc'. rewrite Henc in Hfed. rewrite Henc, Hch1 in Hall.
  split_and!; try done.
  exists (calls r ++ log). split_and!.
  - by rewrite Hlog, Hcalls, app_assoc.
  - apply Forall_app. split; [|done].
    pose proof (Encode_calls (rEnc st) (take 2048 s) (rOut st)) as Hk. fold r in Hk.
    rewrite Forall_forall in Hk, Hf, Hhd |- *. intros c Hin.
    split_and!; [by apply Hk | by apply Hhd | by apply Hf].
  - unfold fedBytes in *. rewrite map_app, concat_app, <- app_assoc, Hfed.
    rewrite app_assoc, Hs, <- app_assoc. by rewrite take_drop.
Qed.

Lemma NewEncoder_Ok l (st st' : Store) cfg (enc : Encoder H) cs :
  st !! l = Some cfg -> NewEncoder (Some l) st = (Ok enc, st', cs) ->
  cs = [CallInit] /\ handle enc <> None /\ remainData enc = []
  /\ encNumChannels enc = NumChannels (populated cfg).
Proof.
  intros Hl. unfold NewEncoder. destruct lame_init as [h|]; [|done].
  unfold populateEncConfig. rewrite Hl, lookup_insert_eq.
  destruct (initParams h (populated cfg)) as [[h' fs]|e|p|]; try done.
  cbn [mbind option_bind]. rewrite lookup_insert_eq. by intros [= <- _ <-].
Qed.

Lemma encodeStream_Ok rate s (st st' : EncRun H W) res :
  encodeStream rate s st = (Ok res, st') ->
  exists st1 k,
    encodeLoop (S (length s)) s st = (Ok tt, st1)
    /\ rCalls st' = rCalls st1 ++ [CallFlush k]
    /\ remainData (rEnc st') = remainData (rEnc st1)
    /\ handle (rEnc st') <> None
    /\ res.2 = rate.
Proof.
  unfold encodeStream. unfold mbind at 1, M_bind at 1.
  destruct (encodeLoop (S (length s)) s st) as [[[]|e|p|] st1]; try done.
  unfold mbind at 1, M_bind at 1, doFlush.
  destruct (ret (Flush (rEnc st1) (rOut st1))) as [n|e|p|] eqn:EF; try done.
  destruct (Flush_Ok _ _ _ EF) as (k & Hk & Hrd & Hh).
  unfold mbind at 1, M_bind at 1.
  match goal with
  | |- context [emit n ?st3] => destruct (emit n st3) as [[[]|?|?|] st4] eqn:EM; try done
  end.
  apply emit_keeps in EM as [Henc Hcalls]. cbn [rEnc rCalls] in Henc, Hcalls.
  unfold mbind, M_bind, gets, lift, GetFrameNum, mret, M_ret.
  repeat case_match; simplify_eq; try done.
  intros [= <- <-]. exists st1, k. rewrite Hcalls, Hk, Henc. by split_and!.
Qed.

(** X12. A successful [EncodeFromWav] on a stream whose header announces
    at most two channels opens, feeds, flushes and closes the engine in
    this order: [lame_init], then encode calls only, one flush and one
    close at the end. The bytes the encode calls tell the engine to read,
    in order, are the PCM window of the data chunk (at most [pcmSize]
    bytes after the header) cut into whole sample frames of two bytes per
    channel (a channel count of zero in the header counts as two): every
    sample count covers its buffer. What is left at the end, less than
    one frame, is never handed to the engine. The sample rate reported is
    the one of the header. *)
Theorem EncodeFromWav_feeds_payload wavStream (writer : W) l (st : Store) cfg
    info rest res :
  st !! l = Some cfg ->
  ParseWavHeader wavStream = Ok (info, rest) ->
  numChannels info <= 2 ->
  dret (EncodeFromWav (H:=H) wavStream writer (Some l) st) = Ok res ->
  let fw := (if numChannels info =? 0 then 2 else numChannels info) * 2 in
  exists log szOut tail,
    dcalls (EncodeFromWav (H:=H) wavStream writer (Some l) st)
    = CallInit :: log ++ [CallFlush szOut; CallClose]
    /\ Forall (fun c => isEncodeCall c = true /\ len (handed c) mod fw = 0) log
    /\ handedBytes log ++ tail = take (Z.to_nat (pcmSize info)) rest
    /\ len tail < fw
    /\ res.2 = sampleRate info.
Proof.
  intros Hl Hp Hle.
  assert (Hch : 0 <= numChannels info < 2 ^ 16).
  { revert Hp. unfold ParseWavHeader.
    destruct (ReadFull 12 wavStream) as [[riff s1]|]; [|done].
    destruct (_ || _); [done|].
    intros Hs. apply scanChunks_ranges in Hs; cbn; lia. }
  unfold EncodeFromWav. rewrite Hp.
  destruct (negb _); [done|].
  cbn [mbind option_bind]. rewrite Hl. cbv zeta.
  set (cfg1 := setNumChannels _ _). set (st1 := <[l := cfg1]> st).
  set (window := take (Z.to_nat (pcmSize info)) rest).
  destruct (NewEncoder (Some l) st1) as [[[enc|e|p|] st2] cs] eqn:EN; try done.
  destruct (NewEncoder_Ok l st1 st2 cfg1 enc cs (lookup_insert_eq _ _ _) EN)
    as (-> & Hh & Hrd & Hnc).
  destruct (EstimateOutBufBytes enc 2048) as [est|e|p|]; try done.
  destruct (est <? 0); [done|].
  destruct (encodeStream _ _ _) as [r s] eqn:ES. cbn [dret dcalls].
  intros ->.
  destruct (encodeStream_Ok _ _ _ _ _ ES) as (s1 & k & EL & Hcalls & Hrd' & Hh' & Hrate).
  assert (Hnc' : encNumChannels enc = if numChannels info =? 0 then 2 else numChannels info).
  { rewrite Hnc. by destruct (populated_fields cfg1) as (_ & _ & _ & _ & _ & ->). }
  assert (H12 : encNumChannels enc = 1 \/ encNumChannels enc = 2).
  { rewrite Hnc'. destruct (Z.eqb_spec (numChannels info) 0); lia. }
  assert (Hlive : live enc).
  { unfold live. rewrite Hrd. unfold len. cbn [length].
    split_and!; (done || lia). }
  apply encodeLoop_stream in EL; [|done|done]. cbn [rEnc rCalls] in EL.
  destruct EL as (Hl1 & Hc1 & log & Hlog & Hall & Hfed).
  rewrite Hrd in Hfed. cbn [app] in Hfed. rewrite Hnc' in Hall.
  assert (Hhd : Forall (fun c => handed c = fed c) log).
  { eapply Forall_impl; [exact Hall|]. by intros c (_ & E & _). }
  exists log, k, (remainData (rEnc s1)). split_and!; try done.
  - rewrite Hcalls, Hlog. unfold Close.
    destruct (handle (rEnc s)); [|done]. cbn [snd app].
    by rewrite <- !app_assoc.
  - eapply Forall_impl; [exact Hall|]. intros c (E1 & E2 & E3). by rewrite E2.
  - by rewrite (handedBytes_fed _ Hhd).
  - destruct Hl1 as (_ & _ & Hlt). rewrite Hc1, Hnc' in Hlt. done.
Qed.

End EncodeFromWavRun.

Lemma EncodeFromWav_feeds_payload_witness :
  let H := constLame 0 in
  let wav := GenerateWavHeader 6 44100 2 16
             ++ [Byte.x01; Byte.x02; Byte.x03; Byte.x04; Byte.x05; Byte.x06; Byte.x07] in
  let r := EncodeFromWav wav (mkMemFile [] 0) (Some 0%nat) {[0%nat := zeroConfig]} in
  exists log szOut tail,
    dcalls r = CallInit :: log ++ [CallFlush szOut; CallClose]
    /\ Forall (fun c => isEncodeCall c = true /\ len (handed c) mod (2 * 2) = 0) log
    /\ handedBytes log ++ tail
       = take (Z.to_nat 6)
           [Byte.x01; Byte.x02; Byte.x03; Byte.x04; Byte.x05; Byte.x06; Byte.x07]
    /\ len tail < 2 * 2
    /\ (0, 0, 44100).2 = 44100.
Proof.
  intros H wav r.
  apply (EncodeFromWav_feeds_payload wav (mkMemFile [] 0) 0%nat {[0%nat := zeroConfig]}
           zeroConfig (mkWavInfo 6 44100 2 16)
           [Byte.x01; Byte.x02; Byte.x03; Byte.x04; Byte.x05; Byte.x06; Byte.x07]
           (0, 0, 44100)).
  - apply lookup_singleton_eq.
  - reflexivity.
  - cbn. lia.
  - vm_compute. reflexivity.
Defined.

Example EncodeFromWav_trace :
  let H := constLame 0 in
  let wav := GenerateWavHeader 6 44100 2 16
             ++ [Byte.x01; Byte.x02; Byte.x03; Byte.x04; Byte.x05; Byte.x06; Byte.x07] in
  dcalls (EncodeFromWav wav (mkMemFile [] 0) (Some 0%nat) {[0%nat := zeroConfig]})
  = [CallInit;
     CallEncodeInterleaved [Byte.x01; Byte.x02; Byte.x03; Byte.x04] 1 7841;
     CallFlush 7841; CallClose].
Proof. vm_compute. reflexivity. Qed.

(** ** The file DecodeToWav writes *)

Lemma memWrite_end (w : MemFile) p :
  position w = length (contents w) ->
  memWrite w p = mkMemFile (contents w ++ p) (length (contents w ++ p)).
Proof.
  intros E. unfold memWrite. rewrite E.
  rewrite firstn_all, drop_ge, app_nil_r, length_app by lia. done.
Qed.

Lemma prefix_Ok n (buf x : list byte) :
  prefix n buf = Ok x -> 0 <= n /\ len x = n.
Proof.
  unfold prefix. destruct (Z.ltb_spec n 0); cbn [orb]; [done|].
  destruct (Z.ltb_spec (len buf) n); [done|]. intros [= <-].
  unfold len in *. rewrite length_take. lia.
Qed.

Section DecodeToWavFile.
Context {D : Type} `{Mpg123 D}.

Lemma Decode_depth (d d1 : Decoder D) in_ out n out1 :
  Decode d in_ out = (Ok n, d1, out1) ->
  0 <= decSampleBitDepth d < 2 ^ 16 -> 0 <= decSampleBitDepth d1 < 2 ^ 16.
Proof.
  unfold Decode, getFormat.
  repeat case_match; simplify_eq; intros [= _ <- _]; cbn; lia.
Qed.

Lemma decodedPayload_depth f (d d' : Decoder D) pcm s payload :
  decodedPayload f d pcm s = Ok (payload, d') ->
  0 <= decSampleBitDepth d < 2 ^ 16 -> 0 <= decSampleBitDepth d' < 2 ^ 16.
Proof.
  revert d pcm s payload. induction f as [|f IH]; intros d pcm s payload; [done|].
  cbn [decodedPayload]. unfold Read.
  destruct (len (take 2048 s) =? 0); [by intros [= _ <-]|].
  destruct (Decode d (take 2048 s) pcm) as [[[n|e|p|] d1] pcm1] eqn:ED; try done.
  destruct (if 0 <? n then prefix n pcm1 else Ok []) as [x|e|p|]; try done.
  cbn [mbind outcome_bind].
  destruct (decodedPayload f d1 pcm1 (drop 2048 s)) as [[r d2]|e|p|] eqn:E; try done.
  intros [= _ <-] Hd. eapply IH; [exact E|]. by eapply Decode_depth.
Qed.

Lemma storeDecoded_file n (d : Decoder D) pcm (w : MemFile) tot x :
  prefix n pcm = Ok x -> 0 <= tot -> 0 <= n -> tot + n < 2 ^ 63 ->
  storeDecoded n (mkDecRun d pcm w tot)
  = (Ok tt, mkDecRun d pcm
              (memWrite (if tot =? 0
                         then memWrite w (replicate (Z.to_nat WavHeaderSize) Byte.x00)
                         else w) x)
              (tot + n)).
Proof.
  intros Hp Htot Hn Hsum. unfold storeDecoded.
  rewrite (M_bind_Ok _ _ _ tot (mkDecRun d pcm w tot)) by reflexivity.
  set (w1 := if tot =? 0
             then memWrite w (replicate (Z.to_nat WavHeaderSize) Byte.x00) else w).
  rewrite (M_bind_Ok _ _ _ tt (mkDecRun d pcm w1 tot))
    by (subst w1; destruct (tot =? 0); reflexivity).
  rewrite (M_bind_Ok _ _ _ pcm (mkDecRun d pcm w1 tot)) by reflexivity.
  rewrite (M_bind_Ok _ _ _ x (mkDecRun d pcm w1 tot)) by (unfold lift; by rewrite Hp).
  rewrite (M_bind_Ok _ _ _ tt (mkDecRun d pcm (memWrite w1 x) tot)) by reflexivity.
  unfold modify. cbn [qDec qPcm qWriter qTotal]. by rewrite wrap64_small by lia.
Qed.

(** On a file positioned at its end the loop appends the placeholder,
    once, before the first decoded bytes, and then every decoded byte. *)
Lemma decodeLoop_file f (d d' : Decoder D) pcm s (w : MemFile) tot payload :
  decodedPayload f d pcm s = Ok (payload, d') ->
  position w = length (contents w) -> 0 <= tot -> tot + len payload < 2 ^ 63 ->
  exists pcm',
    decodeLoop f s (mkDecRun d pcm w tot)
    = (Ok tt,
       mkDecRun d' pcm'
         (mkMemFile
            (contents w
             ++ (if (tot =? 0) && negb (bool_decide (payload = []))
                 then replicate (Z.to_nat WavHeaderSize) Byte.x00 else [])
             ++ payload)
            (length (contents w
             ++ (if (tot =? 0) && negb (bool_decide (payload = []))
                 then replicate (Z.to_nat WavHeaderSize) Byte.x00 else [])
             ++ payload)))
         (tot + len payload)).
Proof.
  revert d pcm s w tot payload.
  induction f as [|f IH]; intros d pcm s w tot payload; [done|].
  cbn [decodedPayload decodeLoop]. unfold Read.
  destruct (Z.eqb_spec (len (take 2048 s)) 0) as [E0|E0].
  { intros [= <- <-] Hpos _ _. exists pcm. rewrite E0.
    rewrite bool_decide_eq_true_2, andb_false_r, !app_nil_r, Z.add_0_r by done.
    destruct w as [c p]. cbn in *. by subst p. }
  assert (Hpos : 0 < len (take 2048 s)) by (unfold len in *; lia).
  rewrite (proj2 (Z.ltb_lt _ _) Hpos).
  destruct (Decode d (take 2048 s) pcm) as [[[n|e|p|] d1] pcm1] eqn:ED; try done.
  assert (EDo : doDecode (W:=MemFile) (take 2048 s) (mkDecRun d pcm w tot)
                = (Ok n, mkDecRun d1 pcm1 w tot)).
  { unfold doDecode. cbn [qDec qPcm qWriter qTotal]. by rewrite ED. }
  destruct (Z.ltb_spec 0 n) as [Hn|Hn].
  - destruct (prefix n pcm1) as [x|e|p|] eqn:EP; try done.
    cbn [mbind outcome_bind].
    destruct (decodedPayload f d1 pcm1 (drop 2048 s)) as [[rest d2]|e|p|] eqn:E; try done.
    intros [= <- <-] Hw Htot Hsum.
    destruct (prefix_Ok _ _ _ EP) as [_ Hx].
    assert (Hlen : len (x ++ rest) = n + len rest)
      by (unfold len in *; rewrite length_app; lia).
    rewrite Hlen in *.
    assert (Hrest : 0 <= len rest) by (unfold len; lia).
    assert (Hxne : x <> []) by (intros ->; unfold len in Hx; cbn in Hx; lia).
    set (w1 := if tot =? 0
               then memWrite w (replicate (Z.to_nat WavHeaderSize) Byte.x00) else w).
    assert (Hw1 : position w1 = length (contents w1)
                  /\ contents w1
                     = contents w ++ (if tot =? 0
                                      then replicate (Z.to_nat WavHeaderSize) Byte.x00
                                      else [])).
    { subst w1. destruct (tot =? 0); [|by rewrite app_nil_r].
      by rewrite memWrite_end by done. }
    destruct Hw1 as [Hw1p Hw1c].
    pose proof (memWrite_end w1 x Hw1p) as Hw2.
    destruct (IH d1 pcm1 (drop 2048 s) (memWrite w1 x) (tot + n) rest E
                ltac:(by rewrite Hw2) ltac:(lia) ltac:(lia)) as [pcm' IH'].
    exists pcm'.
    erewrite M_bind_Ok.
    2: { erewrite M_bind_Ok by exact EDo.
         rewrite (proj2 (Z.ltb_lt 0 n) Hn).
         apply (storeDecoded_file n d1 pcm1 w tot x EP); lia. }
    fold w1. rewrite IH'. rewrite Hw2. cbn [contents].
    rewrite (proj2 (Z.eqb_neq (tot + n) 0)) by lia. cbn [andb app].
    rewrite Hw1c.
    rewrite (bool_decide_eq_false_2 (x ++ rest = [])) by (by destruct x).
    rewrite andb_true_r. rewrite <- !app_assoc.
    do 2 f_equal. lia.
  - cbn [mbind outcome_bind].
    destruct (decodedPayload f d1 pcm1 (drop 2048 s)) as [[rest d2]|e|p|] eqn:E; try done.
    intros [= <- <-] Hw Htot Hsum. cbn [app] in *.
    destruct (IH d1 pcm1 (drop 2048 s) w tot rest E Hw Htot Hsum) as [pcm' IH'].
    exists pcm'.
    erewrite M_bind_Ok.
    2: { erewrite M_bind_Ok by exact EDo.
         rewrite (proj2 (Z.ltb_ge 0 n) Hn). reflexivity. }
    exact IH'.
Qed.

(** X13. When every [Decode] over the input succeeds and yields at least
    one byte, [DecodeToWav] leaves in an empty in-memory file exactly the
    44-byte header for the number of decoded bytes and the discovered
    format, followed by the decoded bytes in order, with the position at
    the end: the placeholder is overwritten in full and nothing of the
    payload is. When the byte count, the sample rate and the channel count
    fit their header fields, [ParseWavHeader] reads the file back as this
    format and this payload. *)
Theorem DecodeToWav_file inStream (d0 d' : Decoder D) payload :
  NewDecoder = Ok d0 ->
  decodedPayload (S (length inStream)) d0
    (replicate (Z.to_nat DecEstimateOutBufBytes) Byte.x00) inStream = Ok (payload, d') ->
  payload <> [] -> len payload + 44 < 2 ^ 63 ->
  let file := (DecodeToWav inStream (mkMemFile [] 0)).2 in
  file = mkMemFile
           (GenerateWavHeader (len payload) (decSampleRate d') (decNumChannels d')
              (decSampleBitDepth d') ++ payload)
           (44 + length payload)
  /\ (len payload < 2 ^ 32 -> 0 <= decSampleRate d' < 2 ^ 32 ->
      0 <= decNumChannels d' < 2 ^ 16 ->
      ParseWavHeader (contents file)
      = Ok (mkWavInfo (len payload) (decSampleRate d') (decNumChannels d')
              (decSampleBitDepth d'), payload)).
Proof.
  intros HN HP Hne Hsum file.
  assert (Hbits : 0 <= decSampleBitDepth d' < 2 ^ 16).
  { eapply decodedPayload_depth; [exact HP|].
    revert HN. unfold NewDecoder. repeat case_match; simplify_eq; try done.
    intros [= <-]. cbn. lia. }
  assert (Hfile : file = mkMemFile
           (GenerateWavHeader (len payload) (decSampleRate d') (decNumChannels d')
              (decSampleBitDepth d') ++ payload)
           (44 + length payload)).
  { subst file. unfold DecodeToWav. rewrite HN.
    set (pcm0 := replicate (Z.to_nat DecEstimateOutBufBytes) Byte.x00) in *.
    destruct (decodeLoop_file _ _ _ _ _ (mkMemFile [] 0) 0 _ HP eq_refl
                ltac:(lia) ltac:(lia)) as [pcm' HL].
    cbn [contents app] in HL. rewrite Z.add_0_l in HL.
    change (0 =? 0) with true in HL.
    rewrite bool_decide_eq_false_2 in HL by done. cbn [andb negb] in HL.
    change (Z.to_nat WavHeaderSize) with 44%nat in HL.
    set (t := len payload) in *.
    assert (Ht : t <> 0) by (subst t; unfold len; destruct payload; cbn; [done|lia]).
    set (c := replicate 44 Byte.x00 ++ payload) in *.
    set (hdr := GenerateWavHeader t (decSampleRate d') (decNumChannels d')
                  (decSampleBitDepth d')).
    unfold decodeStream. rewrite (M_bind_Ok _ _ _ _ _ HL).
    rewrite (M_bind_Ok _ _ _ t (mkDecRun d' pcm' (mkMemFile c (length c)) t))
      by reflexivity.
    rewrite (proj2 (Z.eqb_neq t 0)) by done.
    rewrite (M_bind_Ok _ _ _ None (mkDecRun d' pcm' (mkMemFile c 0) t)) by reflexivity.
    rewrite (M_bind_Ok _ _ _ tt (mkDecRun d' pcm' (mkMemFile c 0) t)) by reflexivity.
    rewrite (M_bind_Ok _ _ _ d' (mkDecRun d' pcm' (mkMemFile c 0) t)) by reflexivity.
    rewrite (M_bind_Ok _ _ _ tt
               (mkDecRun d' pcm' (memWrite (mkMemFile c 0) hdr) t)) by reflexivity.
    assert (Hwr : memWrite (mkMemFile c 0) hdr = mkMemFile (hdr ++ payload) 44).
    { unfold memWrite. cbn [contents position take app Nat.add].
      replace (length hdr) with 44%nat by reflexivity.
      subst c. by rewrite drop_app_length' by reflexivity. }
    rewrite Hwr.
    rewrite (M_bind_Ok _ _ _ None
               (mkDecRun d' pcm'
                  (mkMemFile (hdr ++ payload) (Z.to_nat (len (hdr ++ payload) + 0))) t))
      by reflexivity.
    cbn [qDec].
    assert (Hpos : Z.to_nat (len (hdr ++ payload) + 0) = (44 + length payload)%nat).
    { unfold len. rewrite length_app. replace (length hdr) with 44%nat by reflexivity. lia. }
    rewrite Hpos.
    unfold mbind, M_bind, lift. by destruct (go_div _ _). }
  split; [exact Hfile|].
  intros Ht Hrate Hch. rewrite Hfile. cbn [contents].
  apply ParseWavHeader_generated; try done. unfold len in *; lia.
Qed.

End DecodeToWavFile.

Lemma DecodeToWav_file_witness :
  let M := constMpg123 4 in
  let file := (DecodeToWav (replicate 3000 Byte.xff) (mkMemFile [] 0)).2 in
  file = mkMemFile (GenerateWavHeader 8 44100 2 16 ++ replicate 8 Byte.x00) 52
  /\ (8 < 2 ^ 32 -> 0 <= 44100 < 2 ^ 32 -> 0 <= 2 < 2 ^ 16 ->
      ParseWavHeader (contents file)
      = Ok (mkWavInfo 8 44100 2 16, replicate 8 Byte.x00)).
Proof.
  intros M.
  assert (HP : decodedPayload (S (length (replicate 3000 Byte.xff)))
                 (mkDecoder (Some tt) 0 0 0)
                 (replicate (Z.to_nat DecEstimateOutBufBytes) Byte.x00)
                 (replicate 3000 Byte.xff)
               = Ok (replicate 8 Byte.x00, mkDecoder (Some tt) 44100 2 16))
    by (vm_compute; reflexivity).
  exact (DecodeToWav_file (replicate 3000 Byte.xff) (mkDecoder (Some tt) 0 0 0)
           (mkDecoder (Some tt) 44100 2 16) (replicate 8 Byte.x00)
           eq_refl HP ltac:(discriminate) ltac:(vm_compute; reflexivity)).
Defined.

(** ** EncodeFromWav and the engine handle *)

Section EncodeFromWavHandle.
Context {H W : Type} `{Lame H} `{Writer W}.

(** From one state of a run to a later one: the handle is still there and
    the calls made in between neither open nor close an engine. *)
Lemma Encode_inside (enc : Encoder H) in_ out :
  (handle enc <> None -> handle (encAfter (Encode enc in_ out)) <> None)
  /\ Forall (fun c => c <> CallInit /\ c <> CallClose) (calls (Encode enc in_ out)).
Proof.
  unfold Encode, go_mod. repeat case_match; simplify_eq; cbn; split; try done;
    by repeat constructor.
Qed.

Lemma Flush_inside (enc : Encoder H) out :
  (handle enc <> None -> handle (encAfter (Flush enc out)) <> None)
  /\ Forall (fun c => c <> CallInit /\ c <> CallClose) (calls (Flush enc out)).
Proof.
  unfold Flush. repeat case_match; simplify_eq; cbn; split; try done;
    by repeat constructor.
Qed.

Lemma encodeLoop_inside f s (st st' : EncRun H W) o :
  handle (rEnc st) <> None -> encodeLoop f s st = (o, st') ->
  handle (rEnc st') <> None
  /\ exists log, rCalls st' = rCalls st ++ log
                 /\ Forall (fun c => c <> CallInit /\ c <> CallClose) log.
Proof.
  revert s st. induction f as [|f IH]; intros s st Hh.
  { cbn. intros [= _ <-]. split; [done|]. exists []. by rewrite app_nil_r. }
  cbn [encodeLoop]. unfold Read.
  destruct (Z.eqb_spec (len (take 2048 s)) 0) as [E0|E0].
  { rewrite E0. cbn. intros [= _ <-]. split; [done|]. exists []. by rewrite app_nil_r. }
  assert (Hpos : 0 < len (take 2048 s)) by (unfold len in *; lia).
  rewrite (proj2 (Z.ltb_lt _ _) Hpos).
  destruct (Encode_inside (rEnc st) (take 2048 s) (rOut st)) as [Hh1 Hc1].
  set (r := Encode (rEnc st) (take 2048 s) (rOut st)) in *.
  unfold mbind at 1, M_bind at 1.
  destruct ((encodedBytes ← doEncode (take 2048 s); emit encodedBytes) st)
    as [o1 st1] eqn:EB.
  assert (Hstep : rEnc st1 = encAfter r /\ rCalls st1 = rCalls st ++ calls r).
  { revert EB. unfold mbind, M_bind, doEncode. fold r.
    destruct (ret r) as [n|e|p|]; try (by intros [= _ <-]).
    intros EM. by apply emit_keeps in EM. }
  destruct Hstep as [Henc Hcalls].
  assert (Hh' : handle (rEnc st1) <> None) by (rewrite Henc; auto).
  destruct o1 as [[]|e|p|].
  - intros EL. destruct (IH (drop 2048 s) st1 Hh' EL) as (Hh2 & log & Hlog & Hall).
    split; [done|]. exists (calls r ++ log).
    split; [by rewrite Hlog, Hcalls, app_assoc|]. by apply Forall_app.
  - intros [= _ <-]. split; [done|]. by exists (calls r).
  - intros [= _ <-]. split; [done|]. by exists (calls r).
  - intros [= _ <-]. split; [done|]. by exists (calls r).
Qed.

Lemma encodeStream_inside rate s (st st' : EncRun H W) o :
  handle (rEnc st) <> None -> encodeStream rate s st = (o, st') ->
  handle (rEnc st') <> None
  /\ exists log, rCalls st' = rCalls st ++ log
                 /\ Forall (fun c => c <> CallInit /\ c <> CallClose) log.
Proof.
  intros Hh.
  unfold encodeStream. unfold mbind at 1, M_bind at 1.
  destruct (encodeLoop (S (length s)) s st) as [o1 st1] eqn:EL.
  destruct (encodeLoop_inside _ _ _ _ _ Hh EL) as (Hh1 & log1 & Hlog1 & Hall1).
  destruct o1 as [[]|e|p|];
    try (intros [= _ <-]; split; [done|]; by exists log1).
  destruct (Flush_inside (rEnc st1) (rOut st1)) as [Hh2 Hc2].
  set (r := Flush (rEnc st1) (rOut st1)) in *.
  assert (Hdone : handle (encAfter r) <> None
                  /\ exists log, rCalls st1 ++ calls r = rCalls st ++ log
                       /\ Forall (fun c => c <> CallInit /\ c <> CallClose) log).
  { split; [auto|]. exists (log1 ++ calls r).
    split; [by rewrite Hlog1, app_assoc|]. by apply Forall_app. }
  unfold mbind at 1, M_bind at 1, doFlush. fold r.
  destruct (ret r) as [n|e|p|]; try (by intros [= _ <-]).
  unfold mbind at 1, M_bind at 1.
  match goal with
  | |- context [emit n ?st3] => destruct (emit n st3) as [o2 st4] eqn:EM
  end.
  apply emit_keeps in EM as [Henc Hcalls]. cbn [rEnc rCalls] in Henc, Hcalls.
  rewrite <- Henc, <- Hcalls in Hdone.
  destruct o2 as [[]|e|p|]; try (by intros [= _ <-]).
  unfold mbind, M_bind, gets, lift, mret, M_ret.
  destruct (GetFrameNum (rEnc st4)); by intros [= _ <-].
Qed.

(** X14. With a valid configuration pointer, [EncodeFromWav] closes the
    engine exactly once on every path on which it obtained one: the
    engine calls are none at all (the header was rejected or is not
    16-bit), or the single failed [lame_init], or [lame_init] first and
    the close last with neither of the two in between, whether the
    encoding succeeded, failed or panicked. *)
Theorem EncodeFromWav_closes_once wavStream (writer : W) l (st : Store) cfg :
  st !! l = Some cfg ->
  let r := EncodeFromWav (H:=H) wavStream writer (Some l) st in
  (dcalls r = []
   /\ forall info rest, ParseWavHeader wavStream = Ok (info, rest) ->
                        bitsPerSample info <> 16)
  \/ (dcalls r = [CallInit] /\ dret r = Fail ErrLameInit)
  \/ exists log,
       dcalls r = CallInit :: log ++ [CallClose]
       /\ Forall (fun c => c <> CallInit /\ c <> CallClose) log.
Proof.
  intros Hl r. subst r. unfold EncodeFromWav.
  destruct (ParseWavHeader wavStream) as [[info rest]|e|p|];
    try (left; split; [done|]; intros; done).
  unfold SampleBitDepth.
  destruct (Z.eqb_spec (bitsPerSample info) 16) as [Hb|Hb]; cbn [negb].
  2: { left. split; [done|]. by intros ? ? [= <- _]. }
  right. cbn [mbind option_bind]. rewrite Hl. cbv zeta.
  set (cfg1 := setNumChannels _ _). set (st1 := <[l := cfg1]> st).
  assert (Hl1 : st1 !! l = Some cfg1) by apply lookup_insert_eq.
  destruct (NewEncoder (Some l) st1) as [[o st2] cs] eqn:EN.
  destruct o as [enc|e|p|].
  - destruct (NewEncoder_Ok l st1 st2 cfg1 enc cs Hl1 EN) as (-> & Hh & _ & _).
    right.
    destruct (EstimateOutBufBytes enc 2048) as [est|e|p|];
      try (exists []; by split).
    destruct (est <? 0); [exists []; by split|].
    match goal with
    | |- context [encodeStream ?a ?b ?c] =>
        destruct (encodeStream a b c) as [o s] eqn:ES;
        destruct (encodeStream_inside a b c s o Hh ES) as (Hh' & log & Hlog & Hall)
    end.
    cbn [snd rCalls] in *. cbn [dcalls]. exists log. split; [|done].
    rewrite Hlog. unfold Close. destruct (handle (rEnc s)); [|done].
    cbn [snd app]. done.
  - revert EN. unfold NewEncoder. destruct lame_init as [h|]; [|by intros [= <- _ <-]; left].
    unfold populateEncConfig. rewrite Hl1, lookup_insert_eq.
    destruct (initParams h (populated cfg1)) as [[h' fs]|e'|p|]; try done.
    { cbn [mbind option_bind]. by rewrite lookup_insert_eq. }
    intros [= _ _ <-]. right. exists []. by split.
  - exfalso. revert EN. unfold NewEncoder. destruct lame_init as [h|]; [|done].
    unfold populateEncConfig. rewrite Hl1, lookup_insert_eq.
    destruct (initParams h (populated cfg1)) as [[h' fs]|e'|p'|] eqn:EP; try done.
    { cbn [mbind option_bind]. by rewrite lookup_insert_eq. }
    revert EP. unfold initParams, lame_ok, mbind, outcome_bind.
    repeat case_match; simplify_eq; done.
  - exfalso. revert EN. unfold NewEncoder. destruct lame_init as [h|]; [|done].
    unfold populateEncConfig. rewrite Hl1, lookup_insert_eq.
    destruct (initParams h (populated cfg1)) as [[h' fs]|e'|p'|] eqn:EP; try done.
    { cbn [mbind option_bind]. by rewrite lookup_insert_eq. }
    revert EP. unfold initParams, lame_ok, mbind, outcome_bind.
    repeat case_match; simplify_eq; done.
Qed.

End EncodeFromWavHandle.

Lemma EncodeFromWav_closes_once_witness :
  let H := constLame (-1) in
  let r := EncodeFromWav (GenerateWavHeader 4 44100 2 16 ++ replicate 4 Byte.x01)
             (mkMemFile [] 0) (Some 0%nat) {[0%nat := zeroConfig]} in
  dret r = Fail ErrorBufferTooSmall
  /\ ((dcalls r = []
       /\ forall info rest,
            ParseWavHeader (GenerateWavHeader 4 44100 2 16 ++ replicate 4 Byte.x01)
            = Ok (info, rest) -> bitsPerSample info <> 16)
      \/ (dcalls r = [CallInit] /\ dret r = Fail ErrLameInit)
      \/ exists log,
           dcalls r = CallInit :: log ++ [CallClose]
           /\ Forall (fun c => c <> CallInit /\ c <> CallClose) log).
Proof.
  intros H r. split; [vm_compute; reflexivity|].
  apply (EncodeFromWav_closes_once
           (GenerateWavHeader 4 44100 2 16 ++ replicate 4 Byte.x01)
           (mkMemFile [] 0) 0%nat {[0%nat := zeroConfig]} zeroConfig).
  apply lookup_singleton_eq.
Defined.

(** ** The byte count EncodeFromWav reports *)

Lemma wrap64_range v : - 2 ^ 63 <= wrap64 v < 2 ^ 63.
Proof. unfold wrap64. pose proof (Z.mod_pos_bound (v + 2 ^ 63) (2 ^ 64)). lia. Qed.

Lemma wrap64_add_l a b : wrap64 (wrap64 a + b) = wrap64 (a + b).
Proof.
  unfold wrap64.
  replace ((a + 2 ^ 63) mod 2 ^ 64 - 2 ^ 63 + b + 2 ^ 63)
    with ((a + 2 ^ 63) mod 2 ^ 64 + b) by lia.
  rewrite Zplus_mod_idemp_l. do 2 f_equal. lia.
Qed.

Section EncodeFromWavTotal.
Context {H : Type} `{Lame H}.

Lemma emit_written n (st st' : EncRun H Pipe) :
  - 2 ^ 63 <= rTotal st < 2 ^ 63 ->
  emit n st = (Ok tt, st') ->
  exists x, piped (rWriter st') = piped (rWriter st) ++ x
            /\ rTotal st' = wrap64 (rTotal st + len x).
Proof.
  intros Hr. unfold emit. destruct (Z.ltb_spec 0 n) as [Hn|Hn].
  - unfold mbind, M_bind, modify, gets, lift, doWrite.
    cbn [rEnc rOut rWriter rTotal rCalls].
    destruct (prefix n (rOut st)) as [x|e|p|] eqn:EP; try done.
    destruct (prefix_Ok _ _ _ EP) as [_ Hx].
    cbn [Write Pipe_writer rEnc rOut rWriter rTotal rCalls piped].
    intros [= <-]. exists x. cbn [rWriter rTotal piped].
    split; [done|]. by rewrite Hx.
  - intros [= <-]. exists []. rewrite app_nil_r, Z.add_0_r.
    split; [done|]. by rewrite wrap64_small.
Qed.

Lemma encodeLoop_written f s (st st' : EncRun H Pipe) :
  - 2 ^ 63 <= rTotal st < 2 ^ 63 ->
  encodeLoop f s st = (Ok tt, st') ->
  exists x, piped (rWriter st') = piped (rWriter st) ++ x
            /\ rTotal st' = wrap64 (rTotal st + len x).
Proof.
  revert s st. induction f as [|f IH]; intros s st Hr; [done|].
  cbn [encodeLoop]. unfold Read.
  destruct (Z.eqb_spec (len (take 2048 s)) 0) as [E0|E0].
  { rewrite E0. cbn. intros [= <-]. exists []. rewrite app_nil_r, Z.add_0_r.
    split; [done|]. by rewrite wrap64_small. }
  assert (Hpos : 0 < len (take 2048 s)) by (unfold len in *; lia).
  rewrite (proj2 (Z.ltb_lt _ _) Hpos).
  unfold mbind at 1, M_bind at 1.
  destruct ((encodedBytes ← doEncode (take 2048 s); emit encodedBytes) st)
    as [[[]|e|p|] st1] eqn:EB; try done.
  revert EB. unfold mbind, M_bind, doEncode.
  destruct (ret (Encode (rEnc st) (take 2048 s) (rOut st))) as [n|e|p|]; try done.
  intros EM EL. apply emit_written in EM as (x1 & Hw1 & Ht1); [|done].
  cbn [rWriter rTotal] in Hw1, Ht1.
  apply IH in EL as (x2 & Hw2 & Ht2); [|rewrite Ht1; apply wrap64_range].
  exists (x1 ++ x2). split; [by rewrite Hw2, Hw1, app_assoc|].
  rewrite Ht2, Ht1, wrap64_add_l.
  f_equal. unfold len. rewrite length_app. lia.
Qed.

(** X15. The byte count a successful [EncodeFromWav] returns is the
    number of bytes it has written: to a destination that takes writes in
    order it appends the encoder output and nothing else, and the count
    is the length of what was appended (as a Go int). *)
Theorem EncodeFromWav_total wavStream (w : Pipe) config (st : Store) total frames rate :
  dret (EncodeFromWav (H:=H) wavStream w config st) = Ok (total, frames, rate) ->
  exists mp3,
    piped (dwriter (EncodeFromWav (H:=H) wavStream w config st)) = piped w ++ mp3
    /\ total = wrap64 (len mp3)
    /\ (len mp3 < 2 ^ 63 -> total = len mp3).
Proof.
  unfold EncodeFromWav.
  destruct (ParseWavHeader wavStream) as [[info rest]|e|p|]; try done.
  destruct (negb _); [done|].
  destruct (config ≫= _) as [cfg|]; [|done]. cbv zeta.
  match goal with
  | |- context [NewEncoder ?c ?st] =>
      destruct (NewEncoder (H:=H) c st) as [[[enc|e|p|] st'] cs]; try done
  end.
  destruct (EstimateOutBufBytes enc 2048) as [est|e|p|]; try done.
  destruct (est <? 0); [done|].
  match goal with
  | |- context [encodeStream ?a ?b ?c] =>
      destruct (encodeStream a b c) as [o s] eqn:ES
  end.
  cbn [dret dwriter]. intros ->. revert ES.
  unfold encodeStream. unfold mbind at 1, M_bind at 1.
  match goal with
  | |- context [encodeLoop ?f ?s0 ?st0] =>
      destruct (encodeLoop f s0 st0) as [[[]|?|?|] st1] eqn:EL; try done
  end.
  apply encodeLoop_written in EL as (x1 & Hw1 & Ht1); [|cbn; lia].
  cbn [rWriter rTotal] in Hw1, Ht1.
  unfold mbind at 1, M_bind at 1, doFlush.
  destruct (ret (Flush (rEnc st1) (rOut st1))) as [n|?|?|]; try done.
  unfold mbind at 1, M_bind at 1.
  match goal with
  | |- context [emit n ?st3] => destruct (emit n st3) as [[[]|?|?|] st4] eqn:EM; try done
  end.
  apply emit_written in EM as (x2 & Hw2 & Ht2);
    [|cbn [rTotal]; rewrite Ht1; apply wrap64_range].
  cbn [rWriter rTotal] in Hw2, Ht2.
  unfold mbind, M_bind, gets, lift, mret, M_ret.
  destruct (GetFrameNum (rEnc st4)) as [fr|?|?|]; try done.
  intros [= Htot _ _ <-].
  exists (x1 ++ x2). split; [by rewrite Hw2, Hw1, app_assoc|].
  assert (Ht : total = wrap64 (len (x1 ++ x2))).
  { rewrite <- Htot, Ht2, Ht1, wrap64_add_l.
    f_equal. unfold len. rewrite length_app. lia. }
  split; [done|]. intros Hlt. rewrite Ht. apply wrap64_small. unfold len in *. lia.
Qed.

End EncodeFromWavTotal.

Lemma EncodeFromWav_total_witness :
  let H := constLame 3 in
  let wav := GenerateWavHeader 4 44100 2 16 ++ replicate 4 Byte.x01 in
  exists mp3,
    piped (dwriter (EncodeFromWav wav (mkPipe []) (Some 0%nat) {[0%nat := zeroConfig]}))
    = [] ++ mp3
    /\ 6 = wrap64 (len mp3)
    /\ (len mp3 < 2 ^ 63 -> 6 = len mp3).
Proof.
  intros H wav.
  apply (EncodeFromWav_total wav (mkPipe []) (Some 0%nat) {[0%nat := zeroConfig]}
           6 0 44100).
  vm_compute. reflexivity.
Defined.

(** ** The feed-and-drain step *)

Import Shim.

Section Drain.
Context {D : Type} `{Raw D}.

Lemma size_t_small v : 0 <= v < 2 ^ 64 -> size_t v = v.
Proof. intros Hv. unfold size_t. by rewrite Z.mod_small. Qed.

(** The count only grows, and by no more than the room that was left. *)
Lemma drain_bounded f mh out pOut outSize bd e bd' out' mh' :
  wellBehaved D -> 0 <= bd -> 0 <= outSize -> bd + outSize < 2 ^ 31 ->
  drain f mh out pOut outSize bd = Ok (e, bd', out', mh') ->
  bd <= bd' <= bd + outSize.
Proof.
  intros [Hcap _]. revert mh out pOut outSize bd.
  induction f as [|f IH]; intros mh out pOut outSize bd Hbd Hsz Hsum; [done|].
  cbn [drain]. rewrite size_t_small by lia.
  pose proof (Hcap mh out pOut outSize Hsz) as Hn.
  destruct (mpg123_read mh out pOut outSize) as [[[errNo n] o] m].
  cbn [fst snd] in Hn. rewrite (cint_small n) by lia.
  destruct (negb (errNo =? MPG123_OK)).
  - destruct (_ || _).
    + intros [= _ <- _ _]. rewrite cint_small by lia. lia.
    + destruct (errNo =? MPG123_NEW_FORMAT).
      * intros Hrec. by apply IH in Hrec.
      * intros [= _ <- _ _]. lia.
  - destruct (n =? 0).
    + intros [= _ <- _ _]. lia.
    + rewrite !cint_small by lia. intros Hrec. apply IH in Hrec; lia.
Qed.

(** Fuel for twice the room and two more reads is enough. *)
Lemma drain_enough f mh out pOut outSize bd :
  wellBehaved D -> 0 <= outSize < 2 ^ 31 ->
  ((2 * Z.to_nat outSize + 2 <= f)%nat
   \/ ((2 * Z.to_nat outSize + 1 <= f)%nat
       /\ forall o p c, (mpg123_read mh o p c).1.1.1 <> MPG123_NEW_FORMAT)) ->
  drain f mh out pOut outSize bd <> OutOfFuel.
Proof.
  intros [Hcap Hnf]. revert mh out pOut outSize bd.
  induction f as [|f IH]; intros mh out pOut outSize bd Hsz Hf.
  { destruct Hf as [?|[? _]]; lia. }
  cbn [drain]. rewrite size_t_small by lia.
  pose proof (Hcap mh out pOut outSize ltac:(lia)) as Hn.
  pose proof (Hnf mh out pOut outSize) as Hq.
  assert (Hcase : (2 * Z.to_nat outSize + 2 <= S f)%nat
                  \/ ((2 * Z.to_nat outSize + 1 <= S f)%nat
                      /\ (mpg123_read mh out pOut outSize).1.1.1 <> MPG123_NEW_FORMAT)).
  { destruct Hf as [?|[? Hno]]; [by left|]. right. split; [done|apply Hno]. }
  clear Hf.
  destruct (mpg123_read mh out pOut outSize) as [[[errNo n] o] m].
  cbn [fst snd] in Hn, Hq, Hcase. rewrite (cint_small n) by lia.
  destruct (negb (errNo =? MPG123_OK)).
  - destruct (_ || _); [done|].
    destruct (Z.eqb_spec errNo MPG123_NEW_FORMAT) as [E|E]; [|done].
    apply IH; [done|]. right. split.
    + destruct Hcase as [Hf|[_ Hno]]; [lia|done].
    + intros o' p' c'. by apply Hq.
  - destruct (Z.eqb_spec n 0); [done|].
    rewrite cint_small by lia. apply IH; [lia|]. left.
    destruct Hcase as [Hf|[Hf _]]; lia.
Qed.

(** The loop itself raises nothing: it returns a status or is cut short. *)
Lemma drain_returns f mh out pOut outSize bd :
  match drain f mh out pOut outSize bd with
  | Fail _ | Panic _ => False
  | _ => True
  end.
Proof.
  revert mh out pOut outSize bd.
  induction f as [|f IH]; intros mh out pOut outSize bd; [done|]. cbn [drain].
  destruct (mpg123_read mh out pOut (size_t outSize)) as [[[errNo n] o] m].
  destruct (negb (errNo =? MPG123_OK)).
  - destruct (_ || _); [done|]. destruct (errNo =? MPG123_NEW_FORMAT); [apply IH|done].
  - destruct (cint n =? 0); [done|apply IH].
Qed.

(** X16. With an engine that keeps the promises of [mpg123_read], a call
    of [mpg123_DecodeWrapped] on a buffer of [outSize] bytes comes back
    within [2 * outSize + 2] reads, and the count it reports is between
    zero and [outSize]: the bytes reported never exceed the room in the
    output buffer. When feeding fails it returns that status without
    reading and leaves the count alone. *)
Theorem mpg123_DecodeWrapped_bounded mh pBuffer bufferSize out outSize :
  wellBehaved D -> 0 <= outSize < 2 ^ 31 ->
  exists e bd out' mh',
    mpg123_DecodeWrapped (2 * Z.to_nat outSize + 2) mh pBuffer bufferSize
      out outSize 0 = Ok (e, bd, out', mh')
    /\ 0 <= bd <= outSize
    /\ ((mpg123_feed mh pBuffer (size_t bufferSize)).1 <> MPG123_OK ->
        e = (mpg123_feed mh pBuffer (size_t bufferSize)).1 /\ bd = 0 /\ out' = out
        /\ mh' = (mpg123_feed mh pBuffer (size_t bufferSize)).2).
Proof.
  intros HW Hsz. unfold mpg123_DecodeWrapped.
  destruct (mpg123_feed mh pBuffer (size_t bufferSize)) as [errNo m1].
  cbn [fst snd].
  destruct (Z.eqb_spec errNo MPG123_OK) as [E|E]; cbn [negb].
  - pose proof (drain_enough (2 * Z.to_nat outSize + 2) m1 out 0 outSize 0 HW Hsz
                  ltac:(left; lia)) as Hfuel.
    pose proof (drain_returns (2 * Z.to_nat outSize + 2) m1 out 0 outSize 0) as Hret.
    destruct (drain _ m1 out 0 outSize 0) as [[[[e bd] o] m2]|?|?|] eqn:ED; try done.
    exists e, bd, o, m2. split; [done|]. split.
    + assert (0 <= bd <= 0 + outSize) as Hb; [|lia].
      eapply (drain_bounded _ m1 out 0 outSize 0); [done|lia|lia|lia|exact ED].
    + intros Hne. done.
  - exists errNo, 0, out, m1. split_and!; (done || lia).
Qed.

End Drain.

Lemma toyRaw_wellBehaved : @wellBehaved (bool * Z) toyRaw.
Proof.
  split.
  - intros [a r] out p cap Hcap. cbn.
    destruct a; cbn; [|lia]. destruct (Z.leb_spec r 0); cbn; lia.
  - intros [a r] out p cap. cbn. destruct a; cbn.
    + destruct (Z.leb_spec r 0); cbn; done.
    + intros _ out' p' cap'. cbn. destruct (Z.leb_spec r 0); cbn; done.
Qed.

Lemma mpg123_DecodeWrapped_bounded_witness :
  let R := toyRaw in
  exists e bd out' mh',
    mpg123_DecodeWrapped (2 * Z.to_nat 16 + 2) (false, 0) [Byte.xff; Byte.xfb] 2
      (replicate 16 Byte.x00) 16 0 = Ok (e, bd, out', mh')
    /\ 0 <= bd <= 16
    /\ ((mpg123_feed (false, 0) [Byte.xff; Byte.xfb] (size_t 2)).1 <> MPG123_OK ->
        e = (mpg123_feed (false, 0) [Byte.xff; Byte.xfb] (size_t 2)).1 /\ bd = 0
        /\ out' = replicate 16 Byte.x00
        /\ mh' = (mpg123_feed (false, 0) [Byte.xff; Byte.xfb] (size_t 2)).2).
Proof.
  intros R.
  apply (mpg123_DecodeWrapped_bounded (D:=bool * Z) (false, 0) [Byte.xff; Byte.xfb] 2
           (replicate 16 Byte.x00) 16 toyRaw_wellBehaved).
  lia.
Defined.

Example mpg123_DecodeWrapped_toy :
  let R := toyRaw in
  mpg123_DecodeWrapped 34 (false, 0) [Byte.xff; Byte.xfb] 2 (replicate 16 Byte.x00) 16 0
  = Ok (0, 8, replicate 16 Byte.x00, (true, 0)).
Proof. vm_compute. reflexivity. Qed.
